(** * The Tron identity disk: mesh sampler, material classifier, frame rotation

    A shallow embedding of the algorithmic core of the portfolio's
    [TronDisk] components:

    - the [ParticleHead] component (the second part of [shaders.ts]):
      [extractPositions], [generateFallbackSphere], [samplePositions],
      [normalizePositions], the [useModelPositions] hook and the per-frame
      callback of [ParticleHead];
    - [DiskFrame.tsx]: the material classification of [GltfDisk] and the
      per-frame callback of [DiskFrame].

    Numbers.  A JavaScript number is a binary64 and an element of a
    [Float32Array] a binary32.  A finite number is modelled as a rational;
    the three special values [Infinity], [-Infinity] and [NaN] are kept,
    because [normalizePositions] starts its bounding box at the infinities
    and divides by an extent that can be zero.  [Ieee.double] and
    [Ieee.single] round a rational to the two formats (to nearest, ties to
    even, with subnormal numbers and overflow); the sign of zero is not
    modelled.  The functions are embedded at two levels:

    - over exact rationals ([Sampler], [Normalizer], [DiskScale]), for the
      statements that no rounding can change (the guard of
      [samplePositions], lengths, which numbers are copied, the division
      by a zero extent) and for those the specification itself scopes to
      exact arithmetic;
    - with every operation rounded ([Doubles], [Frame], [Buffers]), where
      the rounding decides: the index [samplePositions] reads, the rotation
      accumulated frame after frame, the numbers stored in the random
      buffers.

    The trigonometric generator [generateFallbackSphere] is embedded over
    the real numbers of the Standard Library.

    Randomness.  [Math.random()] is a stream [rnd : nat -> Q]; [rnd k] is
    the result of the [k]-th call made by the function under study.  The
    functions that draw random numbers call it exactly once per loop
    iteration, so iteration [i] reads [rnd i]. *)

From Stdlib Require Import ZArith QArith Qround Qabs Qcanon Qpower Lia Lra Lqa.
From Stdlib Require Import String Ascii Permutation.
From Stdlib Require Import Reals.
From stdpp Require Import base list.

Open Scope Q_scope.

(** ** Counted loops *)

(** [for (let i = 0; i < n; i++) s = body i s]. *)
Definition for_loop {S : Type} (n : nat) (body : nat -> S -> S) (s : S) : S :=
  fold_left (fun acc i => body i acc) (seq 0 n) s.

(** The array a loop builds when iteration [i] stores [h0 i], [h1 i] and
    [h2 i] in three consecutive slots. *)
Definition triples {A : Type} (h0 h1 h2 : nat -> A) (n : nat) : list A :=
  flat_map (fun i => [h0 i; h1 i; h2 i]) (seq 0 n).

(** The number of iterations of [for (let i = 0; i < bound; i++)] when
    [bound] is any finite number: the least natural [n] with [bound <= n]. *)
Definition trip_count (bound : Q) : nat := Z.to_nat (Qceiling bound).

(** ** JavaScript numbers *)

Module JsNum.

Inductive num : Type :=
| Fin (q : Q)
| PInf
| NInf
| NaN.

(** Finite results are kept in lowest terms, so that two finite results
    that are equal as rationals are the same value. *)
Definition fin (q : Q) : num := Fin (Qred q).

Definition of_nat (n : nat) : num := Fin (inject_Z (Z.of_nat n)).

Definition is_fin (a : num) : Prop :=
  match a with Fin _ => True | _ => False end.

(** The rational a finite number holds. *)
Definition qval (a : num) : Q :=
  match a with Fin q => q | _ => 0 end.

Definition neg (a : num) : num :=
  match a with
  | Fin q => fin (- q)
  | PInf => NInf
  | NInf => PInf
  | NaN => NaN
  end.

Definition add (a b : num) : num :=
  match a, b with
  | NaN, _ | _, NaN => NaN
  | Fin x, Fin y => fin (x + y)
  | PInf, NInf | NInf, PInf => NaN
  | PInf, _ | _, PInf => PInf
  | NInf, _ | _, NInf => NInf
  end.

Definition sub (a b : num) : num := add a (neg b).

(** The infinity of the sign of [q], [NaN] for zero. *)
Definition inf_of_sign (q : Q) : num :=
  match q ?= 0 with
  | Gt => PInf
  | Lt => NInf
  | Eq => NaN
  end.

Definition mul (a b : num) : num :=
  match a, b with
  | NaN, _ | _, NaN => NaN
  | Fin x, Fin y => fin (x * y)
  | Fin x, PInf | PInf, Fin x => inf_of_sign x
  | Fin x, NInf | NInf, Fin x => inf_of_sign (- x)
  | PInf, PInf | NInf, NInf => PInf
  | PInf, NInf | NInf, PInf => NInf
  end.

Definition div (a b : num) : num :=
  match a, b with
  | NaN, _ | _, NaN => NaN
  | Fin x, Fin y =>
      match y ?= 0 with
      | Eq => inf_of_sign x
      | _ => fin (x / y)
      end
  | Fin _, _ => Fin 0
  | PInf, Fin y => match y ?= 0 with Lt => NInf | _ => PInf end
  | NInf, Fin y => match y ?= 0 with Lt => PInf | _ => NInf end
  | _, _ => NaN
  end.

(** [Math.min] and [Math.max] of two arguments. *)
Definition min (a b : num) : num :=
  match a, b with
  | NaN, _ | _, NaN => NaN
  | NInf, _ | _, NInf => NInf
  | PInf, c | c, PInf => c
  | Fin x, Fin y => if Qle_bool x y then a else b
  end.

Definition max (a b : num) : num :=
  match a, b with
  | NaN, _ | _, NaN => NaN
  | PInf, _ | _, PInf => PInf
  | NInf, c | c, NInf => c
  | Fin x, Fin y => if Qle_bool x y then b else a
  end.

(** [Math.floor]. *)
Definition floor (a : num) : num :=
  match a with
  | Fin q => Fin (inject_Z (Qfloor q))
  | _ => a
  end.

(** [a <= b]; every comparison with [NaN] is false. *)
Definition leb (a b : num) : bool :=
  match a, b with
  | NaN, _ | _, NaN => false
  | NInf, _ | _, PInf => true
  | Fin x, Fin y => Qle_bool x y
  | _, _ => false
  end.

(** The array index a number denotes as a property key: a non-negative
    integer.  Any other key names no element. *)
Definition as_index (k : num) : option nat :=
  match k with
  | Fin q =>
      let r := Qred q in
      if ((Qden r =? 1)%positive && (0 <=? Qnum r)%Z)%bool
      then Some (Z.to_nat (Qnum r)) else None
  | _ => None
  end.

End JsNum.

Import JsNum.

(** ** Rounding to a binary format *)

Module Ieee.

(** [2 ^ e] for an integer exponent of either sign. *)
Definition pow2 (e : Z) : Q := 2 ^ e.

(** [floor (log2 q)] for a positive [q]. *)
Definition ilog2 (q : Q) : Z :=
  let e := (Z.log2 (Qnum q) - Z.log2 (Zpos (Qden q)))%Z in
  if Qle_bool (pow2 e) q then e else (e - 1)%Z.

(** The integer nearest to [x]; a tie goes to the even one. *)
Definition rne (x : Q) : Z :=
  let f := Qfloor x in
  match Qcompare (x - inject_Z f) (1 # 2) with
  | Lt => f
  | Gt => (f + 1)%Z
  | Eq => if Z.even f then f else (f + 1)%Z
  end.

(** The exponent of the unit in the last place of a positive [q], in the
    binary format of precision [prec] and greatest exponent [emax]; the
    least positive number of the format is [2 ^ (2 - emax - prec)]. *)
Definition ulp_exp (prec emax : Z) (q : Q) : Z :=
  Z.max (ilog2 q - prec + 1) (2 - emax - prec).

(** Rounding of a positive number to nearest, ties to even, before the
    range check. *)
Definition round_pos (prec emax : Z) (q : Q) : Q :=
  let e := ulp_exp prec emax q in
  inject_Z (rne (q / pow2 e)) * pow2 e.

(** Rounding is symmetric about zero. *)
Definition round_bin (prec emax : Z) (q : Q) : Q :=
  match Qcompare q 0 with
  | Eq => 0
  | Gt => round_pos prec emax q
  | Lt => - round_pos prec emax (- q)
  end.

(** The number of the format nearest to [q]: an infinity when the rounded
    value is out of range. *)
Definition binary (prec emax : Z) (q : Q) : num :=
  let r := round_bin prec emax q in
  if Qle_bool (pow2 (emax + 1)) (Qabs r)
  then (if Qle_bool 0 r then PInf else NInf)
  else fin r.

(** A JavaScript number is a [binary64]; an element of a [Float32Array]
    is a [binary32]. *)
Definition double : Q -> num := binary 53 1023.
Definition single : Q -> num := binary 24 127.

(** A number of the format, written [z * 2 ^ e]. *)
Definition representable (prec emax : Z) (q : Q) : Prop :=
  exists z e : Z,
    (Z.abs z < 2 ^ prec)%Z /\ (2 - emax - prec <= e <= emax - prec)%Z /\
    q == inject_Z z * pow2 e.

(** What the proofs use of a rounding function [rd] to the format: the
    numbers [z * 2 ^ e] of the format are kept; rounding preserves the
    order; and the error is at most [2 ^ - prec] times the number, plus
    half the least positive number of the format. *)
Record Rounding (prec emax : Z) (rd : Q -> num) : Prop := mkRounding {
  rd_exact : forall z e : Z,
    (Z.abs z < 2 ^ prec)%Z -> (2 - emax - prec <= e <= emax - prec)%Z ->
    rd (Qred (inject_Z z * pow2 e)) = fin (inject_Z z * pow2 e);
  rd_mono : forall p q : Q,
    p <= q -> leb (rd (Qred p)) (rd (Qred q)) = true;
  rd_err : forall q q' : Q,
    rd (Qred q) = Fin q' ->
    Qabs (q' - q) <= pow2 (- prec) * Qabs q + pow2 (1 - emax - prec)
}.

End Ieee.

(** ** Rounded arithmetic *)

Module Rounded.

(** An operation of the language yields its exact result, rounded by
    [rd]; so does a store into a typed array. *)
Definition rounded (rd : Q -> num) (x : num) : num :=
  match x with
  | Fin q => rd (Qred q)
  | _ => x
  end.

Definition fadd (rd : Q -> num) (a b : num) : num := rounded rd (add a b).
Definition fsub (rd : Q -> num) (a b : num) : num := rounded rd (sub a b).
Definition fmul (rd : Q -> num) (a b : num) : num := rounded rd (mul a b).
Definition fdiv (rd : Q -> num) (a b : num) : num := rounded rd (div a b).

End Rounded.

Import Rounded.

(** ** Typed arrays *)

(** A [Float32Array] is the list of its elements. *)
Abbreviation f32 := (list num).

(** [new Float32Array(n)]: [n] zeros. *)
Definition f32_new (n : nat) : f32 := replicate n (Fin 0).

(** [a[i]] for a loop counter [i]: an index past the end reads
    [undefined], which every arithmetic operation turns into [NaN]. *)
Definition aget (a : f32) (i : nat) : num := default NaN (a !! i).

(** [a[k]] for a computed number [k]. *)
Definition aget_num (a : f32) (k : num) : num :=
  match as_index k with
  | Some i => aget a i
  | None => NaN
  end.

(** [a[i] = v]: a typed array has a fixed length, and a store past its end
    is ignored. *)
Definition aset (a : f32) (i : nat) (v : num) : f32 := <[i := v]> a.

(** ** [samplePositions] *)

(** The function in exact arithmetic.  [Doubles], below, is the same
    function with every operation rounded; with the identity as rounding
    function the two agree (theorem [samplePositions_exact]). *)
Module Sampler.

(** [allPositions.length / 3]. *)
Definition totalVertices (allPositions : f32) : Q :=
  inject_Z (Z.of_nat (length allPositions)) / 3.

(** [totalVertices / maxCount]. *)
Definition step (total : Q) (maxCount : nat) : num :=
  div (Fin total) (of_nat maxCount).

(** The index computed in iteration [i]:
    [Math.min(Math.floor(i * step + Math.random() * step), totalVertices - 1)]. *)
Definition sampleIndex (total : Q) (maxCount : nat) (rnd : nat -> Q) (i : nat) : num :=
  let step := step total maxCount in
  min (floor (add (mul (of_nat i) step) (mul (Fin (rnd i)) step)))
      (sub (Fin total) (Fin 1)).

(** One iteration of the loop body. *)
Definition sampleBody (allPositions : f32) (total : Q) (maxCount : nat)
    (rnd : nat -> Q) (i : nat) (sampled : f32) : f32 :=
  let idx := sampleIndex total maxCount rnd i in
  let sampled := aset sampled (i * 3) (aget_num allPositions (mul idx (Fin 3))) in
  let sampled := aset sampled (i * 3 + 1) (aget_num allPositions (add (mul idx (Fin 3)) (Fin 1))) in
  aset sampled (i * 3 + 2) (aget_num allPositions (add (mul idx (Fin 3)) (Fin 2))).

Definition samplePositions (allPositions : f32) (maxCount : nat) (rnd : nat -> Q) : f32 :=
  let total := totalVertices allPositions in
  if Qle_bool total (inject_Z (Z.of_nat maxCount)) then allPositions
  else
    let sampled := f32_new (maxCount * 3) in
    for_loop maxCount (sampleBody allPositions total maxCount rnd) sampled.

(** Five points, sampled down to two with the offsets 0.875 and 0. *)
Definition fivePoints : f32 :=
  map (fun z => Fin (inject_Z z))
      [10; 11; 12; 20; 21; 22; 30; 31; 32; 40; 41; 42; 50; 51; 52]%Z.

Definition lateThenEarly (i : nat) : Q :=
  match i with
  | O => 7 # 8
  | _ => 0
  end.

End Sampler.

Import Sampler.

(** ** [samplePositions] in double precision *)

(** The function again, every operation rounded by [rd]. *)
Module Doubles.

Section Arithmetic.

Variable rd : Q -> num.

(** [allPositions.length / 3]. *)
Definition totalVertices (allPositions : f32) : num :=
  fdiv rd (of_nat (length allPositions)) (Fin 3).

(** [totalVertices / maxCount]. *)
Definition step (total : num) (maxCount : nat) : num :=
  fdiv rd total (of_nat maxCount).

(** [Math.floor(i * step + Math.random() * step)]. *)
Definition drawnIndex (total : num) (maxCount : nat) (rnd : nat -> Q) (i : nat) : num :=
  let step := step total maxCount in
  floor (fadd rd (fmul rd (of_nat i) step) (fmul rd (Fin (rnd i)) step)).

(** [Math.min(Math.floor(...), totalVertices - 1)]. *)
Definition sampleIndex (total : num) (maxCount : nat) (rnd : nat -> Q) (i : nat) : num :=
  min (drawnIndex total maxCount rnd i) (fsub rd total (Fin 1)).

(** One iteration of the loop body. *)
Definition sampleBody (allPositions : f32) (total : num) (maxCount : nat)
    (rnd : nat -> Q) (i : nat) (sampled : f32) : f32 :=
  let idx := sampleIndex total maxCount rnd i in
  let sampled := aset sampled (i * 3) (aget_num allPositions (fmul rd idx (Fin 3))) in
  let sampled :=
    aset sampled (i * 3 + 1)
         (aget_num allPositions (fadd rd (fmul rd idx (Fin 3)) (Fin 1))) in
  aset sampled (i * 3 + 2)
       (aget_num allPositions (fadd rd (fmul rd idx (Fin 3)) (Fin 2))).

Definition samplePositions (allPositions : f32) (maxCount : nat) (rnd : nat -> Q) : f32 :=
  let total := totalVertices allPositions in
  if leb total (of_nat maxCount) then allPositions
  else
    let sampled := f32_new (maxCount * 3) in
    for_loop maxCount (sampleBody allPositions total maxCount rnd) sampled.

(** The source point of sample [i], as a position in the array. *)
Definition sourceIndex (allPositions : f32) (maxCount : nat) (rnd : nat -> Q)
    (i : nat) : nat :=
  default 0%nat
    (as_index (sampleIndex (totalVertices allPositions) maxCount rnd i)).

(** The indices of the sampled source points, in the order of the loop. *)
Definition sampleIndices (allPositions : f32) (maxCount : nat) (rnd : nat -> Q) : list num :=
  map (sampleIndex (totalVertices allPositions) maxCount rnd) (seq 0 maxCount).

(** The buckets are the index ranges [i * step <= j < (i + 1) * step];
    the bucket of origin of index [j] is [Math.floor(j / step)]. *)
Definition bucketOf (total : num) (maxCount : nat) (idx : num) : num :=
  floor (fdiv rd idx (step total maxCount)).

(** The coverage property: the buckets of origin of the sampled indices
    are the buckets [0 .. maxCount - 1], each exactly once. *)
Definition covers_buckets (allPositions : f32) (maxCount : nat) (rnd : nat -> Q) : Prop :=
  Permutation
    (map (bucketOf (totalVertices allPositions) maxCount)
         (sampleIndices allPositions maxCount rnd))
    (map of_nat (seq 0 maxCount)).

End Arithmetic.

(** Ten points, sampled down to five with every offset [1 - 2 ^ -52]. *)
Definition tenPoints : f32 :=
  map (fun z => Fin (inject_Z z)) (map Z.of_nat (seq 0 30)).

Definition justBelowOne (i : nat) : Q := 1 - Ieee.pow2 (- 52).

End Doubles.

(** ** [normalizePositions] *)

Module Normalizer.

(** The six running extremes of the bounding-box loop. *)
Record bbox : Type := mkBbox {
  minX : num; minY : num; minZ : num;
  maxX : num; maxY : num; maxZ : num
}.

(** [minX = minY = minZ = Infinity], [maxX = maxY = maxZ = -Infinity]. *)
Definition bboxInit : bbox := mkBbox PInf PInf PInf NInf NInf NInf.

Definition bboxBody (positions : f32) (i : nat) (b : bbox) : bbox :=
  let x := aget positions (i * 3) in
  let y := aget positions (i * 3 + 1) in
  let z := aget positions (i * 3 + 2) in
  mkBbox (min (minX b) x) (min (minY b) y) (min (minZ b) z)
         (max (maxX b) x) (max (maxY b) y) (max (maxZ b) z).

(** [positions.length / 3]. *)
Definition count (positions : f32) : Q :=
  inject_Z (Z.of_nat (length positions)) / 3.

(** The first loop. *)
Definition boundingBox (positions : f32) : bbox :=
  for_loop (trip_count (count positions)) (bboxBody positions) bboxInit.

Definition centerX (b : bbox) : num := div (add (minX b) (maxX b)) (Fin 2).
Definition centerY (b : bbox) : num := div (add (minY b) (maxY b)) (Fin 2).
Definition centerZ (b : bbox) : num := div (add (minZ b) (maxZ b)) (Fin 2).

(** [Math.max(maxX - minX, maxY - minY, maxZ - minZ)]. *)
Definition maxExtent (b : bbox) : num :=
  max (max (sub (maxX b) (minX b)) (sub (maxY b) (minY b))) (sub (maxZ b) (minZ b)).

(** [(targetRadius * 2) / maxExtent]. *)
Definition scale (targetRadius : Q) (b : bbox) : num :=
  div (mul (Fin targetRadius) (Fin 2)) (maxExtent b).

(** The body of the second loop. *)
Definition normalizeBody (positions : f32) (cx cy cz scale : num)
    (i : nat) (result : f32) : f32 :=
  let result := aset result (i * 3) (mul (sub (aget positions (i * 3)) cx) scale) in
  let result := aset result (i * 3 + 1) (mul (sub (aget positions (i * 3 + 1)) cy) scale) in
  aset result (i * 3 + 2) (mul (sub (aget positions (i * 3 + 2)) cz) scale).

Definition normalizePositions (positions : f32) (targetRadius : Q) : f32 :=
  let result := f32_new (length positions) in
  let b := boundingBox positions in
  let cx := centerX b in
  let cy := centerY b in
  let cz := centerZ b in
  let scale := scale targetRadius b in
  for_loop (trip_count (count positions))
    (normalizeBody positions cx cy cz scale) result.

(** The default value of the parameter [targetRadius]. *)
Definition defaultTargetRadius : Q := 13 # 10.

(** The square of the distance from the origin of point [i] of an array. *)
Definition dist2 (a : f32) (i : nat) : num :=
  let x := aget a (i * 3) in
  let y := aget a (i * 3 + 1) in
  let z := aget a (i * 3 + 2) in
  add (add (mul x x) (mul y y)) (mul z z).

(** Every point of [a] lies in the closed ball of radius [radius]. *)
Definition within_sphere (radius : Q) (a : f32) : Prop :=
  forall i : nat, (i * 3 + 2 < length a)%nat ->
    leb (dist2 a i) (Fin (radius * radius)) = true.

(** Coordinate [k] (0, 1 or 2) of point [i] of an array of finite numbers. *)
Definition coord (a : f32) (k i : nat) : Q := qval (aget a (i * 3 + k)).

(** [m] is the least, respectively the greatest, of [f 0 .. f (n - 1)]. *)
Definition is_min (f : nat -> Q) (n : nat) (m : Q) : Prop :=
  (forall i, (i < n)%nat -> m <= f i) /\ exists i, (i < n)%nat /\ m == f i.

Definition is_max (f : nat -> Q) (n : nat) (m : Q) : Prop :=
  (forall i, (i < n)%nat -> f i <= m) /\ exists i, (i < n)%nat /\ m == f i.

(** Two points at opposite corners of the unit cube, and a single point. *)
Definition twoCorners : f32 := [Fin 0; Fin 0; Fin 0; Fin 1; Fin 1; Fin 1].

Definition singlePoint : f32 := [Fin 1; Fin 2; Fin 3].

End Normalizer.

Import Normalizer.

(** ** [extractPositions] *)

Module Extract.

(** A [BufferGeometry]: its [attributes.position], when present, as the
    flat array of the attribute (item size 3). *)
Record BufferGeometry : Type := mkGeometry {
  position : option f32
}.

(** A point, and the [matrixWorld] of a mesh as the map that
    [Vector3.applyMatrix4] computes with it. *)
Definition Vector3 : Type := (num * num * num)%type.

Record Mesh : Type := mkMesh {
  geometry : option BufferGeometry;
  matrixWorld : Vector3 -> Vector3
}.

(** A node of a scene graph: a mesh or another kind of object, with its
    children. *)
#[warnings="-register-all"] Inductive Object3D : Type :=
| Object (mesh : option Mesh) (children : list Object3D).

(** What a loader hands to its completion callback. *)
Inductive Asset : Type :=
| AGeometry (g : BufferGeometry)
| AScene (o : Object3D).

(** The vertices pushed for one mesh. *)
Definition meshPositions (m : Mesh) : list num :=
  match geometry m with
  | None => []
  | Some g =>
      match position g with
      | None => []
      | Some posAttr =>
          let cnt := trip_count (inject_Z (Z.of_nat (length posAttr)) / 3) in
          flat_map (fun i =>
            let vec := (aget posAttr (i * 3), aget posAttr (i * 3 + 1),
                        aget posAttr (i * 3 + 2)) in
            let '(x, y, z) := matrixWorld m vec in
            [x; y; z]) (seq 0 cnt)
      end
  end.

(** [object.traverse]: the node itself, then its children in order. *)
Fixpoint traverse (o : Object3D) : list num :=
  match o with
  | Object mesh children =>
      (match mesh with Some m => meshPositions m | None => [] end)
      ++ flat_map traverse children
  end.

Definition extractPositions (object : Asset) : option f32 :=
  match object with
  | AGeometry g => position g
  | AScene o =>
      let positions := traverse o in
      if (0 <? length positions)%nat then Some positions else None
  end.

End Extract.

(** ** [generateFallbackSphere] *)

Module Fallback.

Local Open Scope R_scope.

Definition phi (count i : nat) : R :=
  acos (1 - (2 * (INR i + 0.5)) / INR count).

Definition theta (i : nat) : R := PI * (1 + sqrt 5) * INR i.

(** [1.2 + (Math.random() - 0.5) * 0.3]. *)
Definition radius (rnd : nat -> Q) (i : nat) : R :=
  1.2 + (Q2R (rnd i) - 0.5) * 0.3.

Definition baseRadius : R := 1.2.

Definition fallbackBody (count : nat) (rnd : nat -> Q) (i : nat)
    (positions : list R) : list R :=
  let phi := phi count i in
  let theta := theta i in
  let r := radius rnd i in
  let positions := <[(i * 3)%nat := r * sin phi * cos theta]> positions in
  let positions := <[(i * 3 + 1)%nat := r * sin phi * sin theta]> positions in
  <[(i * 3 + 2)%nat := r * cos phi]> positions.

Definition generateFallbackSphere (count : nat) (rnd : nat -> Q) : list R :=
  for_loop count (fallbackBody count rnd) (replicate (count * 3) 0).

(** The distance from the origin of point [i] of an array of reals. *)
Definition dist (a : list R) (i : nat) : R :=
  let x := default 0 (a !! (i * 3)%nat) in
  let y := default 0 (a !! (i * 3 + 1)%nat) in
  let z := default 0 (a !! (i * 3 + 2)%nat) in
  sqrt (x * x + y * y + z * z).

End Fallback.

(** ** The [useModelPositions] hook *)

Module Hook.

Import Extract.

(** [s.split(c)]: the pieces of [s] between the occurrences of [c]. *)
Fixpoint split_on (c : ascii) (s : string) : list string :=
  match s with
  | EmptyString => [EmptyString]
  | String a rest =>
      if Ascii.eqb a c then EmptyString :: split_on c rest
      else
        match split_on c rest with
        | [] => [String a EmptyString]
        | piece :: pieces => String a piece :: pieces
        end
  end.

(** [toLowerCase] on the letters A to Z; other characters are kept. *)
Definition lower_ascii (a : ascii) : ascii :=
  let n := nat_of_ascii a in
  if ((65 <=? n)%nat && (n <=? 90)%nat)%bool then ascii_of_nat (n + 32) else a.

Fixpoint toLowerCase (s : string) : string :=
  match s with
  | EmptyString => EmptyString
  | String a rest => String (lower_ascii a) (toLowerCase rest)
  end.

(** [modelPath.split(".").pop()?.toLowerCase()]. *)
Definition extension (modelPath : string) : option string :=
  toLowerCase <$> last (split_on "."%char modelPath).

Inductive Loader : Type := OBJLoader | PLYLoader | GLTFLoader.

(** The [switch (ext)]: the loader of a supported extension. *)
Definition loaderOf (ext : option string) : option Loader :=
  match ext with
  | Some e =>
      if String.eqb e "obj" then Some OBJLoader
      else if String.eqb e "ply" then Some PLYLoader
      else if String.eqb e "glb" then Some GLTFLoader
      else if String.eqb e "gltf" then Some GLTFLoader
      else None
  | None => None
  end.

(** The value of the [positions] state.  The load path yields an array of
    the rational model, the fallback generator one of the real model. *)
Inductive Positions : Type :=
| FromModel (a : f32)
| FallbackSphere (a : list R).

Definition pointCount (p : Positions) : Q :=
  match p with
  | FromModel a => inject_Z (Z.of_nat (length a)) / 3
  | FallbackSphere a => inject_Z (Z.of_nat (length a)) / 3
  end.

(** An argument of [console.warn]: a text, or the error value the loader
    hands to its error callback. *)
Inductive WarnArg : Type :=
| Text (s : string)
| ErrorValue.

(** What the effect does, in order. *)
Inductive Event : Type :=
| Warn (args : list WarnArg)
| Load (loader : Loader) (url : string)
| SetPositions (p : Positions).

(** How a dispatched load ends: the loader calls its error callback, or
    its completion callback with the loaded asset. *)
Inductive LoadOutcome : Type :=
| LoadFailed
| Loaded (result : Asset).

Definition unsupportedMessage (ext : option string) : list WarnArg :=
  [Text ("Unsupported format: ." ++ default "undefined" ext ++ ", using fallback sphere")%string].

Definition noVertexMessage : list WarnArg :=
  [Text "No vertex data found in model, using fallback"].

(** [console.warn("Failed to load model:", error, "— using fallback")]. *)
Definition loadFailedMessage : list WarnArg :=
  [Text "Failed to load model:"; ErrorValue; Text "— using fallback"].

(** The completion callback. *)
Definition onLoad (particleCount : nat) (rnd : nat -> Q) (result : Asset) : list Event :=
  match extractPositions result with
  | Some raw =>
      if (0 <? length raw)%nat then
        let sampled := samplePositions raw particleCount rnd in
        [SetPositions (FromModel (normalizePositions sampled defaultTargetRadius))]
      else
        [Warn noVertexMessage;
         SetPositions (FallbackSphere (Fallback.generateFallbackSphere particleCount rnd))]
  | None =>
      [Warn noVertexMessage;
       SetPositions (FallbackSphere (Fallback.generateFallbackSphere particleCount rnd))]
  end.

(** The error callback. *)
Definition onError (particleCount : nat) (rnd : nat -> Q) : list Event :=
  [Warn loadFailedMessage;
   SetPositions (FallbackSphere (Fallback.generateFallbackSphere particleCount rnd))].

(** The effect of [useModelPositions], run to the end of the load it may
    dispatch.  A model path that is absent or empty is falsy. *)
Definition useModelPositionsEffect (modelPath : option string) (particleCount : nat)
    (rnd : nat -> Q) (outcome : LoadOutcome) : list Event :=
  match modelPath with
  | None | Some EmptyString =>
      [SetPositions (FallbackSphere (Fallback.generateFallbackSphere particleCount rnd))]
  | Some path =>
      let ext := extension path in
      match loaderOf ext with
      | None =>
          [Warn (unsupportedMessage ext);
           SetPositions (FallbackSphere (Fallback.generateFallbackSphere particleCount rnd))]
      | Some loader =>
          Load loader ("/models/" ++ path)%string ::
          match outcome with
          | Loaded result => onLoad particleCount rnd result
          | LoadFailed => onError particleCount rnd
          end
      end
  end.

(** The [positions] state after a sequence of events; it starts as [null]. *)
Definition applyEvent (st : option Positions) (e : Event) : option Positions :=
  match e with
  | SetPositions p => Some p
  | _ => st
  end.

Definition positionsAfter (events : list Event) : option Positions :=
  fold_left applyEvent events None.

(** The states of the Particle Cloud Renderer: [positions] is [null]
    while loading. *)
Inductive RendererState : Type :=
| Loading
| Ready (p : Positions).

Definition rendererState (positions : option Positions) : RendererState :=
  match positions with
  | None => Loading
  | Some p => Ready p
  end.

Definition isLoad (e : Event) : bool :=
  match e with Load _ _ => true | _ => false end.

Definition isWarn (e : Event) : bool :=
  match e with Warn _ => true | _ => false end.

End Hook.

(** ** Material classification in [GltfDisk] *)

Module DiskMaterial.

Inductive Side : Type := FrontSide | BackSide | DoubleSide.

Record Color : Type := mkColor { r : Q; g : Q; b : Q }.

(** The fields of the original material that the classifier reads. *)
Record Material : Type := mkMaterial {
  color : option Color;
  emissive : option Color;
  transparent : bool;
  opacity : Q;
  side : option Side
}.

Inductive Role : Type := Glow | Body.

(** The replacement materials. *)
Inductive Replacement : Type :=
| MeshBasicMaterial (color : string) (transparent : bool) (opacity : Q)
    (side : option Side)
| MeshStandardMaterial (color : string) (metalness roughness : Q)
    (emissive : string) (emissiveIntensity : Q) (transparent : bool)
    (opacity : Q) (side : Side).

Definition black : Color := mkColor 0 0 0.

(** [a > b]. *)
Definition gtb (a b : Q) : bool := negb (Qle_bool a b).

(** [color.r * 0.299 + color.g * 0.587 + color.b * 0.114] with
    [color = oldMat.color ?? black]. *)
Definition luminance (oldMat : Material) : Q :=
  let color := default black (color oldMat) in
  r color * 0.299 + g color * 0.587 + b color * 0.114.

Definition emissiveSum (e : Color) : Q := r e + g e + b e.

(** [oldMat.emissive && (sum of its channels) > 0.1]. *)
Definition hasEmissive (oldMat : Material) : bool :=
  match emissive oldMat with
  | Some e => gtb (emissiveSum e) 0.1
  | None => false
  end.

Definition classify (oldMat : Material) : Role :=
  if (gtb (luminance oldMat) 0.5 || hasEmissive oldMat)%bool then Glow else Body.

(** [Math.min] on finite numbers. *)
Definition qmin (a b : Q) : Q := if Qle_bool a b then a else b.

(** The callback of [materials.map]. *)
Definition replaceMaterial (glowColor : string) (oldMat : Material) : Replacement :=
  if (gtb (luminance oldMat) 0.5 || hasEmissive oldMat)%bool then
    MeshBasicMaterial glowColor
      (transparent oldMat || gtb 1 (opacity oldMat))%bool
      (opacity oldMat)
      (side oldMat)
  else
    MeshStandardMaterial "#0a0a12" 0.9 0.2 glowColor 0.02
      (transparent oldMat || gtb 1 (opacity oldMat))%bool
      (qmin (opacity oldMat) 0.95)
      (default FrontSide (side oldMat)).

Definition roleOf (m : Replacement) : Role :=
  match m with
  | MeshBasicMaterial _ _ _ _ => Glow
  | MeshStandardMaterial _ _ _ _ _ _ _ _ => Body
  end.










End DiskMaterial.

(** ** The per-frame callbacks *)

Module Frame.

(** The literal [0.005], as the number the language reads it. *)
Definition frameTick (rd : Q -> num) : num := rd (Qred 0.005).

(** What the callback of [ParticleHead] can reach: the [uTime] uniform of
    the material and [rotation.y] of the points object, each behind a ref
    that is [null] while its object is not mounted. *)
Record HeadRefs : Type := mkHeadRefs {
  uTime : option Q;
  pointsRotationY : option num
}.

(** [rotation.y += rotationSpeed * 0.005]: a product and a sum, each
    rounded by [rd]. *)
Definition advance (rd : Q -> num) (rotationSpeed y : num) : num :=
  fadd rd y (fmul rd rotationSpeed (frameTick rd)).

(** The callback of [ParticleHead]; [elapsed] is [clock.getElapsedTime()]. *)
Definition particleHeadFrame (rd : Q -> num) (rotationSpeed : num) (elapsed : Q)
    (s : HeadRefs) : HeadRefs :=
  mkHeadRefs
    (match uTime s with Some _ => Some elapsed | None => None end)
    (match pointsRotationY s with
     | Some y => Some (advance rd rotationSpeed y)
     | None => None
     end).

(** The callback of [DiskFrame] on [rotation.y] of the group behind
    [groupRef]; it does not read the clock. *)
Definition diskFrameFrame (rd : Q -> num) (rotationSpeed : num)
    (groupRotationY : option num) : option num :=
  match groupRotationY with
  | Some y => Some (advance rd rotationSpeed y)
  | None => None
  end.

(** The frames of a run, one per clock reading. *)
Definition runHead (rd : Q -> num) (rotationSpeed : num) (clock : list Q)
    (s : HeadRefs) : HeadRefs :=
  fold_left (fun s elapsed => particleHeadFrame rd rotationSpeed elapsed s) clock s.

Definition runDisk (rd : Q -> num) (rotationSpeed : num) (clock : list Q)
    (group : option num) : option num :=
  fold_left (fun grp _ => diskFrameFrame rd rotationSpeed grp) clock group.

(** [y0 + k * rotationSpeed * 0.005], as the language evaluates it. *)
Definition closedForm (rd : Q -> num) (rotationSpeed y0 : num) (k : nat) : num :=
  fadd rd y0 (fmul rd (fmul rd (of_nat k) rotationSpeed) (frameTick rd)).

(** The default values of [rotationSpeed]: [0.08] for the head and [0.15]
    for the disk. *)
Definition headSpeed (rd : Q -> num) : num := rd (Qred 0.08).
Definition diskSpeed (rd : Q -> num) : num := rd (Qred 0.15).

End Frame.

(** ** The rest of the [useModelPositions] trace *)

Module Trace.

Import Hook.

Definition isSetPositions (e : Event) : bool :=
  match e with SetPositions _ => true | _ => false end.

(** How many events of a kind a trace holds. *)
Definition occurrences (kind : Event -> bool) (events : list Event) : nat :=
  length (List.filter kind events).

(** Whether a character occurs in a string. *)
Fixpoint contains (c : ascii) (s : string) : bool :=
  match s with
  | EmptyString => false
  | String a rest => (Ascii.eqb a c || contains c rest)%bool
  end.

(** The number of coordinates a [positions] state holds. *)
Definition positionsLength (p : Positions) : nat :=
  match p with
  | FromModel a => length a
  | FallbackSphere a => length a
  end.

End Trace.

(** ** The random buffers of [ParticleHead] and [DustParticles] *)

Module Buffers.

(** The [randoms] memo of [ParticleHead]: [arr[i] = Math.random()].  The
    store into the [Float32Array] rounds the number by [st]. *)
Definition headRandoms (st : Q -> num) (particleCount : nat) (rnd : nat -> Q) : f32 :=
  for_loop particleCount (fun i arr => aset arr i (rounded st (Fin (rnd i))))
    (f32_new particleCount).

(** The three arrays the memo of [DustParticles] fills in one loop. *)
Record DustBuffers : Type := mkDust {
  positions : f32;
  randoms : f32;
  speeds : f32
}.

(** One iteration: five calls of [Math.random()], in this order.  The
    arithmetic is rounded by [rd], each store by [st]. *)
Definition dustBody (rd st : Q -> num) (spread : Q) (rnd : nat -> Q) (i : nat)
    (b : DustBuffers) : DustBuffers :=
  let pos := positions b in
  let pos :=
    aset pos (i * 3)
      (rounded st (fmul rd (fsub rd (Fin (rnd (5 * i)%nat)) (Fin 0.5)) (Fin spread))) in
  let pos :=
    aset pos (i * 3 + 1)
      (rounded st (fmul rd (fsub rd (Fin (rnd (5 * i + 1)%nat)) (Fin 0.5)) (Fin spread))) in
  let pos :=
    aset pos (i * 3 + 2)
      (rounded st (fmul rd (fsub rd (Fin (rnd (5 * i + 2)%nat)) (Fin 0.5)) (Fin spread))) in
  let rnds := aset (randoms b) i (rounded st (Fin (rnd (5 * i + 3)%nat))) in
  let spd :=
    aset (speeds b) i
      (rounded st (fadd rd (Fin 0.5) (fmul rd (Fin (rnd (5 * i + 4)%nat)) (Fin 1.5)))) in
  mkDust pos rnds spd.

Definition dustBuffers (rd st : Q -> num) (count : nat) (spread : Q) (rnd : nat -> Q)
    : DustBuffers :=
  for_loop count (dustBody rd st spread rnd)
    (mkDust (f32_new (count * 3)) (f32_new count) (f32_new count)).

End Buffers.

(** ** Scaling and centring of the model in [GltfDisk] *)

Module DiskScale.

Import Extract.

(** [targetSize = 4.0]. *)
Definition targetSize : num := Fin 4.

(** [Math.max(size.x, size.y, size.z)] for the [size] of the bounding box. *)
Definition maxDim (size : Vector3) : num :=
  let '(sx, sy, sz) := size in max (max sx sy) sz.

(** [targetSize / maxDim], the argument of [scale.setScalar]. *)
Definition diskScale (size : Vector3) : num := div targetSize (maxDim size).

(** The arguments of [position.set]:
    [-center.x * scale, -center.y * scale, -center.z * scale]. *)
Definition diskPosition (size center : Vector3) : Vector3 :=
  let scale := diskScale size in
  let '(cx, cy, cz) := center in
  (mul (neg cx) scale, mul (neg cy) scale, mul (neg cz) scale).

End DiskScale.

(** ** The materials of one mesh in [GltfDisk] *)

Module DiskMesh.

Import DiskMaterial.

(** [child.material]: one material, or an array of materials. *)
Inductive MaterialSlot (A : Type) : Type :=
| Single (m : A)
| Multi (ms : list A).

Arguments Single {A} m.
Arguments Multi {A} ms.

(** The materials of a slot, in order. *)
Definition materialsOf {A : Type} (slot : MaterialSlot A) : list A :=
  match slot with
  | Single m => [m]
  | Multi ms => ms
  end.

(** What the traversal does to the material of a mesh: wrap a single
    material in an array, replace every material, and unwrap an array of
    one element. *)
Definition processMaterial (glowColor : string) (slot : MaterialSlot Material)
    : MaterialSlot Replacement :=
  let materials := materialsOf slot in
  let replaced := map (replaceMaterial glowColor) materials in
  match replaced with
  | [m] => Single m
  | _ => Multi replaced
  end.

End DiskMesh.

(** ** The per-frame callback of [DustParticles] *)

Module DustFrame.

(** The callback writes the clock into the [uTime] uniform when the
    material is mounted. *)
Definition dustFrame (elapsed : Q) (uTime : option Q) : option Q :=
  match uTime with Some _ => Some elapsed | None => None end.

End DustFrame.

(** ** The GLSL programs *)

Module Shaders.

Local Open Scope R_scope.

Definition vec2 : Type := (R * R)%type.
Definition vec3 : Type := (R * R * R)%type.
Definition vec4 : Type := (R * R * R * R)%type.

(** The built-in functions the programs call, as GLSL defines them. *)
Definition mix (x y a : R) : R := x * (1 - a) + y * a.

Definition clamp (x minVal maxVal : R) : R := Rmin (Rmax x minVal) maxVal.

Definition smoothstep (edge0 edge1 x : R) : R :=
  let t := clamp ((x - edge0) / (edge1 - edge0)) 0 1 in
  t * t * (3 - 2 * t).

Definition floor (x : R) : R := IZR (Int_part x).

(** [mod(x, y) = x - y * floor(x / y)]. *)
Definition glmod (x y : R) : R := x - y * floor (x / y).

(** [length] of a [vec2]. *)
Definition length2 (v : vec2) : R := sqrt (fst v * fst v + snd v * snd v).

(** [snoiseVec3] of the head vertex program. *)
Definition snoiseVec3 (uTime uNoiseSpeed : R) (p : vec3) : vec3 :=
  let '(px, py, pz) := p in
  (sin (px * 1.3 + py * 1.7 + pz * 2.1 + uTime * uNoiseSpeed * 0.7),
   sin (py * 1.5 + pz * 1.9 + px * 2.3 + uTime * uNoiseSpeed * 0.8),
   sin (pz * 1.1 + px * 1.4 + py * 2.5 + uTime * uNoiseSpeed * 0.6)).

(** What a vertex program hands on. *)
Record VertexOut : Type := mkVertexOut {
  gl_PointSize : R;
  gl_Position : vec4;
  vAlpha : R
}.

(** The position of a head particle after the drift:
    [pos += snoiseVec3(pos * 2.0 + aRandom * 100.0) * uNoiseScale]. *)
Definition headDrift (uTime uNoiseScale uNoiseSpeed aRandom : R) (position : vec3) : vec3 :=
  let '(x, y, z) := position in
  let '(nx, ny, nz) :=
    snoiseVec3 uTime uNoiseSpeed
      (x * 2.0 + aRandom * 100.0, y * 2.0 + aRandom * 100.0, z * 2.0 + aRandom * 100.0) in
  (x + nx * uNoiseScale, y + ny * uNoiseScale, z + nz * uNoiseScale).

(** [main] of the head vertex program.  The two matrices are the maps
    they multiply a [vec4] by. *)
Definition headVertex (modelViewMatrix projectionMatrix : vec4 -> vec4)
    (uTime uNoiseScale uNoiseSpeed uPointSize aRandom : R) (position : vec3) : VertexOut :=
  let '(x, y, z) := headDrift uTime uNoiseScale uNoiseSpeed aRandom position in
  let mvPosition := modelViewMatrix (x, y, z, 1.0) in
  let '(_, _, mvz, _) := mvPosition in
  mkVertexOut (uPointSize * (300.0 / - mvz))
              (projectionMatrix mvPosition)
              (mix 0.4 1.0 aRandom).

(** [main] of the head fragment program: [None] when the pixel is
    discarded, else the colour and the alpha of [gl_FragColor]. *)
Definition headFragment (uColor : vec3) (vAlpha : R) (gl_PointCoord : vec2)
    : option (vec3 * R) :=
  let dist := length2 (fst gl_PointCoord - 0.5, snd gl_PointCoord - 0.5) in
  if Rlt_dec 0.5 dist then None
  else
    let alpha := 1.0 - smoothstep 0.0 0.5 dist in
    let alpha := alpha * vAlpha in
    let '(r, g, b) := uColor in
    Some ((mix r 1.0 (alpha * 0.3), mix g 1.0 (alpha * 0.3), mix b 1.0 (alpha * 0.3)),
          alpha * 0.85).

(** The position of a dust particle after the drift. *)
Definition dustDrift (uTime aRandom aSpeed : R) (position : vec3) : vec3 :=
  let '(x, y, z) := position in
  let y := y + (glmod (uTime * aSpeed * 0.1) 10.0 - 5.0) in
  let x := x + sin (uTime * aSpeed * 0.3 + aRandom * 6.28) * 0.3 in
  let z := z + cos (uTime * aSpeed * 0.2 + aRandom * 3.14) * 0.3 in
  (x, y, z).

(** [main] of the dust vertex program. *)
Definition dustVertex (modelViewMatrix projectionMatrix : vec4 -> vec4)
    (uTime uPointSize aRandom aSpeed : R) (position : vec3) : VertexOut :=
  let '(x, y, z) := dustDrift uTime aRandom aSpeed position in
  let mvPosition := modelViewMatrix (x, y, z, 1.0) in
  let '(_, _, mvz, _) := mvPosition in
  mkVertexOut (uPointSize * (200.0 / - mvz))
              (projectionMatrix mvPosition)
              (mix 0.1 0.4 aRandom).

(** [main] of the dust fragment program. *)
Definition dustFragment (uColor : vec3) (vAlpha : R) (gl_PointCoord : vec2)
    : option (vec3 * R) :=
  let dist := length2 (fst gl_PointCoord - 0.5, snd gl_PointCoord - 0.5) in
  if Rlt_dec 0.5 dist then None
  else
    let alpha := 1.0 - smoothstep 0.0 0.5 dist in
    Some (uColor, alpha * vAlpha).

End Shaders.

(** * Properties *)

(** ** Loops *)

Section Loops.

Context {S : Type}.

Lemma for_loop_0 (body : nat -> S -> S) (s : S) : for_loop 0 body s = s.
Proof. reflexivity. Qed.

Lemma for_loop_S (n : nat) (body : nat -> S -> S) (s : S) :
  for_loop (Datatypes.S n) body s = body n (for_loop n body s).
Proof.
  unfold for_loop. rewrite seq_S, fold_left_app. reflexivity.
Qed.

Lemma for_loop_ext (n : nat) (body body' : nat -> S -> S) (s : S) :
  (forall i acc, (i < n)%nat -> body i acc = body' i acc) ->
  for_loop n body s = for_loop n body' s.
Proof.
  induction n as [|n IH]; intros Hext; [reflexivity|].
  rewrite !for_loop_S, IH by (intros; apply Hext; lia).
  apply Hext. lia.
Qed.

End Loops.

(** ** Arrays filled three slots at a time *)

Section Triples.

Context {A : Type}.
Variables h0 h1 h2 : nat -> A.

Lemma triples_S (n : nat) :
  triples h0 h1 h2 (S n) = triples h0 h1 h2 n ++ [h0 n; h1 n; h2 n].
Proof.
  unfold triples. rewrite seq_S, flat_map_app. simpl. reflexivity.
Qed.

Lemma triples_length (n : nat) : length (triples h0 h1 h2 n) = (n * 3)%nat.
Proof.
  induction n as [|n IH]; [reflexivity|].
  rewrite triples_S, length_app, IH. simpl. lia.
Qed.

Lemma triples_lookup (n i : nat) :
  (i < n)%nat ->
  triples h0 h1 h2 n !! (i * 3)%nat = Some (h0 i) /\
  triples h0 h1 h2 n !! (i * 3 + 1)%nat = Some (h1 i) /\
  triples h0 h1 h2 n !! (i * 3 + 2)%nat = Some (h2 i).
Proof.
  induction n as [|n IH]; [lia|].
  intros Hi. rewrite triples_S.
  destruct (decide (i = n)) as [->|Hne].
  - rewrite !lookup_app_r by (rewrite triples_length; lia).
    rewrite triples_length.
    replace (n * 3 - n * 3)%nat with 0%nat by lia.
    replace (n * 3 + 1 - n * 3)%nat with 1%nat by lia.
    replace (n * 3 + 2 - n * 3)%nat with 2%nat by lia.
    repeat split; reflexivity.
  - rewrite !lookup_app_l by (rewrite triples_length; lia).
    apply IH. lia.
Qed.

(** A loop that stores [h0 i], [h1 i], [h2 i] in slots [3i], [3i+1],
    [3i+2] of an array of [3n] slots builds [triples h0 h1 h2 n]. *)
Lemma for_loop_triples (n : nat) (a0 : list A) :
  length a0 = (n * 3)%nat ->
  for_loop n
    (fun i a => <[(i * 3 + 2)%nat := h2 i]>
                  (<[(i * 3 + 1)%nat := h1 i]> (<[(i * 3)%nat := h0 i]> a))) a0
  = triples h0 h1 h2 n.
Proof.
  intros Hlen.
  assert (Hinv : forall m, (m <= n)%nat ->
    for_loop m
      (fun i a => <[(i * 3 + 2)%nat := h2 i]>
                    (<[(i * 3 + 1)%nat := h1 i]> (<[(i * 3)%nat := h0 i]> a))) a0
    = triples h0 h1 h2 m ++ drop (m * 3) a0).
  { induction m as [|m IH]; intros Hm; [reflexivity|].
    rewrite for_loop_S, IH, triples_S by lia.
    destruct (lookup_lt_is_Some_2 a0 (m * 3)) as [x0 Hx0]; [lia|].
    destruct (lookup_lt_is_Some_2 a0 (S (m * 3))) as [x1 Hx1]; [lia|].
    destruct (lookup_lt_is_Some_2 a0 (S (S (m * 3)))) as [x2 Hx2]; [lia|].
    rewrite (drop_S _ _ _ Hx0), (drop_S _ _ _ Hx1), (drop_S _ _ _ Hx2).
    rewrite !insert_app_r_alt by (rewrite ?length_insert, ?length_app, triples_length; simpl; lia).
    rewrite triples_length.
    replace (m * 3 - m * 3)%nat with 0%nat by lia.
    replace (m * 3 + 1 - m * 3)%nat with 1%nat by lia.
    replace (m * 3 + 2 - m * 3)%nat with 2%nat by lia.
    rewrite <- app_assoc. reflexivity. }
  rewrite Hinv by lia.
  rewrite drop_ge by lia. apply app_nil_r.
Qed.

End Triples.

(** ** Numbers *)

Lemma Qred_inject_Z (z : Z) : Qred (inject_Z z) = inject_Z z.
Proof.
  apply Qred_identity. simpl. apply Z.gcd_1_r.
Qed.

Lemma fin_int (q : Q) (z : Z) : q == inject_Z z -> fin q = Fin (inject_Z z).
Proof.
  intros H. unfold fin. f_equal.
  rewrite (Qred_complete _ _ H). apply Qred_inject_Z.
Qed.

Lemma fin_eq (p q : Q) : p == q -> fin p = fin q.
Proof. intros H. unfold fin. f_equal. apply Qred_complete, H. Qed.

Lemma Qle_bool_inject_Z (a b : Z) :
  Qle_bool (inject_Z a) (inject_Z b) = (a <=? b)%Z.
Proof. unfold Qle_bool. simpl. rewrite !Z.mul_1_r. reflexivity. Qed.

Lemma min_int (a b : Z) :
  min (Fin (inject_Z a)) (Fin (inject_Z b)) = Fin (inject_Z (Z.min a b)).
Proof.
  unfold min. rewrite Qle_bool_inject_Z.
  destruct (Z.leb_spec a b).
  - rewrite Z.min_l by lia. reflexivity.
  - rewrite Z.min_r by lia. reflexivity.
Qed.

Lemma as_index_int (z : Z) :
  (0 <= z)%Z -> as_index (Fin (inject_Z z)) = Some (Z.to_nat z).
Proof.
  intros Hz. unfold as_index. rewrite Qred_inject_Z. simpl.
  destruct (Z.leb_spec 0 z); [reflexivity | lia].
Qed.

Lemma Qcompare_pos (q : Q) : 0 < q -> (q ?= 0) = Gt.
Proof. intros H. apply Qgt_alt. exact H. Qed.

Lemma div_Fin_pos (x y : Q) : 0 < y -> div (Fin x) (Fin y) = fin (x / y).
Proof. intros H. unfold div. rewrite (Qcompare_pos _ H). reflexivity. Qed.

Lemma inject_Z_of_nat_pos (n : nat) : (0 < n)%nat -> 0 < inject_Z (Z.of_nat n).
Proof.
  intros H. change 0 with (inject_Z 0). rewrite <- Zlt_Qlt. lia.
Qed.

(** ** [samplePositions]: the computed index *)

Section SampleIndex.

Variables (total : Q) (N : Z) (maxCount : nat) (rnd : nat -> Q).
Hypothesis total_int : total == inject_Z N.
Hypothesis maxCount_pos : (0 < maxCount)%nat.

(** The exact value the index expression denotes. *)
Lemma sampleIndex_closed (i : nat) :
  sampleIndex total maxCount rnd i =
  Fin (inject_Z (Z.min
    (Qfloor ((inject_Z (Z.of_nat i) + rnd i)
             * (inject_Z N / inject_Z (Z.of_nat maxCount))))
    (N - 1))).
Proof.
  unfold sampleIndex, step, of_nat.
  rewrite div_Fin_pos by (apply inject_Z_of_nat_pos, maxCount_pos).
  unfold sub, neg, mul, add, floor, fin.
  rewrite <- min_int. f_equal.
  - f_equal. f_equal. apply Qfloor_comp.
    rewrite !Qred_correct, total_int. ring.
  - change (Fin (Qred (total + Qred (- (1))))) with (fin (total + Qred (- (1)))).
    apply fin_int. rewrite Qred_correct, total_int.
    unfold Z.sub. rewrite inject_Z_plus. reflexivity.
Qed.

End SampleIndex.

(** ** Rational arithmetic behind the sampled index *)

Lemma Qfloor_nonneg (x : Q) : 0 <= x -> (0 <= Qfloor x)%Z.
Proof.
  intros H. rewrite <- (Qfloor_Z 0). apply Qfloor_resp_le. exact H.
Qed.

Section StepArithmetic.

Variables (n maxCount : nat) (rnd : nat -> Q).
Hypothesis maxCount_pos : (0 < maxCount)%nat.
Hypothesis more_points : (maxCount < n)%nat.
Hypothesis rnd_unit : forall i, 0 <= rnd i /\ rnd i < 1.

Let st : Q := inject_Z (Z.of_nat n) / inject_Z (Z.of_nat maxCount).
Let x (i : nat) : Q := (inject_Z (Z.of_nat i) + rnd i) * st.
Let z (i : nat) : Z := Z.min (Qfloor (x i)) (Z.of_nat n - 1).

Lemma step_times_count : st * inject_Z (Z.of_nat maxCount) == inject_Z (Z.of_nat n).
Proof.
  unfold st. field.
  pose proof (inject_Z_of_nat_pos _ maxCount_pos). lra.
Qed.

Lemma step_gt_1 : 1 < st.
Proof.
  pose proof (inject_Z_of_nat_pos _ maxCount_pos) as Hm.
  unfold st. apply Qlt_shift_div_l; [exact Hm|].
  rewrite Qmult_1_l, <- Zlt_Qlt. lia.
Qed.

Lemma inject_nat_succ_le (i j : nat) :
  (i < j)%nat -> inject_Z (Z.of_nat i) + 1 <= inject_Z (Z.of_nat j).
Proof.
  intros H. change 1 with (inject_Z 1).
  rewrite <- inject_Z_plus, <- Zle_Qle. lia.
Qed.

Lemma inject_nat_nonneg (i : nat) : 0 <= inject_Z (Z.of_nat i).
Proof. change 0 with (inject_Z 0). rewrite <- Zle_Qle. lia. Qed.

Lemma drawn_position_nonneg (i : nat) : 0 <= x i.
Proof.
  unfold x. pose proof step_gt_1. pose proof (inject_nat_nonneg i).
  destruct (rnd_unit i). apply Qmult_le_0_compat; lra.
Qed.

Lemma clamped_index_range (i : nat) : (0 <= z i <= Z.of_nat n - 1)%Z.
Proof.
  unfold z. pose proof (Qfloor_nonneg _ (drawn_position_nonneg i)). lia.
Qed.

End StepArithmetic.

(** ** [samplePositions] *)

Lemma totalVertices_int (a : f32) (n : nat) :
  length a = (n * 3)%nat -> totalVertices a == inject_Z (Z.of_nat n).
Proof.
  intros H. unfold totalVertices. rewrite H, Nat2Z.inj_mul, inject_Z_mult.
  change (inject_Z (Z.of_nat 3)) with 3. field.
Qed.

Lemma aget_num_slot0 (a : f32) (z : nat) :
  aget_num a (mul (of_nat z) (Fin 3)) = aget a (z * 3).
Proof.
  unfold aget_num, mul, of_nat.
  rewrite (fin_int _ (Z.of_nat (z * 3))).
  - rewrite as_index_int by lia. rewrite Nat2Z.id. reflexivity.
  - rewrite Nat2Z.inj_mul, inject_Z_mult. reflexivity.
Qed.

Lemma aget_num_slot (a : f32) (z k : nat) :
  aget_num a (add (mul (of_nat z) (Fin 3)) (Fin (inject_Z (Z.of_nat k))))
  = aget a (z * 3 + k).
Proof.
  unfold aget_num, mul, add, of_nat, fin.
  change (Fin (Qred (Qred (inject_Z (Z.of_nat z) * 3) + inject_Z (Z.of_nat k))))
    with (fin (Qred (inject_Z (Z.of_nat z) * 3) + inject_Z (Z.of_nat k))).
  rewrite (fin_int _ (Z.of_nat (z * 3 + k))).
  - rewrite as_index_int by lia. rewrite Nat2Z.id. reflexivity.
  - rewrite Qred_correct, Nat2Z.inj_add, Nat2Z.inj_mul, inject_Z_plus, inject_Z_mult.
    reflexivity.
Qed.

Lemma aget_num_slot1 (a : f32) (z : nat) :
  aget_num a (add (mul (of_nat z) (Fin 3)) (Fin 1)) = aget a (z * 3 + 1).
Proof. exact (aget_num_slot a z 1). Qed.

Lemma aget_num_slot2 (a : f32) (z : nat) :
  aget_num a (add (mul (of_nat z) (Fin 3)) (Fin 2)) = aget a (z * 3 + 2).
Proof. exact (aget_num_slot a z 2). Qed.

Section SampleLoop.

Variables (a : f32) (n maxCount : nat) (rnd : nat -> Q).
Hypothesis well_formed : length a = (n * 3)%nat.
Hypothesis more_points : (maxCount < n)%nat.
Hypothesis rnd_unit : forall i, 0 <= rnd i /\ rnd i < 1.

Lemma sample_branch :
  Qle_bool (totalVertices a) (inject_Z (Z.of_nat maxCount)) = false.
Proof.
  apply not_true_is_false. intros H. apply Qle_bool_iff in H.
  rewrite (totalVertices_int _ _ well_formed), <- Zle_Qle in H. lia.
Qed.

(** The index of iteration [i] is a natural number below [n]. *)
Lemma sampleIndex_nat (i : nat) :
  (0 < maxCount)%nat ->
  exists z : nat,
    sampleIndex (totalVertices a) maxCount rnd i = of_nat z /\
    Z.of_nat z =
      Z.min (Qfloor ((inject_Z (Z.of_nat i) + rnd i)
                     * (inject_Z (Z.of_nat n) / inject_Z (Z.of_nat maxCount))))
            (Z.of_nat n - 1) /\
    (z < n)%nat.
Proof.
  intros Hpos.
  pose proof (clamped_index_range n maxCount rnd Hpos more_points rnd_unit i) as Hr.
  cbv beta zeta in Hr.
  eexists (Z.to_nat _). split; [|split].
  - rewrite (sampleIndex_closed _ (Z.of_nat n) _ rnd
               (totalVertices_int _ _ well_formed) Hpos).
    unfold of_nat. rewrite Z2Nat.id by apply Hr. reflexivity.
  - rewrite Z2Nat.id by apply Hr. reflexivity.
  - lia.
Qed.

(** The source index of sample [i], for stating what the loop builds. *)
Let src (i : nat) : nat :=
  Z.to_nat (Z.min (Qfloor ((inject_Z (Z.of_nat i) + rnd i)
                     * (inject_Z (Z.of_nat n) / inject_Z (Z.of_nat maxCount))))
                  (Z.of_nat n - 1)).

Lemma sampleIndex_src (i : nat) :
  (0 < maxCount)%nat ->
  sampleIndex (totalVertices a) maxCount rnd i = of_nat (src i) /\ (src i < n)%nat.
Proof.
  intros Hpos. destruct (sampleIndex_nat i Hpos) as (z & Hz & Hzz & Hlt).
  assert (z = src i) as <- by (unfold src; rewrite <- Hzz; symmetry; apply Nat2Z.id).
  split; assumption.
Qed.

Lemma samplePositions_triples :
  samplePositions a maxCount rnd =
  triples (fun i => aget a (src i * 3))
          (fun i => aget a (src i * 3 + 1))
          (fun i => aget a (src i * 3 + 2)) maxCount.
Proof.
  unfold samplePositions. rewrite sample_branch.
  destruct (Nat.eq_dec maxCount 0%nat) as [Hz|Hnz].
  { rewrite Hz. reflexivity. }
  assert (Hpos : (0 < maxCount)%nat) by lia.
  rewrite <- (for_loop_triples _ _ _ maxCount (f32_new (maxCount * 3)))
    by apply length_replicate.
  apply for_loop_ext. intros i acc Hi.
  unfold sampleBody, aset.
  destruct (sampleIndex_src i Hpos) as [-> _].
  rewrite aget_num_slot0.
  rewrite aget_num_slot1, aget_num_slot2.
  reflexivity.
Qed.

End SampleLoop.

Lemma sample_guard_iff (a : f32) (maxCount : nat) :
  Qle_bool (totalVertices a) (inject_Z (Z.of_nat maxCount)) = true
  <-> (length a <= maxCount * 3)%nat.
Proof.
  rewrite Qle_bool_iff. unfold totalVertices. split; intros H.
  - assert (H' : inject_Z (Z.of_nat (length a)) <= inject_Z (Z.of_nat maxCount) * 3).
    { assert (E : inject_Z (Z.of_nat (length a))
                  == inject_Z (Z.of_nat (length a)) / 3 * 3) by field.
      rewrite E. apply Qmult_le_compat_r; [exact H | discriminate]. }
    change 3 with (inject_Z 3) in H'. rewrite <- inject_Z_mult, <- Zle_Qle in H'. lia.
  - apply Qle_shift_div_r; [reflexivity|].
    change 3 with (inject_Z 3). rewrite <- inject_Z_mult, <- Zle_Qle. lia.
Qed.

(** C4.  When the input has at most [maxCount] points, that is when its
    length is at most [3 * maxCount], [samplePositions] returns the input
    array itself, whatever the random source yields. *)
Theorem samplePositions_identity (a : f32) (maxCount : nat) (rnd : nat -> Q) :
  (length a <= maxCount * 3)%nat ->
  samplePositions a maxCount rnd = a.
Proof.
  intros Hle. unfold samplePositions.
  assert (H : Qle_bool (totalVertices a) (inject_Z (Z.of_nat maxCount)) = true).
  { apply Qle_bool_iff. unfold totalVertices.
    apply Qle_shift_div_r; [reflexivity|].
    change 3 with (inject_Z 3). rewrite <- inject_Z_mult, <- Zle_Qle. lia. }
  rewrite H. reflexivity.
Qed.

Lemma samplePositions_identity_witness :
  samplePositions fivePoints 5 lateThenEarly = fivePoints.
Proof.
  apply samplePositions_identity. vm_compute. lia.
Defined.

(** ** [normalizePositions]: the bounding box *)

Lemma trip_count_well_formed (a : f32) (n : nat) :
  length a = (n * 3)%nat -> trip_count (count a) = n.
Proof.
  intros H. unfold trip_count, count.
  rewrite (Qceiling_comp _ (inject_Z (Z.of_nat n))).
  - rewrite Qceiling_Z. apply Nat2Z.id.
  - rewrite H, Nat2Z.inj_mul, inject_Z_mult.
    change (inject_Z (Z.of_nat 3)) with 3. field.
Qed.

Lemma aget_fin (a : f32) (j : nat) :
  Forall is_fin a -> (j < length a)%nat -> aget a j = Fin (qval (aget a j)).
Proof.
  intros Hfin Hj. unfold aget.
  destruct (lookup_lt_is_Some_2 a j Hj) as [v Hv]. rewrite Hv. simpl.
  rewrite Forall_lookup in Hfin. specialize (Hfin _ _ Hv).
  destruct v; simpl in Hfin; try contradiction. reflexivity.
Qed.

Section Extremes.

Variable f : nat -> Q.

Lemma min_loop (n : nat) :
  (0 < n)%nat ->
  exists m, for_loop n (fun i acc => min acc (Fin (f i))) PInf = Fin m /\ is_min f n m.
Proof.
  induction n as [|n IH]; [lia|]. intros _.
  rewrite for_loop_S.
  destruct n as [|n].
  - exists (f 0%nat). split; [reflexivity|]. split.
    + intros i Hi. replace i with 0%nat by lia. apply Qle_refl.
    + exists 0%nat. split; [lia | reflexivity].
  - destruct IH as (m & -> & Hlow & j & Hj & Hatt); [lia|].
    unfold min. destruct (Qle_bool m (f (S n))) eqn:E.
    + apply Qle_bool_iff in E. exists m. split; [reflexivity|]. split.
      * intros i Hi. destruct (decide (i = S n)) as [->|]; [exact E|].
        apply Hlow. lia.
      * exists j. split; [lia | exact Hatt].
    + assert (Hlt : f (S n) < m).
      { apply Qnot_le_lt. intros H. apply Qle_bool_iff in H. congruence. }
      exists (f (S n)). split; [reflexivity|]. split.
      * intros i Hi. destruct (decide (i = S n)) as [->|]; [apply Qle_refl|].
        apply Qlt_le_weak. eapply Qlt_le_trans; [exact Hlt|]. apply Hlow. lia.
      * exists (S n). split; [lia | reflexivity].
Qed.

Lemma max_loop (n : nat) :
  (0 < n)%nat ->
  exists m, for_loop n (fun i acc => max acc (Fin (f i))) NInf = Fin m /\ is_max f n m.
Proof.
  induction n as [|n IH]; [lia|]. intros _.
  rewrite for_loop_S.
  destruct n as [|n].
  - exists (f 0%nat). split; [reflexivity|]. split.
    + intros i Hi. replace i with 0%nat by lia. apply Qle_refl.
    + exists 0%nat. split; [lia | reflexivity].
  - destruct IH as (m & -> & Hup & j & Hj & Hatt); [lia|].
    unfold max. destruct (Qle_bool m (f (S n))) eqn:E.
    + apply Qle_bool_iff in E. exists (f (S n)). split; [reflexivity|]. split.
      * intros i Hi. destruct (decide (i = S n)) as [->|]; [apply Qle_refl|].
        eapply Qle_trans; [|exact E]. apply Hup. lia.
      * exists (S n). split; [lia | reflexivity].
    + assert (Hlt : f (S n) < m).
      { apply Qnot_le_lt. intros H. apply Qle_bool_iff in H. congruence. }
      exists m. split; [reflexivity|]. split.
      * intros i Hi. destruct (decide (i = S n)) as [->|]; [apply Qlt_le_weak, Hlt|].
        apply Hup. lia.
      * exists j. split; [lia | exact Hatt].
Qed.

End Extremes.

Section BoundingBox.

Variables (a : f32) (n : nat).
Hypothesis well_formed : length a = (n * 3)%nat.
Hypothesis finite : Forall is_fin a.

Lemma aget_coord (k i : nat) :
  (k < 3)%nat -> (i < n)%nat -> aget a (i * 3 + k) = Fin (coord a k i).
Proof.
  intros Hk Hi. unfold coord. apply aget_fin; [exact finite | lia].
Qed.

Lemma bbox_loop_fields (m : nat) :
  (m <= n)%nat ->
  for_loop m (bboxBody a) bboxInit =
  mkBbox (for_loop m (fun i acc => min acc (Fin (coord a 0 i))) PInf)
         (for_loop m (fun i acc => min acc (Fin (coord a 1 i))) PInf)
         (for_loop m (fun i acc => min acc (Fin (coord a 2 i))) PInf)
         (for_loop m (fun i acc => max acc (Fin (coord a 0 i))) NInf)
         (for_loop m (fun i acc => max acc (Fin (coord a 1 i))) NInf)
         (for_loop m (fun i acc => max acc (Fin (coord a 2 i))) NInf).
Proof.
  induction m as [|m IH]; intros Hm; [reflexivity|].
  rewrite !for_loop_S, IH by lia. unfold bboxBody. simpl.
  rewrite <- (aget_coord 0), <- (aget_coord 1), <- (aget_coord 2) by lia.
  rewrite Nat.add_0_r. reflexivity.
Qed.

(** The first loop computes the bounding box of the points. *)
Lemma boundingBox_spec :
  (0 < n)%nat ->
  exists mnx mny mnz mxx mxy mxz : Q,
    boundingBox a = mkBbox (Fin mnx) (Fin mny) (Fin mnz) (Fin mxx) (Fin mxy) (Fin mxz) /\
    is_min (coord a 0) n mnx /\ is_min (coord a 1) n mny /\ is_min (coord a 2) n mnz /\
    is_max (coord a 0) n mxx /\ is_max (coord a 1) n mxy /\ is_max (coord a 2) n mxz.
Proof.
  intros Hn. unfold boundingBox.
  rewrite (trip_count_well_formed _ _ well_formed), bbox_loop_fields by lia.
  destruct (min_loop (coord a 0) n Hn) as (mnx & -> & ?).
  destruct (min_loop (coord a 1) n Hn) as (mny & -> & ?).
  destruct (min_loop (coord a 2) n Hn) as (mnz & -> & ?).
  destruct (max_loop (coord a 0) n Hn) as (mxx & -> & ?).
  destruct (max_loop (coord a 1) n Hn) as (mxy & -> & ?).
  destruct (max_loop (coord a 2) n Hn) as (mxz & -> & ?).
  exists mnx, mny, mnz, mxx, mxy, mxz. auto 10.
Qed.

(** The second loop, as the array it builds. *)
Lemma normalizePositions_triples (targetRadius : Q) :
  let b := boundingBox a in
  normalizePositions a targetRadius =
  triples
    (fun i => mul (sub (Fin (coord a 0 i)) (centerX b)) (scale targetRadius b))
    (fun i => mul (sub (Fin (coord a 1 i)) (centerY b)) (scale targetRadius b))
    (fun i => mul (sub (Fin (coord a 2 i)) (centerZ b)) (scale targetRadius b)) n.
Proof.
  intros b. unfold normalizePositions. fold b.
  rewrite (trip_count_well_formed _ _ well_formed).
  rewrite <- (for_loop_triples _ _ _ n (f32_new (length a)))
    by (unfold f32_new; rewrite length_replicate; exact well_formed).
  apply for_loop_ext. intros i acc Hi.
  unfold normalizeBody, aset.
  rewrite <- (aget_coord 0), <- (aget_coord 1), <- (aget_coord 2) by lia.
  rewrite Nat.add_0_r. reflexivity.
Qed.

End BoundingBox.

(** ** [normalizePositions]: centre, extent and scale *)

Lemma sub_Fin (x y : Q) : sub (Fin x) (Fin y) = fin (x - y).
Proof.
  unfold sub, neg, add, fin. apply fin_eq. rewrite Qred_correct. reflexivity.
Qed.

Lemma mul_Fin (x y : Q) : mul (Fin x) (Fin y) = fin (x * y).
Proof. reflexivity. Qed.

Lemma half_sum_Fin (mn mx : Q) :
  div (add (Fin mn) (Fin mx)) (Fin 2) = fin ((mn + mx) / 2).
Proof.
  unfold add, fin. rewrite div_Fin_pos by reflexivity.
  apply fin_eq. rewrite Qred_correct. reflexivity.
Qed.

Lemma max_Fin (x y : Q) :
  exists m, max (Fin x) (Fin y) = Fin m /\ (m = x \/ m = y) /\ x <= m /\ y <= m.
Proof.
  unfold max. destruct (Qle_bool x y) eqn:E.
  - apply Qle_bool_iff in E. exists y. repeat split; auto. apply Qle_refl.
  - exists x. repeat split; auto; [apply Qle_refl|].
    apply Qlt_le_weak, Qnot_le_lt. intros H. apply Qle_bool_iff in H. congruence.
Qed.

(** The greatest of three spans. *)
Lemma max3_Fin (x y z : Q) :
  exists m, max (max (Fin x) (Fin y)) (Fin z) = Fin m /\
    (m = x \/ m = y \/ m = z) /\ x <= m /\ y <= m /\ z <= m.
Proof.
  destruct (max_Fin x y) as (m1 & -> & Hm1 & Hx & Hy).
  destruct (max_Fin m1 z) as (m & -> & Hm & H1 & Hz).
  exists m. split; [reflexivity|]. split.
  - destruct Hm as [->| ->]; [destruct Hm1; auto | auto].
  - repeat split; try assumption; eapply Qle_trans; eauto.
Qed.

Lemma Qred_fixed (q : Q) : Qred (Qred q) = Qred q.
Proof. apply Qred_complete, Qred_correct. Qed.

(** Moving a minimum or a maximum through [x |-> (x - c) * s], [0 <= s]. *)
Lemma is_min_affine (f g : nat -> Q) (n : nat) (m m' c s : Q) :
  0 <= s ->
  (forall i, (i < n)%nat -> g i == (f i - c) * s) ->
  is_min f n m -> is_min g n m' -> m' == (m - c) * s.
Proof.
  intros Hs Hg [Hlow (i0 & Hi0 & Hatt)] [Hlow' (j0 & Hj0 & Hatt')].
  pose proof (Hlow' i0 Hi0) as H1. rewrite (Hg i0 Hi0), <- Hatt in H1.
  pose proof (Hlow j0 Hj0) as H2. rewrite (Hg j0 Hj0) in Hatt'.
  assert (H3 : (m - c) * s <= (f j0 - c) * s) by (apply Qmult_le_compat_r; lra).
  lra.
Qed.

Lemma is_max_affine (f g : nat -> Q) (n : nat) (m m' c s : Q) :
  0 <= s ->
  (forall i, (i < n)%nat -> g i == (f i - c) * s) ->
  is_max f n m -> is_max g n m' -> m' == (m - c) * s.
Proof.
  intros Hs Hg [Hup (i0 & Hi0 & Hatt)] [Hup' (j0 & Hj0 & Hatt')].
  pose proof (Hup' i0 Hi0) as H1. rewrite (Hg i0 Hi0), <- Hatt in H1.
  pose proof (Hup j0 Hj0) as H2. rewrite (Hg j0 Hj0) in Hatt'.
  assert (H3 : (f j0 - c) * s <= (m - c) * s) by (apply Qmult_le_compat_r; lra).
  lra.
Qed.


Section TriplesOfFinite.

Variables g0 g1 g2 : nat -> Q.
Variable n : nat.

Let arr : f32 := triples (fun i => Fin (g0 i)) (fun i => Fin (g1 i)) (fun i => Fin (g2 i)) n.

Lemma triples_fin_well_formed : length arr = (n * 3)%nat.
Proof. apply triples_length. Qed.

Lemma triples_fin_finite : Forall is_fin arr.
Proof.
  unfold arr, triples. apply Forall_flat_map, Forall_forall.
  intros i _. repeat constructor.
Qed.

Lemma triples_fin_coord (i : nat) :
  (i < n)%nat ->
  coord arr 0 i = g0 i /\ coord arr 1 i = g1 i /\ coord arr 2 i = g2 i.
Proof.
  intros Hi. unfold coord, aget, arr.
  destruct (triples_lookup (fun i => Fin (g0 i)) (fun i => Fin (g1 i))
              (fun i => Fin (g2 i)) n i Hi) as (E0 & E1 & E2).
  rewrite Nat.add_0_r, E0, E1, E2. repeat split; reflexivity.
Qed.

End TriplesOfFinite.

Lemma triples_ext {A : Type} (h0 h1 h2 k0 k1 k2 : nat -> A) (n : nat) :
  (forall i, (i < n)%nat -> h0 i = k0 i /\ h1 i = k1 i /\ h2 i = k2 i) ->
  triples h0 h1 h2 n = triples k0 k1 k2 n.
Proof.
  induction n as [|n IH]; intros H; [reflexivity|].
  rewrite !triples_S, IH by (intros; apply H; lia).
  destruct (H n) as (-> & -> & ->); [lia|]. reflexivity.
Qed.

Lemma centre_scale_Fin (x c s : Q) :
  mul (sub (Fin x) (Fin c)) (Fin s) = fin ((x - c) * s).
Proof.
  rewrite sub_Fin. unfold fin at 1. rewrite mul_Fin.
  apply fin_eq. rewrite Qred_correct. reflexivity.
Qed.

Section NormalizeShape.

Variables (a : f32) (n : nat) (R e : Q).
Hypothesis well_formed : length a = (n * 3)%nat.
Hypothesis finite : Forall is_fin a.
Hypothesis nonempty : (0 < n)%nat.
Hypothesis extent : maxExtent (boundingBox a) = Fin e.
Hypothesis extent_pos : 0 < e.
Hypothesis radius_nonneg : 0 <= R.

(** What [normalizePositions] computes on finite points whose bounding box
    has a positive extent. *)
Lemma normalize_shape :
  exists mnx mny mnz mxx mxy mxz cx cy cz s : Q,
    boundingBox a = mkBbox (Fin mnx) (Fin mny) (Fin mnz) (Fin mxx) (Fin mxy) (Fin mxz) /\
    (is_min (coord a 0) n mnx /\ is_min (coord a 1) n mny /\ is_min (coord a 2) n mnz /\
     is_max (coord a 0) n mxx /\ is_max (coord a 1) n mxy /\ is_max (coord a 2) n mxz) /\
    (centerX (boundingBox a) = Fin cx /\ centerY (boundingBox a) = Fin cy /\
     centerZ (boundingBox a) = Fin cz) /\
    (cx == (mnx + mxx) / 2 /\ cy == (mny + mxy) / 2 /\ cz == (mnz + mxz) / 2) /\
    (e == mxx - mnx \/ e == mxy - mny \/ e == mxz - mnz) /\
    (mxx - mnx <= e /\ mxy - mny <= e /\ mxz - mnz <= e) /\
    scale R (boundingBox a) = Fin s /\ s * e == 2 * R /\ 0 <= s /\
    normalizePositions a R =
      triples (fun i => fin ((coord a 0 i - cx) * s))
              (fun i => fin ((coord a 1 i - cy) * s))
              (fun i => fin ((coord a 2 i - cz) * s)) n.
Proof.
  destruct (boundingBox_spec a n well_formed finite nonempty)
    as (mnx & mny & mnz & mxx & mxy & mxz & Hb & Hmins).
  assert (Hcx : centerX (boundingBox a) = fin ((mnx + mxx) / 2))
    by (unfold centerX; rewrite Hb; apply half_sum_Fin).
  assert (Hcy : centerY (boundingBox a) = fin ((mny + mxy) / 2))
    by (unfold centerY; rewrite Hb; apply half_sum_Fin).
  assert (Hcz : centerZ (boundingBox a) = fin ((mnz + mxz) / 2))
    by (unfold centerZ; rewrite Hb; apply half_sum_Fin).
  assert (Hsel : (e == mxx - mnx \/ e == mxy - mny \/ e == mxz - mnz) /\
                 (mxx - mnx <= e /\ mxy - mny <= e /\ mxz - mnz <= e)).
  { pose proof extent as He. unfold maxExtent in He. rewrite Hb in He.
    cbn [minX minY minZ maxX maxY maxZ] in He.
    rewrite !sub_Fin in He. unfold fin in He.
    destruct (max3_Fin (Qred (mxx - mnx)) (Qred (mxy - mny)) (Qred (mxz - mnz)))
      as (m & Hm & Hsel & Hx & Hy & Hz).
    rewrite Hm in He. injection He as ->.
    rewrite Qred_correct in Hx, Hy, Hz. split; [|auto].
    destruct Hsel as [->|[->| ->]]; rewrite Qred_correct; auto using Qeq_refl. }
  assert (Hsc : scale R (boundingBox a) = fin (Qred (R * 2) / e)).
  { unfold scale. rewrite extent, mul_Fin. unfold fin at 1.
    apply div_Fin_pos, extent_pos. }
  assert (Hs : Qred (Qred (R * 2) / e) == R * 2 / e) by (rewrite !Qred_correct; reflexivity).
  exists mnx, mny, mnz, mxx, mxy, mxz.
  exists (Qred ((mnx + mxx) / 2)), (Qred ((mny + mxy) / 2)), (Qred ((mnz + mxz) / 2)).
  exists (Qred (Qred (R * 2) / e)).
  split; [exact Hb|]. split; [exact Hmins|].
  split; [repeat split; assumption|].
  split; [rewrite !Qred_correct; repeat split; reflexivity|].
  split; [apply Hsel|]. split; [apply Hsel|]. split; [exact Hsc|].
  split; [rewrite Hs; field; lra|].
  split; [rewrite Hs; apply Qle_shift_div_l; lra|].
  pose proof (normalizePositions_triples a n well_formed finite R) as Hn.
  cbv zeta in Hn. rewrite Hn, Hcx, Hcy, Hcz, Hsc.
  apply triples_ext. intros i Hi.
  repeat split; exact (centre_scale_Fin _ _ _).
Qed.

End NormalizeShape.

Lemma extent_scaled (dx dy dz e e' s : Q) :
  (e == dx \/ e == dy \/ e == dz) -> dx <= e -> dy <= e -> dz <= e ->
  0 <= s ->
  (e' == dx * s \/ e' == dy * s \/ e' == dz * s) ->
  dx * s <= e' -> dy * s <= e' -> dz * s <= e' ->
  e' == e * s.
Proof.
  intros He Hx Hy Hz Hs He' Hx' Hy' Hz'.
  assert (Hxs : dx * s <= e * s) by (apply Qmult_le_compat_r; assumption).
  assert (Hys : dy * s <= e * s) by (apply Qmult_le_compat_r; assumption).
  assert (Hzs : dz * s <= e * s) by (apply Qmult_le_compat_r; assumption).
  apply Qle_antisym.
  - destruct He' as [->|[->| ->]]; assumption.
  - destruct He as [->|[->| ->]]; assumption.
Qed.

Section NormalizedBox.

Variables (a : f32) (n : nat) (R e : Q).
Hypothesis well_formed : length a = (n * 3)%nat.
Hypothesis finite : Forall is_fin a.
Hypothesis nonempty : (0 < n)%nat.
Hypothesis extent : maxExtent (boundingBox a) = Fin e.
Hypothesis extent_pos : 0 < e.
Hypothesis radius_nonneg : 0 <= R.

Let out : f32 := normalizePositions a R.

(** The bounding box of the result: centred at the origin, with the
    greatest span [2 * targetRadius]. *)
Lemma normalized_box :
  length out = (n * 3)%nat /\ Forall is_fin out /\
  centerX (boundingBox out) = Fin 0 /\
  centerY (boundingBox out) = Fin 0 /\
  centerZ (boundingBox out) = Fin 0 /\
  maxExtent (boundingBox out) = fin (2 * R).
Proof.
  destruct (normalize_shape a n R e well_formed finite nonempty extent extent_pos
              radius_nonneg)
    as (mnx & mny & mnz & mxx & mxy & mxz & cx & cy & cz & s & _ &
        (Hmnx & Hmny & Hmnz & Hmxx & Hmxy & Hmxz) & _ & (Hcx & Hcy & Hcz) &
        Hsel & (Hdx & Hdy & Hdz) & _ & Hse & Hs & Hout).
  set (g0 := fun i => Qred ((coord a 0 i - cx) * s)).
  set (g1 := fun i => Qred ((coord a 1 i - cy) * s)).
  set (g2 := fun i => Qred ((coord a 2 i - cz) * s)).
  assert (Hout' : out = triples (fun i => Fin (g0 i)) (fun i => Fin (g1 i))
                                (fun i => Fin (g2 i)) n) by exact Hout.
  pose proof (triples_fin_well_formed g0 g1 g2 n) as Hwf.
  pose proof (triples_fin_finite g0 g1 g2 n) as Hfin.
  pose proof (triples_fin_coord g0 g1 g2 n) as Hco.
  cbv zeta in Hwf, Hfin, Hco. rewrite <- Hout' in Hwf, Hfin, Hco.
  split; [exact Hwf|]. split; [exact Hfin|].
  destruct (boundingBox_spec out n Hwf Hfin nonempty)
    as (mnx' & mny' & mnz' & mxx' & mxy' & mxz' & Hb' &
        Hmnx' & Hmny' & Hmnz' & Hmxx' & Hmxy' & Hmxz').
  assert (G0 : forall i, (i < n)%nat -> coord out 0 i == (coord a 0 i - cx) * s)
    by (intros i Hi; destruct (Hco i Hi) as (-> & _ & _); apply Qred_correct).
  assert (G1 : forall i, (i < n)%nat -> coord out 1 i == (coord a 1 i - cy) * s)
    by (intros i Hi; destruct (Hco i Hi) as (_ & -> & _); apply Qred_correct).
  assert (G2 : forall i, (i < n)%nat -> coord out 2 i == (coord a 2 i - cz) * s)
    by (intros i Hi; destruct (Hco i Hi) as (_ & _ & ->); apply Qred_correct).
  pose proof (is_min_affine _ _ _ _ _ _ _ Hs G0 Hmnx Hmnx') as Ex0.
  pose proof (is_min_affine _ _ _ _ _ _ _ Hs G1 Hmny Hmny') as Ey0.
  pose proof (is_min_affine _ _ _ _ _ _ _ Hs G2 Hmnz Hmnz') as Ez0.
  pose proof (is_max_affine _ _ _ _ _ _ _ Hs G0 Hmxx Hmxx') as Ex1.
  pose proof (is_max_affine _ _ _ _ _ _ _ Hs G1 Hmxy Hmxy') as Ey1.
  pose proof (is_max_affine _ _ _ _ _ _ _ Hs G2 Hmxz Hmxz') as Ez1.
  unfold centerX, centerY, centerZ, maxExtent. rewrite Hb'.
  cbn [minX minY minZ maxX maxY maxZ].
  rewrite !half_sum_Fin.
  split; [|split; [|split]].
  - apply (fin_int _ 0). rewrite Ex0, Ex1, Hcx. field.
  - apply (fin_int _ 0). rewrite Ey0, Ey1, Hcy. field.
  - apply (fin_int _ 0). rewrite Ez0, Ez1, Hcz. field.
  - rewrite !sub_Fin. unfold fin at 1 2 3.
    destruct (max3_Fin (Qred (mxx' - mnx')) (Qred (mxy' - mny')) (Qred (mxz' - mnz')))
      as (m & -> & Hm & Hx & Hy & Hz).
    rewrite Qred_correct in Hx, Hy, Hz.
    assert (Dx : mxx' - mnx' == (mxx - mnx) * s) by (rewrite Ex0, Ex1; ring).
    assert (Dy : mxy' - mny' == (mxy - mny) * s) by (rewrite Ey0, Ey1; ring).
    assert (Dz : mxz' - mnz' == (mxz - mnz) * s) by (rewrite Ez0, Ez1; ring).
    assert (Hm' : m == (mxx - mnx) * s \/ m == (mxy - mny) * s \/ m == (mxz - mnz) * s).
    { destruct Hm as [->|[->| ->]]; rewrite Qred_correct; auto. }
    rewrite Dx in Hx. rewrite Dy in Hy. rewrite Dz in Hz.
    pose proof (extent_scaled _ _ _ _ _ _ Hsel Hdx Hdy Hdz Hs Hm' Hx Hy Hz) as Em.
    assert (Em2 : m == 2 * R) by (rewrite Em, <- Hse; ring).
    unfold fin. f_equal.
    destruct Hm as [->|[->| ->]];
      rewrite <- (Qred_complete _ _ Em2); symmetry; apply Qred_fixed.
Qed.

End NormalizedBox.

(** C2.  The code misses the sphere it aims at: it fits the largest span
    of the bounding box to the diameter, so only the coordinates are
    bounded by [targetRadius], not the distances.  The two points (0,0,0)
    and (1,1,1) with [targetRadius = 1] are sent to (-1,-1,-1) and
    (1,1,1), at squared distance 3 from the origin: outside the sphere of
    radius 1, and still outside the sphere of radius 1.7.  No operation
    rounds on this input. *)
Theorem normalizePositions_misses_sphere :
  normalizePositions twoCorners 1
    = [Fin (-1); Fin (-1); Fin (-1); Fin 1; Fin 1; Fin 1] /\
  dist2 (normalizePositions twoCorners 1) 1 = Fin 3 /\
  ~ within_sphere 1 (normalizePositions twoCorners 1) /\
  ~ within_sphere (17 # 10) (normalizePositions twoCorners 1).
Proof.
  split; [reflexivity|]. split; [reflexivity|].
  split; intros H; specialize (H 1%nat); vm_compute in H;
    (assert (Hlt : (5 < 6)%nat) by lia); specialize (H Hlt); discriminate H.
Qed.

(** A set whose bounding box has no extent, such as a single point, is
    divided by zero: the scale is [Infinity] and every coordinate of the
    result is [0 * Infinity = NaN]. *)
Example normalizePositions_single_point :
  normalizePositions singlePoint defaultTargetRadius = [NaN; NaN; NaN].
Proof. reflexivity. Qed.

(** C9.  On a non-empty set of finite points whose bounding box has a
    positive greatest span, and for a positive target radius, normalizing
    twice gives the same array as normalizing once: the second pass
    translates by zero and scales by one. *)
Theorem normalizePositions_idempotent (a : f32) (n : nat) (R e : Q) :
  length a = (n * 3)%nat ->
  (0 < n)%nat ->
  Forall is_fin a ->
  maxExtent (boundingBox a) = Fin e ->
  0 < e ->
  0 < R ->
  normalizePositions (normalizePositions a R) R = normalizePositions a R.
Proof.
  intros Hlen Hn Hfin Hext He HR.
  assert (HR0 : 0 <= R) by lra.
  destruct (normalized_box a n R e Hlen Hfin Hn Hext He HR0)
    as (Hlen' & Hfin' & C0 & C1 & C2 & Hext').
  destruct (normalize_shape a n R e Hlen Hfin Hn Hext He HR0)
    as (_ & _ & _ & _ & _ & _ & cx & cy & cz & s & _ & _ & _ & _ & _ & _ & _ & _ & _ & Hout).
  assert (He' : 0 < Qred (2 * R)) by (rewrite Qred_correct; lra).
  destruct (normalize_shape (normalizePositions a R) n R (Qred (2 * R))
              Hlen' Hfin' Hn Hext' He' HR0)
    as (_ & _ & _ & _ & _ & _ & cx' & cy' & cz' & s' & _ & _ & (D0 & D1 & D2) &
        _ & _ & _ & _ & Hse' & _ & Hout2).
  rewrite C0 in D0. rewrite C1 in D1. rewrite C2 in D2.
  injection D0 as <-. injection D1 as <-. injection D2 as <-.
  assert (Hs1 : s' == 1).
  { rewrite Qred_correct in Hse'.
    apply (Qmult_inj_r _ _ (2 * R)); [lra|]. rewrite Hse'. ring. }
  rewrite Hout2.
  assert (Hco : forall i, (i < n)%nat ->
    coord (normalizePositions a R) 0 i = Qred ((coord a 0 i - cx) * s) /\
    coord (normalizePositions a R) 1 i = Qred ((coord a 1 i - cy) * s) /\
    coord (normalizePositions a R) 2 i = Qred ((coord a 2 i - cz) * s)).
  { intros i Hi. rewrite Hout.
    exact (triples_fin_coord (fun i => Qred ((coord a 0 i - cx) * s))
             (fun i => Qred ((coord a 1 i - cy) * s))
             (fun i => Qred ((coord a 2 i - cz) * s)) n i Hi). }
  etransitivity; [|symmetry; exact Hout].
  apply triples_ext. intros i Hi.
  destruct (Hco i Hi) as (-> & -> & ->).
  repeat split; apply fin_eq; rewrite Hs1, Qred_correct; ring.
Qed.

Lemma normalizePositions_idempotent_witness :
  normalizePositions (normalizePositions twoCorners defaultTargetRadius) defaultTargetRadius
  = normalizePositions twoCorners defaultTargetRadius.
Proof.
  apply (normalizePositions_idempotent twoCorners 2 defaultTargetRadius 1).
  - reflexivity.
  - lia.
  - repeat constructor.
  - reflexivity.
  - reflexivity.
  - reflexivity.
Defined.

(** ** Rounding to a binary format *)

Section BinaryRounding.

Import Ieee.

Lemma pow2_pos (e : Z) : 0 < pow2 e.
Proof. apply Qpower_0_lt. reflexivity. Qed.

Lemma pow2_plus (a b : Z) : pow2 (a + b) == pow2 a * pow2 b.
Proof. apply Qpower_plus. discriminate. Qed.

Lemma pow2_le (a b : Z) : (a <= b)%Z -> pow2 a <= pow2 b.
Proof. intros H. apply Qpower_le_compat_l; [exact H | discriminate]. Qed.

Lemma pow2_lt (a b : Z) : (a < b)%Z -> pow2 a < pow2 b.
Proof. intros H. apply Qpower_lt_compat_l; [exact H | reflexivity]. Qed.

Lemma pow2_lt_inv (a b : Z) : pow2 a < pow2 b -> (a < b)%Z.
Proof. intros H. apply (Qpower_lt_compat_l_inv 2); [exact H | reflexivity]. Qed.

Lemma pow2_Z (e : Z) : (0 <= e)%Z -> pow2 e == inject_Z (2 ^ e).
Proof. intros H. unfold pow2. rewrite Zpower_Qpower by exact H. reflexivity. Qed.

Lemma pow2_succ (e : Z) : pow2 (e + 1) == 2 * pow2 e.
Proof. rewrite pow2_plus. change (pow2 1) with 2. ring. Qed.

Lemma Q_as_fraction (q : Q) : q * inject_Z (Zpos (Qden q)) == inject_Z (Qnum q).
Proof.
  destruct q as [n d]. unfold Qeq, Qmult, inject_Z. simpl.
  rewrite Pos.mul_1_r. ring.
Qed.

(** [ilog2 q] is the integer part of the binary logarithm of [q]. *)
Lemma ilog2_spec (q : Q) :
  0 < q -> pow2 (ilog2 q) <= q /\ q < pow2 (ilog2 q + 1).
Proof.
  intros Hq.
  pose proof (Q_as_fraction q) as Hfrac.
  assert (Hn : (0 < Qnum q)%Z).
  { clear Hfrac. destruct q as [n d]. unfold Qlt in Hq. simpl in *. lia. }
  set (n := Qnum q) in *. set (d := Zpos (Qden q)) in *.
  assert (Hd : (0 < d)%Z) by (subst d; lia).
  pose proof (Z.log2_spec n Hn) as [Hn1 Hn2].
  pose proof (Z.log2_spec d Hd) as [Hd1 Hd2].
  pose proof (Z.log2_nonneg n) as Ha. pose proof (Z.log2_nonneg d) as Hb.
  set (a := Z.log2 n) in *. set (b := Z.log2 d) in *.
  assert (Hdq : 0 < inject_Z d) by (change 0 with (inject_Z 0); rewrite <- Zlt_Qlt; lia).
  assert (Hup : q < pow2 (a - b + 1)).
  { apply (Qmult_lt_r _ _ (inject_Z d) Hdq). rewrite Hfrac.
    apply Qlt_le_trans with (inject_Z (2 ^ Z.succ a)).
    - rewrite <- Zlt_Qlt. exact Hn2.
    - rewrite <- pow2_Z by lia.
      replace (Z.succ a) with ((a - b + 1) + b)%Z by lia.
      rewrite pow2_plus. apply Qmult_le_l; [apply pow2_pos|].
      rewrite pow2_Z by lia. rewrite <- Zle_Qle. exact Hd1. }
  assert (Hlo : pow2 (a - b - 1) <= q).
  { apply (Qmult_le_r _ _ (inject_Z d) Hdq). rewrite Hfrac.
    apply Qle_trans with (inject_Z (2 ^ a)).
    - rewrite <- pow2_Z by lia.
      replace a with ((a - b - 1) + Z.succ b)%Z at 2 by lia.
      rewrite pow2_plus. apply Qmult_le_l; [apply pow2_pos|].
      rewrite pow2_Z by lia. rewrite <- Zle_Qle. lia.
    - rewrite <- Zle_Qle. exact Hn1. }
  unfold ilog2. fold n d a b.
  destruct (Qle_bool (pow2 (a - b)) q) eqn:E.
  - apply Qle_bool_iff in E. split; assumption.
  - assert (Hlt : q < pow2 (a - b)).
    { apply Qnot_le_lt. intros H. apply Qle_bool_iff in H. congruence. }
    replace (a - b - 1 + 1)%Z with (a - b)%Z by lia. split; assumption.
Qed.

Lemma ilog2_unique (q : Q) (e : Z) :
  pow2 e <= q -> q < pow2 (e + 1) -> ilog2 q = e.
Proof.
  intros H1 H2.
  assert (Hq : 0 < q) by (eapply Qlt_le_trans; [apply pow2_pos | exact H1]).
  destruct (ilog2_spec q Hq) as [H3 H4].
  assert (A : (ilog2 q < e + 1)%Z) by (apply pow2_lt_inv; lra).
  assert (B : (e < ilog2 q + 1)%Z) by (apply pow2_lt_inv; lra).
  lia.
Qed.

Lemma ilog2_comp (p q : Q) : 0 < p -> p == q -> ilog2 p = ilog2 q.
Proof.
  intros Hp E. destruct (ilog2_spec p Hp) as [H1 H2].
  symmetry. apply ilog2_unique; rewrite <- E; assumption.
Qed.

Lemma ilog2_mono (p q : Q) : 0 < p -> p <= q -> (ilog2 p <= ilog2 q)%Z.
Proof.
  intros Hp Hpq. assert (Hq : 0 < q) by lra.
  destruct (ilog2_spec p Hp) as [H1 _]. destruct (ilog2_spec q Hq) as [_ H2].
  assert (A : (ilog2 p < ilog2 q + 1)%Z) by (apply pow2_lt_inv; lra).
  lia.
Qed.


(** *** The nearest integer *)

Lemma rne_comp (x y : Q) : x == y -> rne x = rne y.
Proof.
  intros E. unfold rne. rewrite (Qfloor_comp _ _ E).
  assert (C : Qcompare (x - inject_Z (Qfloor y)) (1 # 2)
              = Qcompare (y - inject_Z (Qfloor y)) (1 # 2))
    by (rewrite E; reflexivity).
  rewrite C. reflexivity.
Qed.

Lemma rne_cases (x : Q) :
  (rne x = Qfloor x /\ x - inject_Z (Qfloor x) <= 1 # 2) \/
  (rne x = (Qfloor x + 1)%Z /\ 1 # 2 <= x - inject_Z (Qfloor x)).
Proof.
  unfold rne. destruct (Qcompare_spec (x - inject_Z (Qfloor x)) (1 # 2)) as [E|E|E].
  - destruct (Z.even (Qfloor x)); [left | right]; split; try reflexivity; rewrite E;
      apply Qle_refl.
  - left. split; [reflexivity | lra].
  - right. split; [reflexivity | lra].
Qed.

Lemma floor_fraction (x : Q) :
  0 <= x - inject_Z (Qfloor x) /\ x - inject_Z (Qfloor x) < 1.
Proof.
  pose proof (Qfloor_le x). pose proof (Qlt_floor x) as H1.
  rewrite inject_Z_plus in H1. change (inject_Z 1) with 1 in H1. split; lra.
Qed.

Lemma rne_near (x : Q) :
  inject_Z (rne x) - x <= 1 # 2 /\ x - inject_Z (rne x) <= 1 # 2.
Proof.
  pose proof (floor_fraction x) as [F0 F1].
  destruct (rne_cases x) as [[-> H]|[-> H]].
  - split; lra.
  - rewrite inject_Z_plus. change (inject_Z 1) with 1. split; lra.
Qed.

Lemma rne_Z (z : Z) : rne (inject_Z z) = z.
Proof.
  unfold rne. rewrite Qfloor_Z.
  assert (C : Qcompare (inject_Z z - inject_Z z) (1 # 2) = Lt).
  { apply Qlt_alt. assert (E : inject_Z z - inject_Z z == 0) by ring.
    rewrite E. reflexivity. }
  rewrite C. reflexivity.
Qed.

Lemma rne_ge_int (x : Q) (n : Z) : inject_Z n <= x -> (n <= rne x)%Z.
Proof.
  intros H. apply Qfloor_resp_le in H. rewrite Qfloor_Z in H.
  destruct (rne_cases x) as [[-> _]|[-> _]]; lia.
Qed.

Lemma rne_le_int (x : Q) (n : Z) : x <= inject_Z n -> (rne x <= n)%Z.
Proof.
  intros H. pose proof (Qfloor_le x) as Hf.
  destruct (rne_cases x) as [[-> _]|[-> Hh]].
  - rewrite Zle_Qle. lra.
  - assert (Hlt : inject_Z (Qfloor x) < inject_Z n) by lra.
    rewrite <- Zlt_Qlt in Hlt. lia.
Qed.

Lemma rne_mono (x y : Q) : x <= y -> (rne x <= rne y)%Z.
Proof.
  intros H. pose proof (Qfloor_resp_le _ _ H) as Hf.
  destruct (Z.eq_dec (Qfloor x) (Qfloor y)) as [E|N].
  - unfold rne. rewrite E.
    destruct (Qcompare_spec (x - inject_Z (Qfloor y)) (1 # 2)) as [Ex|Ex|Ex];
      destruct (Qcompare_spec (y - inject_Z (Qfloor y)) (1 # 2)) as [Ey|Ey|Ey];
      try destruct (Z.even (Qfloor y)); try lia; lra.
  - destruct (rne_cases x) as [[-> _]|[-> _]];
      destruct (rne_cases y) as [[-> _]|[-> _]]; lia.
Qed.

Lemma rne_nonneg (x : Q) : 0 <= x -> (0 <= rne x)%Z.
Proof. intros H. apply rne_ge_int. exact H. Qed.


(** *** Rounding a positive number *)

Variables prec emax : Z.
Hypothesis prec_pos : (1 <= prec)%Z.

Let emin : Z := (2 - emax - prec)%Z.

Lemma ulp_exp_mono (p q : Q) :
  0 < p -> p <= q -> (ulp_exp prec emax p <= ulp_exp prec emax q)%Z.
Proof.
  intros Hp Hpq. pose proof (ilog2_mono p q Hp Hpq). unfold ulp_exp. lia.
Qed.

Lemma div_pow2_le (p q : Q) (e : Z) : p <= q -> p / pow2 e <= q / pow2 e.
Proof.
  intros H. unfold Qdiv. apply Qmult_le_compat_r; [exact H|].
  apply Qlt_le_weak, Qinv_lt_0_compat, pow2_pos.
Qed.

Lemma div_pow2 (a b : Z) : pow2 a / pow2 b == pow2 (a - b).
Proof.
  pose proof (pow2_pos b) as Hb.
  replace a with ((a - b) + b)%Z at 1 by lia. rewrite pow2_plus.
  field. lra.
Qed.

Lemma times_pow2_le (m n : Z) (e : Z) :
  (m <= n)%Z -> inject_Z m * pow2 e <= inject_Z n * pow2 e.
Proof.
  intros H. apply Qmult_le_compat_r; [rewrite <- Zle_Qle; exact H|].
  apply Qlt_le_weak, pow2_pos.
Qed.

Lemma round_pos_comp (p q : Q) :
  0 < p -> p == q -> round_pos prec emax p == round_pos prec emax q.
Proof.
  intros Hp E. unfold round_pos, ulp_exp.
  rewrite (ilog2_comp p q Hp E).
  rewrite (rne_comp (p / pow2 (Z.max (ilog2 q - prec + 1) (2 - emax - prec)))
                    (q / pow2 (Z.max (ilog2 q - prec + 1) (2 - emax - prec))))
    by (rewrite E; reflexivity).
  reflexivity.
Qed.

Lemma round_pos_nonneg (q : Q) : 0 < q -> 0 <= round_pos prec emax q.
Proof.
  intros Hq. unfold round_pos. cbv zeta.
  pose proof (pow2_pos (ulp_exp prec emax q)) as He.
  apply Qmult_le_0_compat; [|lra].
  change 0 with (inject_Z 0). rewrite <- Zle_Qle. apply rne_nonneg.
  apply Qlt_le_weak, Qlt_shift_div_l; [exact He | lra].
Qed.

(** A multiple of the unit in the last place above [q] is above its
    rounding, and one below is below. *)
Lemma round_pos_le_grid (q : Q) (m : Z) :
  0 < q -> q <= inject_Z m * pow2 (ulp_exp prec emax q) ->
  round_pos prec emax q <= inject_Z m * pow2 (ulp_exp prec emax q).
Proof.
  intros Hq H. unfold round_pos. cbv zeta.
  pose proof (pow2_pos (ulp_exp prec emax q)) as He.
  apply times_pow2_le, rne_le_int.
  apply Qle_shift_div_r; [exact He | exact H].
Qed.

Lemma round_pos_ge_grid (q : Q) (m : Z) :
  0 < q -> inject_Z m * pow2 (ulp_exp prec emax q) <= q ->
  inject_Z m * pow2 (ulp_exp prec emax q) <= round_pos prec emax q.
Proof.
  intros Hq H. unfold round_pos. cbv zeta.
  pose proof (pow2_pos (ulp_exp prec emax q)) as He.
  apply times_pow2_le, rne_ge_int.
  apply Qle_shift_div_l; [exact He | exact H].
Qed.

(** A power of two at least [2 ^ e] is a multiple of [2 ^ e]. *)
Lemma pow2_multiple (k e : Z) :
  (e <= k)%Z -> pow2 k == inject_Z (2 ^ (k - e)) * pow2 e.
Proof.
  intros H. rewrite <- pow2_Z by lia. rewrite <- pow2_plus.
  replace (k - e + e)%Z with k by lia. reflexivity.
Qed.

Lemma round_pos_mono (p q : Q) :
  0 < p -> p <= q -> round_pos prec emax p <= round_pos prec emax q.
Proof.
  intros Hp Hpq. assert (Hq : 0 < q) by lra.
  pose proof (ulp_exp_mono p q Hp Hpq) as He.
  destruct (Z.eq_dec (ulp_exp prec emax p) (ulp_exp prec emax q)) as [E|N].
  - unfold round_pos. cbv zeta. rewrite E.
    apply times_pow2_le, rne_mono, div_pow2_le, Hpq.
  - (* [q] lies in a higher binade: the power of two that starts it
       separates the two roundings *)
    assert (Hlt : (ulp_exp prec emax p < ulp_exp prec emax q)%Z) by lia.
    destruct (ilog2_spec p Hp) as [_ Hp2]. destruct (ilog2_spec q Hq) as [Hq1 _].
    assert (Eq' : ulp_exp prec emax q = (ilog2 q - prec + 1)%Z)
      by (unfold ulp_exp in *; lia).
    assert (Hpe : (ilog2 p - prec + 1 <= ulp_exp prec emax p)%Z)
      by (unfold ulp_exp; lia).
    set (B := pow2 (ilog2 q)).
    apply Qle_trans with B.
    + unfold B. rewrite (pow2_multiple (ilog2 q) (ulp_exp prec emax p)) by lia.
      apply round_pos_le_grid; [exact Hp|].
      rewrite <- pow2_multiple by lia.
      apply Qlt_le_weak. eapply Qlt_le_trans; [exact Hp2|]. apply pow2_le. lia.
    + unfold B. rewrite (pow2_multiple (ilog2 q) (ulp_exp prec emax q)) by lia.
      apply round_pos_ge_grid; [exact Hq|].
      rewrite <- pow2_multiple by lia. exact Hq1.
Qed.

(** The numbers [z * 2 ^ e] with [0 < z < 2 ^ prec] and [e] at least the
    least exponent are kept. *)
Lemma round_pos_exact (q : Q) (z e : Z) :
  (0 < z < 2 ^ prec)%Z -> (emin <= e)%Z ->
  q == inject_Z z * pow2 e ->
  round_pos prec emax q == q.
Proof.
  intros Hz He Eq.
  assert (Hq : 0 < q).
  { rewrite Eq. apply Qmult_lt_0_compat; [|apply pow2_pos].
    change 0 with (inject_Z 0). rewrite <- Zlt_Qlt. lia. }
  destruct (ilog2_spec q Hq) as [H1 _].
  assert (Hup : q < pow2 (prec + e)).
  { rewrite Eq, pow2_plus. apply Qmult_lt_compat_r; [apply pow2_pos|].
    rewrite pow2_Z by lia. rewrite <- Zlt_Qlt. lia. }
  assert (HL : (ilog2 q < prec + e)%Z) by (apply pow2_lt_inv; lra).
  assert (Hee : (ulp_exp prec emax q <= e)%Z) by (unfold ulp_exp; subst emin; lia).
  set (ee := ulp_exp prec emax q) in *.
  assert (Egrid : q == inject_Z (z * 2 ^ (e - ee)) * pow2 ee).
  { rewrite Eq, inject_Z_mult, <- Qmult_assoc, <- pow2_multiple by lia. reflexivity. }
  apply Qle_antisym.
  - rewrite Egrid at 2. apply round_pos_le_grid; [exact Hq|].
    fold ee. rewrite <- Egrid. apply Qle_refl.
  - rewrite Egrid at 1. apply round_pos_ge_grid; [exact Hq|].
    fold ee. rewrite <- Egrid. apply Qle_refl.
Qed.

(** The rounding error is at most half a unit in the last place. *)
Lemma round_pos_err (q : Q) :
  0 < q ->
  Qabs (round_pos prec emax q - q) <= pow2 (- prec) * q + pow2 (emin - 1).
Proof.
  intros Hq. destruct (ilog2_spec q Hq) as [H1 _].
  set (e := ulp_exp prec emax q).
  pose proof (pow2_pos e) as He.
  assert (Hhalf : Qabs (round_pos prec emax q - q) <= (1 # 2) * pow2 e).
  { unfold round_pos. cbv zeta. fold e.
    destruct (rne_near (q / pow2 e)) as [N1 N2].
    assert (Eq : q == q / pow2 e * pow2 e) by (field; lra).
    apply Qabs_Qle_condition. split.
    - assert (H : (q / pow2 e - inject_Z (rne (q / pow2 e))) * pow2 e <= (1 # 2) * pow2 e)
        by (apply Qmult_le_compat_r; lra).
      rewrite Eq at 2. lra.
    - assert (H : (inject_Z (rne (q / pow2 e)) - q / pow2 e) * pow2 e <= (1 # 2) * pow2 e)
        by (apply Qmult_le_compat_r; lra).
      rewrite Eq at 2. lra. }
  eapply Qle_trans; [exact Hhalf|].
  assert (Hs : (1 # 2) * pow2 e == pow2 (e - 1)).
  { replace e with ((e - 1) + 1)%Z at 1 by lia. rewrite pow2_succ. ring. }
  rewrite Hs.
  pose proof (pow2_pos (emin - 1)) as Hm. pose proof (pow2_pos (- prec)) as Hp.
  destruct (Z.max_spec (ilog2 q - prec + 1) emin) as [[_ E]|[_ E]];
    fold emin in E; unfold ulp_exp in e; fold emin in e; fold e in E; rewrite E.
  - assert (0 <= pow2 (- prec) * q) by (apply Qmult_le_0_compat; lra). lra.
  - replace (ilog2 q - prec + 1 - 1)%Z with (- prec + ilog2 q)%Z by lia.
    rewrite pow2_plus.
    assert (pow2 (- prec) * pow2 (ilog2 q) <= pow2 (- prec) * q)
      by (apply Qmult_le_l; assumption).
    lra.
Qed.


(** *** Rounding a number of either sign *)

Lemma round_bin_pos (q : Q) : 0 < q -> round_bin prec emax q = round_pos prec emax q.
Proof.
  intros H. unfold round_bin.
  assert (C : Qcompare q 0 = Gt) by (apply Qgt_alt; exact H).
  rewrite C. reflexivity.
Qed.

Lemma round_bin_neg (q : Q) : q < 0 -> round_bin prec emax q = - round_pos prec emax (- q).
Proof.
  intros H. unfold round_bin.
  assert (C : Qcompare q 0 = Lt) by (apply Qlt_alt; exact H).
  rewrite C. reflexivity.
Qed.

Lemma round_bin_zero (q : Q) : q == 0 -> round_bin prec emax q = 0.
Proof.
  intros H. unfold round_bin.
  assert (C : Qcompare q 0 = Eq) by (apply Qeq_alt; exact H).
  rewrite C. reflexivity.
Qed.

Lemma round_bin_sign (q : Q) :
  (0 <= q -> 0 <= round_bin prec emax q) /\ (q <= 0 -> round_bin prec emax q <= 0).
Proof.
  destruct (Q_dec q 0) as [[H|H]|H].
  - rewrite (round_bin_neg q H).
    assert (0 <= round_pos prec emax (- q)) by (apply round_pos_nonneg; lra).
    split; intros; lra.
  - rewrite (round_bin_pos q H).
    pose proof (round_pos_nonneg q H). split; intros; lra.
  - rewrite (round_bin_zero q H). split; intros; apply Qle_refl.
Qed.

Lemma round_bin_mono (p q : Q) : p <= q -> round_bin prec emax p <= round_bin prec emax q.
Proof.
  intros Hpq.
  destruct (Q_dec p 0) as [[Hp|Hp]|Hp].
  - destruct (Q_dec q 0) as [[Hq|Hq]|Hq].
    + rewrite (round_bin_neg p Hp), (round_bin_neg q Hq).
      assert (round_pos prec emax (- q) <= round_pos prec emax (- p))
        by (apply round_pos_mono; lra).
      lra.
    + destruct (round_bin_sign p) as [_ H1]. destruct (round_bin_sign q) as [H2 _].
      assert (round_bin prec emax p <= 0) by (apply H1; lra).
      assert (0 <= round_bin prec emax q) by (apply H2; lra). lra.
    + destruct (round_bin_sign p) as [_ H1].
      rewrite (round_bin_zero q Hq). apply H1. lra.
  - assert (Hq : 0 < q) by lra.
    rewrite (round_bin_pos p Hp), (round_bin_pos q Hq).
    apply round_pos_mono; assumption.
  - rewrite (round_bin_zero p Hp).
    destruct (round_bin_sign q) as [H2 _]. apply H2. lra.
Qed.

Lemma round_bin_exact (q : Q) (z e : Z) :
  (Z.abs z < 2 ^ prec)%Z -> (emin <= e)%Z ->
  q == inject_Z z * pow2 e ->
  round_bin prec emax q == q.
Proof.
  intros Hz He Eq. pose proof (pow2_pos e) as Hpe.
  destruct (Z.lt_trichotomy z 0) as [Hneg|[Hzero|Hpos]].
  - assert (Hq : q < 0).
    { rewrite Eq. assert (H : 0 < inject_Z (- z) * pow2 e).
      { apply Qmult_lt_0_compat; [|exact Hpe].
        change 0 with (inject_Z 0). rewrite <- Zlt_Qlt. lia. }
      rewrite inject_Z_opp in H. lra. }
    rewrite (round_bin_neg q Hq).
    rewrite (round_pos_exact (- q) (- z) e); [ring | lia | exact He |].
    rewrite Eq, inject_Z_opp. ring.
  - subst z. assert (Hq : q == 0) by (rewrite Eq; ring).
    rewrite (round_bin_zero q Hq). symmetry. exact Hq.
  - assert (Hq : 0 < q).
    { rewrite Eq. apply Qmult_lt_0_compat; [|exact Hpe].
      change 0 with (inject_Z 0). rewrite <- Zlt_Qlt. lia. }
    rewrite (round_bin_pos q Hq).
    apply (round_pos_exact q z e); [lia | exact He | exact Eq].
Qed.

Lemma round_bin_err (q : Q) :
  Qabs (round_bin prec emax q - q) <= pow2 (- prec) * Qabs q + pow2 (emin - 1).
Proof.
  pose proof (pow2_pos (emin - 1)) as Hm.
  destruct (Q_dec q 0) as [[H|H]|H].
  - rewrite (round_bin_neg q H).
    assert (Hn : 0 < - q) by lra.
    pose proof (round_pos_err (- q) Hn) as He.
    rewrite (Qabs_neg q) by lra.
    assert (E : - round_pos prec emax (- q) - q == - (round_pos prec emax (- q) - - q))
      by ring.
    rewrite E, Qabs_opp. exact He.
  - rewrite (round_bin_pos q H). rewrite (Qabs_pos q) by lra.
    apply round_pos_err, H.
  - rewrite (round_bin_zero q H).
    assert (E : 0 - q == 0) by (rewrite H; ring).
    rewrite E, H. change (Qabs 0) with 0. lra.
Qed.

(** *** The format *)

Hypothesis emax_pos : (prec <= emax)%Z.

Lemma binary_finite (q : Q) :
  Qabs (round_bin prec emax q) < pow2 (emax + 1) ->
  binary prec emax q = fin (round_bin prec emax q).
Proof.
  intros H. unfold binary. cbv zeta.
  destruct (Qle_bool (pow2 (emax + 1)) (Qabs (round_bin prec emax q))) eqn:E;
    [|reflexivity].
  apply Qle_bool_iff in E. lra.
Qed.

Lemma binary_cases (q : Q) :
  (binary prec emax q = PInf /\ pow2 (emax + 1) <= round_bin prec emax q) \/
  (binary prec emax q = NInf /\ round_bin prec emax q <= - pow2 (emax + 1)) \/
  (binary prec emax q = fin (round_bin prec emax q) /\
   - pow2 (emax + 1) < round_bin prec emax q < pow2 (emax + 1)).
Proof.
  unfold binary. cbv zeta. set (r := round_bin prec emax q).
  pose proof (pow2_pos (emax + 1)) as HT.
  destruct (Qle_bool (pow2 (emax + 1)) (Qabs r)) eqn:E.
  - apply Qle_bool_iff in E.
    destruct (Qle_bool 0 r) eqn:S.
    + apply Qle_bool_iff in S. left. split; [reflexivity|].
      rewrite Qabs_pos in E by exact S. exact E.
    + assert (Hr : r < 0).
      { apply Qnot_le_lt. intros H. apply Qle_bool_iff in H. congruence. }
      right; left. split; [reflexivity|].
      rewrite Qabs_neg in E by lra. lra.
  - assert (Hlt : Qabs r < pow2 (emax + 1)).
    { apply Qnot_le_lt. intros H. apply Qle_bool_iff in H. congruence. }
    right; right. split; [reflexivity|].
    apply Qabs_Qlt_condition in Hlt. exact Hlt.
Qed.

Theorem binary_rounding : Rounding prec emax (binary prec emax).
Proof.
  split.
  - intros z e Hz He.
    set (q0 := Qred (inject_Z z * pow2 e)).
    assert (E0 : q0 == inject_Z z * pow2 e) by apply Qred_correct.
    assert (Er : round_bin prec emax q0 == inject_Z z * pow2 e).
    { rewrite (round_bin_exact q0 z e); [exact E0 | exact Hz | subst emin; lia | exact E0]. }
    rewrite binary_finite.
    + apply fin_eq, Er.
    + rewrite Er. pose proof (pow2_pos e) as Hpe.
      rewrite Qabs_Qmult, (Qabs_pos (pow2 e)) by lra.
      apply Qlt_le_trans with (pow2 prec * pow2 e).
      * apply Qmult_lt_compat_r; [exact Hpe|].
        rewrite pow2_Z by lia.
        change (Qabs (inject_Z z)) with (inject_Z (Z.abs z)).
        rewrite <- Zlt_Qlt. exact Hz.
      * rewrite <- pow2_plus. apply pow2_le. lia.
  - intros p q Hpq.
    assert (Hr : round_bin prec emax (Qred p) <= round_bin prec emax (Qred q))
      by (apply round_bin_mono; rewrite !Qred_correct; exact Hpq).
    pose proof (pow2_pos (emax + 1)) as HT.
    destruct (binary_cases (Qred p)) as [[-> Bp]|[[-> Bp]|[-> Bp]]];
      destruct (binary_cases (Qred q)) as [[-> Bq]|[[-> Bq]|[-> Bq]]];
      try reflexivity; try (exfalso; lra).
    unfold fin, leb. apply Qle_bool_iff.
    rewrite (Qred_correct (round_bin prec emax (Qred p))).
    rewrite (Qred_correct (round_bin prec emax (Qred q))). exact Hr.
  - intros q q' H.
    destruct (binary_cases (Qred q)) as [[E _]|[[E _]|[E _]]];
      rewrite E in H; try discriminate H.
    injection H as <-.
    pose proof (round_bin_err (Qred q)) as He. subst emin.
    replace (2 - emax - prec - 1)%Z with (1 - emax - prec)%Z in He by lia.
    assert (E1 : Qred (round_bin prec emax (Qred q)) - q
                 == round_bin prec emax (Qred q) - Qred q)
      by (pose proof (Qred_correct (round_bin prec emax (Qred q)));
          pose proof (Qred_correct q); lra).
    assert (E2 : Qabs (Qred q) == Qabs q) by (rewrite (Qred_correct q); reflexivity).
    rewrite E1, <- E2. exact He.
Qed.

End BinaryRounding.

(** The two formats of the program. *)
Theorem double_rounding : Ieee.Rounding 53 1023 Ieee.double.
Proof. apply binary_rounding; lia. Qed.

Theorem single_rounding : Ieee.Rounding 24 127 Ieee.single.
Proof. apply binary_rounding; lia. Qed.

Lemma Qmult_le_left (x y z : Q) : 0 <= z -> x <= y -> z * x <= z * y.
Proof.
  intros Hz H. rewrite (Qmult_comm z x), (Qmult_comm z y).
  apply Qmult_le_compat_r; assumption.
Qed.

(** ** Rounded arithmetic *)

Section RoundedArithmetic.

Import Ieee.

Variables (prec emax : Z) (rd : Q -> num).
Hypothesis rounding : Rounding prec emax rd.
Hypothesis format : (1 <= prec <= emax)%Z.

Lemma rounded_fin (q : Q) : rounded rd (fin q) = rd (Qred q).
Proof. unfold rounded, fin. rewrite Qred_fixed. reflexivity. Qed.

Lemma fadd_Fin (x y : Q) : fadd rd (Fin x) (Fin y) = rd (Qred (x + y)).
Proof. unfold fadd, add. apply rounded_fin. Qed.

Lemma fsub_Fin (x y : Q) : fsub rd (Fin x) (Fin y) = rd (Qred (x - y)).
Proof. unfold fsub. rewrite sub_Fin. apply rounded_fin. Qed.

Lemma fmul_Fin (x y : Q) : fmul rd (Fin x) (Fin y) = rd (Qred (x * y)).
Proof. unfold fmul, mul. apply rounded_fin. Qed.

Lemma fdiv_Fin (x y : Q) : 0 < y -> fdiv rd (Fin x) (Fin y) = rd (Qred (x / y)).
Proof. intros H. unfold fdiv. rewrite div_Fin_pos by exact H. apply rounded_fin. Qed.

Lemma rd_representable (q : Q) : representable prec emax q -> rd (Qred q) = fin q.
Proof.
  intros (z & e & Hz & He & E).
  rewrite (Qred_complete _ _ E), (fin_eq _ _ E).
  apply (rd_exact _ _ _ rounding); assumption.
Qed.

Lemma representable_int (z : Z) : (Z.abs z < 2 ^ prec)%Z -> representable prec emax (inject_Z z).
Proof.
  intros Hz. exists z, 0%Z. split; [exact Hz|]. split; [lia|].
  change (pow2 0) with 1. ring.
Qed.

Lemma representable_pow2 (k : Z) : (0 <= k <= emax - prec)%Z -> representable prec emax (pow2 k).
Proof.
  intros Hk. exists 1%Z, k. split.
  - apply Z.lt_le_trans with (2 ^ 1)%Z; [reflexivity|].
    apply Z.pow_le_mono_r; lia.
  - split; [lia|]. ring.
Qed.

Lemma rd_int (z : Z) : (Z.abs z < 2 ^ prec)%Z -> rd (inject_Z z) = Fin (inject_Z z).
Proof.
  intros Hz. rewrite <- (Qred_inject_Z z) at 1.
  rewrite (rd_representable _ (representable_int z Hz)).
  apply fin_int. reflexivity.
Qed.

(** Rounding does not cross a number of the format. *)
Lemma rd_between (lo hi q : Q) :
  representable prec emax lo -> representable prec emax hi -> lo <= q -> q <= hi ->
  exists q', rd (Qred q) = Fin q' /\ lo <= q' /\ q' <= hi.
Proof.
  intros Rlo Rhi Hlo Hhi.
  pose proof (rd_mono _ _ _ rounding lo q Hlo) as Mlo.
  pose proof (rd_mono _ _ _ rounding q hi Hhi) as Mhi.
  rewrite (rd_representable lo Rlo) in Mlo.
  rewrite (rd_representable hi Rhi) in Mhi.
  destruct (rd (Qred q)) as [q'| | |]; try discriminate.
  exists q'. split; [reflexivity|].
  unfold fin, leb in Mlo, Mhi. apply Qle_bool_iff in Mlo, Mhi.
  rewrite Qred_correct in Mlo, Mhi. split; assumption.
Qed.

(** The error of rounding a non-negative number. *)
Lemma rd_near (q q' : Q) :
  0 <= q -> rd (Qred q) = Fin q' ->
  q - (pow2 (- prec) * q + pow2 (1 - emax - prec)) <= q' /\
  q' <= q + (pow2 (- prec) * q + pow2 (1 - emax - prec)).
Proof.
  intros Hq H. pose proof (rd_err _ _ _ rounding q q' H) as He.
  rewrite (Qabs_pos q) in He by exact Hq.
  apply Qabs_Qle_condition in He. destruct He. split; lra.
Qed.

End RoundedArithmetic.

(** ** [samplePositions] in double precision *)

Lemma double_format : (1 <= 53 <= 1023)%Z.
Proof. lia. Qed.

Lemma single_format : (1 <= 24 <= 127)%Z.
Proof. lia. Qed.

Lemma representable_double (q : Q) : Ieee.representable 24 127 q -> Ieee.representable 53 1023 q.
Proof.
  intros (z & e & Hz & He & E). exists z, e.
  split; [|split; [lia | exact E]].
  eapply Z.lt_le_trans; [exact Hz|]. apply Z.pow_le_mono_r; lia.
Qed.

Lemma representable_opp (prec emax : Z) (q : Q) :
  Ieee.representable prec emax q -> Ieee.representable prec emax (- q).
Proof.
  intros (z & e & Hz & He & E). exists (- z)%Z, e.
  split; [lia|]. split; [exact He|]. rewrite E, inject_Z_opp. ring.
Qed.

Lemma representable_half (prec emax : Z) (z : Z) :
  (1 <= prec <= emax)%Z -> (2 <= emax)%Z -> (Z.abs z < 2 ^ prec)%Z ->
  Ieee.representable prec emax (inject_Z z * (1 # 2)).
Proof.
  intros Hf He Hz. exists z, (-1)%Z. split; [exact Hz|]. split; [lia|].
  change (Ieee.pow2 (-1)) with (/ 2). field.
Qed.

Lemma nat_representable (k : nat) :
  (Z.of_nat k < 2 ^ 53)%Z -> Ieee.representable 53 1023 (inject_Z (Z.of_nat k)).
Proof. intros H. apply (representable_int 53 1023 double_format). lia. Qed.

Lemma below_pow2 (k : nat) (e : Z) :
  (Z.of_nat k < 2 ^ e)%Z -> (0 <= e)%Z -> inject_Z (Z.of_nat k) <= Ieee.pow2 e.
Proof.
  intros H He. rewrite pow2_Z by exact He. rewrite <- Zle_Qle. lia.
Qed.

Section DoubleSampling.

Import Ieee.

Variable rd : Q -> num.
Hypothesis rounding : Rounding 53 1023 rd.

Variables (a : f32) (n maxCount : nat) (rnd : nat -> Q).
Hypothesis well_formed : length a = (n * 3)%nat.
Hypothesis small : (Z.of_nat (length a) < 2 ^ 53)%Z.
Hypothesis more_points : (maxCount < n)%nat.
Hypothesis rnd_unit : forall i, 0 <= rnd i /\ rnd i < 1.

Lemma double_nat (k : nat) : (Z.of_nat k < 2 ^ 53)%Z -> rd (inject_Z (Z.of_nat k)) = of_nat k.
Proof. intros H. apply (rd_int 53 1023 rd rounding double_format). lia. Qed.

Lemma totalVertices_double : Doubles.totalVertices rd a = of_nat n.
Proof.
  unfold Doubles.totalVertices, of_nat.
  rewrite (fdiv_Fin rd) by reflexivity.
  rewrite (Qred_complete _ (inject_Z (Z.of_nat n))).
  - rewrite Qred_inject_Z. apply double_nat. lia.
  - rewrite well_formed, Nat2Z.inj_mul, inject_Z_mult.
    change (inject_Z (Z.of_nat 3)) with 3. field.
Qed.

Lemma sample_branch_double : leb (Doubles.totalVertices rd a) (of_nat maxCount) = false.
Proof.
  rewrite totalVertices_double. unfold leb, of_nat.
  rewrite Qle_bool_inject_Z. apply Z.leb_gt. lia.
Qed.

(** The step is a finite number between 1 and [n]. *)
Lemma step_double :
  (0 < maxCount)%nat ->
  exists s, Doubles.step rd (of_nat n) maxCount = Fin s /\
            rd (Qred (inject_Z (Z.of_nat n) / inject_Z (Z.of_nat maxCount))) = Fin s /\
            1 <= s /\ s <= inject_Z (Z.of_nat n).
Proof.
  intros Hpos. pose proof (inject_Z_of_nat_pos _ Hpos) as Hm.
  assert (Hn : 0 < inject_Z (Z.of_nat n)) by (apply inject_Z_of_nat_pos; lia).
  pose proof (step_gt_1 n maxCount Hpos more_points) as H1. cbv zeta in H1.
  unfold Doubles.step, of_nat. rewrite (fdiv_Fin rd) by exact Hm.
  destruct (rd_between 53 1023 rd rounding 1 (inject_Z (Z.of_nat n))
              (inject_Z (Z.of_nat n) / inject_Z (Z.of_nat maxCount)))
    as (s & Hs & Hlo & Hhi).
  - apply (representable_int 53 1023 double_format 1). reflexivity.
  - apply nat_representable. lia.
  - lra.
  - apply Qle_shift_div_r; [exact Hm|].
    assert (H : inject_Z (Z.of_nat n) * 1 <= inject_Z (Z.of_nat n) * inject_Z (Z.of_nat maxCount)).
    { apply Qmult_le_l; [lra|]. change 1 with (inject_Z 1). rewrite <- Zle_Qle. lia. }
    lra.
  - exists s. auto.
Qed.

(** The sum under [Math.floor] is a finite, non-negative number. *)
Lemma drawn_double (s : Q) (i : nat) :
  1 <= s -> s <= inject_Z (Z.of_nat n) -> (i < maxCount)%nat ->
  exists p q x,
    rd (Qred (inject_Z (Z.of_nat i) * s)) = Fin p /\
    rd (Qred (rnd i * s)) = Fin q /\
    rd (Qred (p + q)) = Fin x /\
    0 <= p /\ 0 <= q /\ 0 <= x.
Proof.
  intros Hs1 Hsn Hi. destruct (rnd_unit i) as [R0 R1].
  assert (Hi0 : 0 <= inject_Z (Z.of_nat i))
    by (change 0 with (inject_Z 0); rewrite <- Zle_Qle; lia).
  assert (Hn53 : inject_Z (Z.of_nat n) <= pow2 53) by (apply below_pow2; lia).
  assert (Hi53 : inject_Z (Z.of_nat i) <= pow2 53) by (apply below_pow2; lia).
  pose proof (pow2_pos 53) as P53.
  assert (R0' : representable 53 1023 0).
  { apply (representable_int 53 1023 double_format 0). reflexivity. }
  destruct (rd_between 53 1023 rd rounding 0 (pow2 106) (inject_Z (Z.of_nat i) * s))
    as (p & Hp & Hp0 & Hp1).
  - exact R0'.
  - apply (representable_pow2 53 1023 double_format). lia.
  - apply Qmult_le_0_compat; lra.
  - change 106%Z with (53 + 53)%Z. rewrite pow2_plus.
    apply Qle_trans with (pow2 53 * s).
    + apply Qmult_le_compat_r; lra.
    + apply Qmult_le_l; lra.
  - destruct (rd_between 53 1023 rd rounding 0 (pow2 53) (rnd i * s))
      as (q & Hq & Hq0 & Hq1).
    + exact R0'.
    + apply (representable_pow2 53 1023 double_format). lia.
    + apply Qmult_le_0_compat; lra.
    + assert (H : rnd i * s <= 1 * s) by (apply Qmult_le_compat_r; lra). lra.
    + destruct (rd_between 53 1023 rd rounding 0 (pow2 107) (p + q))
        as (x & Hx & Hx0 & Hx1).
      * exact R0'.
      * apply (representable_pow2 53 1023 double_format). lia.
      * lra.
      * assert (E : pow2 107 == 2 * pow2 106) by (change 107%Z with (106 + 1)%Z; apply pow2_succ).
        assert (L : pow2 53 <= pow2 106) by (apply pow2_le; lia).
        lra.
      * exists p, q, x. repeat split; assumption.
Qed.

(** The index of iteration [i]: a natural number below [n], computed
    from the rounded step [s], the rounded products [p] and [q] and their
    rounded sum [x]. *)
Lemma sampleIndex_double (i : nat) :
  (i < maxCount)%nat ->
  exists (idx : nat) (s p q x : Q),
    Doubles.sampleIndex rd (Doubles.totalVertices rd a) maxCount rnd i = of_nat idx /\
    (idx < n)%nat /\
    Doubles.drawnIndex rd (Doubles.totalVertices rd a) maxCount rnd i
      = Fin (inject_Z (Qfloor x)) /\
    Z.of_nat idx = Z.min (Qfloor x) (Z.of_nat n - 1) /\
    rd (Qred (inject_Z (Z.of_nat n) / inject_Z (Z.of_nat maxCount))) = Fin s /\
    rd (Qred (inject_Z (Z.of_nat i) * s)) = Fin p /\
    rd (Qred (rnd i * s)) = Fin q /\
    rd (Qred (p + q)) = Fin x /\
    1 <= s /\ s <= inject_Z (Z.of_nat n) /\ 0 <= p /\ 0 <= q /\ 0 <= x.
Proof.
  intros Hi. assert (Hpos : (0 < maxCount)%nat) by lia.
  destruct (step_double Hpos) as (s & Hstep & Hs & Hs1 & Hsn).
  destruct (drawn_double s i Hs1 Hsn Hi) as (p & q & x & Hp & Hq & Hx & Hp0 & Hq0 & Hx0).
  assert (Hdrawn : Doubles.drawnIndex rd (Doubles.totalVertices rd a) maxCount rnd i
                   = Fin (inject_Z (Qfloor x))).
  { unfold Doubles.drawnIndex. rewrite totalVertices_double, Hstep.
    unfold of_nat. rewrite !(fmul_Fin rd), Hp, Hq, (fadd_Fin rd), Hx. reflexivity. }
  pose proof (Qfloor_nonneg x Hx0) as Hf.
  exists (Z.to_nat (Z.min (Qfloor x) (Z.of_nat n - 1))), s, p, q, x.
  split; [|split; [lia|]].
  - unfold Doubles.sampleIndex. rewrite Hdrawn, totalVertices_double.
    unfold of_nat at 1. rewrite (fsub_Fin rd).
    rewrite (Qred_complete _ (inject_Z (Z.of_nat n - 1))).
    + rewrite Qred_inject_Z, (rd_int 53 1023 rd rounding double_format) by lia.
      rewrite min_int. unfold of_nat. rewrite Z2Nat.id by lia. reflexivity.
    + unfold Z.sub. rewrite inject_Z_plus. reflexivity.
  - split; [exact Hdrawn|]. split; [lia|]. repeat (split; [assumption|]). exact Hx0.
Qed.

(** The rounded sum [x] is within [2 ^ -18] of the exact position
    [(i + rnd i) * n / maxCount] when the array holds at most [2 ^ 32]
    numbers: four roundings, each of relative error [2 ^ -53]. *)
Lemma drawn_near (i : nat) (s p q x : Q) :
  (Z.of_nat (length a) <= 2 ^ 32)%Z ->
  (i < maxCount)%nat ->
  rd (Qred (inject_Z (Z.of_nat n) / inject_Z (Z.of_nat maxCount))) = Fin s ->
  rd (Qred (inject_Z (Z.of_nat i) * s)) = Fin p ->
  rd (Qred (rnd i * s)) = Fin q ->
  rd (Qred (p + q)) = Fin x ->
  1 <= s -> 0 <= p -> 0 <= q ->
  let exact := (inject_Z (Z.of_nat i) + rnd i)
               * (inject_Z (Z.of_nat n) / inject_Z (Z.of_nat maxCount)) in
  exact - (1 # 262144) <= x /\ x <= exact + (1 # 262144).
Proof.
  intros Hsize Hi Hs Hp Hq Hx Hs1 Hp0 Hq0 exact. subst exact.
  assert (Hpos : (0 < maxCount)%nat) by lia.
  destruct (rnd_unit i) as [R0 R1].
  set (N := inject_Z (Z.of_nat n)) in *.
  set (M := inject_Z (Z.of_nat maxCount)) in *.
  set (I := inject_Z (Z.of_nat i)) in *.
  set (r := rnd i) in *.
  assert (HM : 0 < M) by (apply inject_Z_of_nat_pos; exact Hpos).
  assert (HI0 : 0 <= I) by (subst I; change 0 with (inject_Z 0); rewrite <- Zle_Qle; lia).
  assert (HIM : I + 1 <= M).
  { subst I M. change 1 with (inject_Z 1). rewrite <- inject_Z_plus, <- Zle_Qle. lia. }
  assert (HN : N <= 2147483648).
  { subst N. change 2147483648 with (inject_Z 2147483648). rewrite <- Zle_Qle.
    rewrite well_formed in Hsize. lia. }
  pose proof (step_gt_1 n maxCount Hpos more_points) as Hs0. cbv zeta in Hs0.
  fold N M in Hs0.
  pose proof (step_times_count n maxCount Hpos) as HsM. cbv zeta in HsM. fold N M in HsM.
  set (s0 := N / M) in *.
  (* the four rounding errors *)
  assert (Hu : pow2 (- 53) == 1 # 9007199254740992) by reflexivity.
  assert (Heta : pow2 (1 - 1023 - 53) <= 1 # 1267650600228229401496703205376).
  { apply Qle_trans with (pow2 (- 100)); [apply pow2_le; lia | apply Qle_lteq; right; reflexivity]. }
  pose proof (pow2_pos (1 - 1023 - 53)) as Heta0.
  set (eta := pow2 (1 - 1023 - 53)) in *.
  destruct (rd_near 53 1023 rd rounding s0 s) as [Es1 Es2]; [lra | exact Hs |].
  assert (HIs : 0 <= I * s) by (apply Qmult_le_0_compat; lra).
  assert (Hrs : 0 <= r * s) by (apply Qmult_le_0_compat; lra).
  destruct (rd_near 53 1023 rd rounding (I * s) p HIs Hp) as [Ep1 Ep2].
  destruct (rd_near 53 1023 rd rounding (r * s) q Hrs Hq) as [Eq1 Eq2].
  destruct (rd_near 53 1023 rd rounding (p + q) x) as [Ex1 Ex2]; [lra | exact Hx |].
  fold eta in Es1, Es2, Ep1, Ep2, Eq1, Eq2, Ex1, Ex2.
  rewrite Hu in Es1, Es2, Ep1, Ep2, Eq1, Eq2, Ex1, Ex2.
  (* products of the bounds on the step *)
  set (e := (1 # 9007199254740992) * s0 + eta) in *.
  assert (He0 : 0 <= e) by (subst e; lra).
  assert (A1 : I * s <= I * (s0 + e)) by (apply Qmult_le_left; lra).
  assert (A2 : I * (s0 - e) <= I * s) by (apply Qmult_le_left; lra).
  assert (B1 : r * s <= r * (s0 + e)) by (apply Qmult_le_left; lra).
  assert (B2 : r * (s0 - e) <= r * s) by (apply Qmult_le_left; lra).
  assert (C1 : (I + r) * e <= M * e) by (apply Qmult_le_compat_r; lra).
  assert (C2 : M * e == (1 # 9007199254740992) * N + M * eta)
    by (subst e; rewrite <- HsM; ring).
  assert (C3 : (I + r) * s0 <= M * s0) by (apply Qmult_le_compat_r; lra).
  assert (C4 : M * s0 == N) by (rewrite <- HsM; ring).
  assert (C5 : 0 <= (I + r) * s0) by (apply Qmult_le_0_compat; lra).
  assert (C6 : M * eta <= N * eta).
  { apply Qmult_le_compat_r; [|lra].
    subst M N. rewrite <- Zle_Qle. lia. }
  assert (C7 : N * eta <= 2147483648 * eta) by (apply Qmult_le_compat_r; lra).
  assert (D1 : I * (s0 + e) == I * s0 + I * e) by ring.
  assert (D2 : I * (s0 - e) == I * s0 - I * e) by ring.
  assert (D3 : r * (s0 + e) == r * s0 + r * e) by ring.
  assert (D4 : r * (s0 - e) == r * s0 - r * e) by ring.
  assert (D5 : (I + r) * e == I * e + r * e) by ring.
  assert (D6 : (I + r) * s0 == I * s0 + r * s0) by ring.
  assert (D7 : 0 <= I * e) by (apply Qmult_le_0_compat; lra).
  assert (D8 : 0 <= r * e) by (apply Qmult_le_0_compat; lra).
  split; lra.
Qed.

(** The three reads of an iteration. *)
Lemma aget_double (idx k : nat) :
  (idx < n)%nat -> (k < 3)%nat ->
  aget_num a (fmul rd (of_nat idx) (Fin 3)) = aget a (idx * 3) /\
  aget_num a (fadd rd (fmul rd (of_nat idx) (Fin 3)) (Fin (inject_Z (Z.of_nat k))))
  = aget a (idx * 3 + k).
Proof.
  intros Hidx Hk.
  assert (E3 : fmul rd (of_nat idx) (Fin 3) = of_nat (idx * 3)).
  { unfold of_nat. rewrite (fmul_Fin rd).
    rewrite (Qred_complete _ (inject_Z (Z.of_nat (idx * 3)))).
    - rewrite Qred_inject_Z. apply double_nat. lia.
    - rewrite Nat2Z.inj_mul, inject_Z_mult. reflexivity. }
  rewrite E3. split.
  - unfold aget_num, of_nat. rewrite as_index_int by lia.
    rewrite Nat2Z.id. reflexivity.
  - unfold of_nat at 1. rewrite (fadd_Fin rd).
    rewrite (Qred_complete _ (inject_Z (Z.of_nat (idx * 3 + k)))).
    + rewrite Qred_inject_Z, double_nat by lia.
      unfold aget_num, of_nat. rewrite as_index_int by lia.
      rewrite Nat2Z.id. reflexivity.
    + rewrite (Nat2Z.inj_add (idx * 3) k), inject_Z_plus. reflexivity.
Qed.

(** The source index of sample [i]. *)
Let sourceIndex (i : nat) : nat := Doubles.sourceIndex rd a maxCount rnd i.

Lemma sourceIndex_spec (i : nat) :
  (i < maxCount)%nat ->
  Doubles.sampleIndex rd (Doubles.totalVertices rd a) maxCount rnd i
    = of_nat (sourceIndex i) /\
  (sourceIndex i < n)%nat.
Proof.
  intros Hi. destruct (sampleIndex_double i Hi) as (idx & s & p & q & x & E & Hlt & _).
  assert (Hsrc : sourceIndex i = idx).
  { unfold sourceIndex, Doubles.sourceIndex. rewrite E. unfold of_nat.
    rewrite as_index_int by lia. rewrite Nat2Z.id. reflexivity. }
  rewrite Hsrc. split; assumption.
Qed.

Lemma sampleBody_double (i : nat) (sampled : f32) :
  (i < maxCount)%nat ->
  Doubles.sampleBody rd a (Doubles.totalVertices rd a) maxCount rnd i sampled
  = <[(i * 3 + 2)%nat := aget a (sourceIndex i * 3 + 2)]>
      (<[(i * 3 + 1)%nat := aget a (sourceIndex i * 3 + 1)]>
         (<[(i * 3)%nat := aget a (sourceIndex i * 3)]> sampled)).
Proof.
  intros Hi. destruct (sourceIndex_spec i Hi) as [E Hlt].
  unfold Doubles.sampleBody, aset. rewrite E.
  destruct (aget_double (sourceIndex i) 1 Hlt) as [-> E1]; [lia|].
  destruct (aget_double (sourceIndex i) 2 Hlt) as [_ E2]; [lia|].
  change (Fin (inject_Z (Z.of_nat 1))) with (Fin 1) in E1.
  change (Fin (inject_Z (Z.of_nat 2))) with (Fin 2) in E2.
  rewrite E1, E2. reflexivity.
Qed.

Lemma samplePositions_double_triples :
  Doubles.samplePositions rd a maxCount rnd =
  triples (fun i => aget a (sourceIndex i * 3))
          (fun i => aget a (sourceIndex i * 3 + 1))
          (fun i => aget a (sourceIndex i * 3 + 2)) maxCount.
Proof.
  unfold Doubles.samplePositions. rewrite sample_branch_double.
  rewrite <- (for_loop_triples _ _ _ maxCount (f32_new (maxCount * 3)))
    by apply length_replicate.
  apply for_loop_ext. intros i acc Hi. apply sampleBody_double, Hi.
Qed.

End DoubleSampling.

(** C10.  With more than [maxCount] points and offsets in [0,1), in
    double-precision arithmetic: the number under [Math.min] is a whole
    number [drawn >= 0], which can exceed [n - 1] when the sum rounds up;
    the index is [min drawn (n - 1)], a whole number between [0] and
    [n - 1]; so the three reads of the loop body find the elements
    [v0], [v1], [v2] of the input array at [3 idx], [3 idx + 1] and
    [3 idx + 2], none past its end, and these are the numbers the body
    stores and the result holds for sample [i]. *)
Theorem samplePositions_reads_in_bounds
    (a : f32) (n maxCount : nat) (rnd : nat -> Q) (i : nat) :
  length a = (n * 3)%nat ->
  (Z.of_nat (length a) < 2 ^ 53)%Z ->
  (maxCount < n)%nat ->
  (forall k, 0 <= rnd k /\ rnd k < 1) ->
  (i < maxCount)%nat ->
  let total := Doubles.totalVertices Ieee.double a in
  exists (idx : nat) (drawn : Z) (v0 v1 v2 : num),
    Doubles.drawnIndex Ieee.double total maxCount rnd i = Fin (inject_Z drawn) /\
    (0 <= drawn)%Z /\
    Doubles.sampleIndex Ieee.double total maxCount rnd i = of_nat idx /\
    Z.of_nat idx = Z.min drawn (Z.of_nat n - 1) /\
    (0 <= idx <= n - 1)%nat /\
    a !! (idx * 3)%nat = Some v0 /\
    a !! (idx * 3 + 1)%nat = Some v1 /\
    a !! (idx * 3 + 2)%nat = Some v2 /\
    (forall sampled,
       Doubles.sampleBody Ieee.double a total maxCount rnd i sampled
       = aset (aset (aset sampled (i * 3) v0) (i * 3 + 1) v1) (i * 3 + 2) v2) /\
    Doubles.samplePositions Ieee.double a maxCount rnd !! (i * 3)%nat = Some v0 /\
    Doubles.samplePositions Ieee.double a maxCount rnd !! (i * 3 + 1)%nat = Some v1 /\
    Doubles.samplePositions Ieee.double a maxCount rnd !! (i * 3 + 2)%nat = Some v2.
Proof.
  intros Hlen Hsmall Hmore Hrnd Hi total. subst total.
  destruct (sampleIndex_double Ieee.double double_rounding a n maxCount rnd
              Hlen Hsmall Hmore Hrnd i Hi)
    as (idx & s & p & q & x & Hidx & Hlt & Hdrawn & Hmin & _ & _ & _ & _ & _ & _ & _ & _ & Hx0).
  destruct (sourceIndex_spec Ieee.double double_rounding a n maxCount rnd
              Hlen Hsmall Hmore Hrnd i Hi) as [Hsrc _].
  cbv beta zeta in Hsrc. rewrite Hidx in Hsrc. injection Hsrc as Hsrc.
  apply Nat2Z.inj in Hsrc.
  destruct (lookup_lt_is_Some_2 a (idx * 3)) as [v0 H0]; [lia|].
  destruct (lookup_lt_is_Some_2 a (idx * 3 + 1)) as [v1 H1]; [lia|].
  destruct (lookup_lt_is_Some_2 a (idx * 3 + 2)) as [v2 H2]; [lia|].
  assert (G0 : aget a (idx * 3) = v0) by (unfold aget; rewrite H0; reflexivity).
  assert (G1 : aget a (idx * 3 + 1) = v1) by (unfold aget; rewrite H1; reflexivity).
  assert (G2 : aget a (idx * 3 + 2) = v2) by (unfold aget; rewrite H2; reflexivity).
  exists idx, (Qfloor x), v0, v1, v2.
  split; [exact Hdrawn|]. split; [apply Qfloor_nonneg, Hx0|].
  split; [exact Hidx|]. split; [exact Hmin|]. split; [lia|].
  split; [exact H0|]. split; [exact H1|]. split; [exact H2|].
  split.
  - intros sampled.
    pose proof (sampleBody_double Ieee.double double_rounding a n maxCount rnd
                  Hlen Hsmall Hmore Hrnd i sampled Hi) as Hbody.
    cbv beta zeta in Hbody. rewrite <- Hsrc, G0, G1, G2 in Hbody. exact Hbody.
  - pose proof (samplePositions_double_triples Ieee.double double_rounding a n maxCount rnd
                  Hlen Hsmall Hmore Hrnd) as Hout.
    cbv beta zeta in Hout. rewrite Hout.
    destruct (triples_lookup
                (fun i => aget a (Doubles.sourceIndex Ieee.double a maxCount rnd i * 3))
                (fun i => aget a (Doubles.sourceIndex Ieee.double a maxCount rnd i * 3 + 1))
                (fun i => aget a (Doubles.sourceIndex Ieee.double a maxCount rnd i * 3 + 2))
                maxCount i Hi) as (E0 & E1 & E2).
    rewrite E0, E1, E2, <- Hsrc, G0, G1, G2. repeat split; reflexivity.
Qed.

Lemma samplePositions_reads_in_bounds_witness :
  exists (idx : nat) (drawn : Z) (v0 v1 v2 : num),
    Doubles.drawnIndex Ieee.double (Doubles.totalVertices Ieee.double Doubles.tenPoints)
      5 Doubles.justBelowOne 4 = Fin (inject_Z drawn) /\
    (0 <= drawn)%Z /\
    Doubles.sampleIndex Ieee.double (Doubles.totalVertices Ieee.double Doubles.tenPoints)
      5 Doubles.justBelowOne 4 = of_nat idx /\
    Z.of_nat idx = Z.min drawn (Z.of_nat 10 - 1) /\
    (0 <= idx <= 10 - 1)%nat /\
    Doubles.tenPoints !! (idx * 3)%nat = Some v0 /\
    Doubles.tenPoints !! (idx * 3 + 1)%nat = Some v1 /\
    Doubles.tenPoints !! (idx * 3 + 2)%nat = Some v2 /\
    (forall sampled,
       Doubles.sampleBody Ieee.double Doubles.tenPoints
         (Doubles.totalVertices Ieee.double Doubles.tenPoints) 5 Doubles.justBelowOne 4 sampled
       = aset (aset (aset sampled (4 * 3) v0) (4 * 3 + 1) v1) (4 * 3 + 2) v2) /\
    Doubles.samplePositions Ieee.double Doubles.tenPoints 5 Doubles.justBelowOne
      !! (4 * 3)%nat = Some v0 /\
    Doubles.samplePositions Ieee.double Doubles.tenPoints 5 Doubles.justBelowOne
      !! (4 * 3 + 1)%nat = Some v1 /\
    Doubles.samplePositions Ieee.double Doubles.tenPoints 5 Doubles.justBelowOne
      !! (4 * 3 + 2)%nat = Some v2.
Proof.
  apply (samplePositions_reads_in_bounds Doubles.tenPoints 10 5 Doubles.justBelowOne 4).
  - reflexivity.
  - reflexivity.
  - lia.
  - intros k. vm_compute. split; [discriminate | reflexivity].
  - lia.
Defined.

(** The clamp does fire.  Ten points sampled down to five have the step
    2; with the offset [1 - 2 ^ -52] the last iteration adds 8 and
    1.9999999999999996, which rounds to 10: the number under [Math.min] is
    the index past the last point, where the array holds nothing, and the
    minimum with [n - 1] brings it back to 9. *)
Example samplePositions_clamp_fires :
  Doubles.totalVertices Ieee.double Doubles.tenPoints = of_nat 10 /\
  (0 <= Doubles.justBelowOne 4 /\ Doubles.justBelowOne 4 < 1) /\
  Doubles.drawnIndex Ieee.double (of_nat 10) 5 Doubles.justBelowOne 4 = of_nat 10 /\
  aget_num Doubles.tenPoints (fmul Ieee.double (of_nat 10) (Fin 3)) = NaN /\
  Doubles.sampleIndex Ieee.double (of_nat 10) 5 Doubles.justBelowOne 4 = of_nat 9 /\
  map (Doubles.sampleIndex Ieee.double (of_nat 10) 5 Doubles.justBelowOne) (seq 0 5)
    = map of_nat [1; 3; 6; 8; 9]%nat.
Proof.
  split; [reflexivity|].
  split; [split; vm_compute; [discriminate | reflexivity]|].
  split; [vm_compute; reflexivity|]. split; [vm_compute; reflexivity|].
  split; vm_compute; reflexivity.
Qed.

(** C1, as stated, fails.  Five points sampled down to two give the step
    2.5; with the offsets 0.875 and 0 both iterations compute index 2
    ([floor (0.875 * 2.5)] and [floor (2.5 + 0)], no operation rounds), so
    the same source point is returned twice, both samples fall in bucket 0
    and bucket 1 is never hit.  No assignment of indices to buckets tells
    the two samples apart. *)
Lemma samplePositions_buckets_counterexample :
  (length fivePoints = 5 * 3)%nat /\ (2 < 5)%nat /\
  (forall k, 0 <= lateThenEarly k /\ lateThenEarly k < 1) /\
  Doubles.sampleIndices Ieee.double fivePoints 2 lateThenEarly = [of_nat 2; of_nat 2] /\
  Doubles.samplePositions Ieee.double fivePoints 2 lateThenEarly
    = [Fin 30; Fin 31; Fin 32; Fin 30; Fin 31; Fin 32] /\
  ~ Doubles.covers_buckets Ieee.double fivePoints 2 lateThenEarly /\
  ~ (exists bucket : num -> num,
       Permutation (map bucket (Doubles.sampleIndices Ieee.double fivePoints 2 lateThenEarly))
                   (map of_nat (seq 0 2))).
Proof.
  assert (Hidx : Doubles.sampleIndices Ieee.double fivePoints 2 lateThenEarly
                 = [of_nat 2; of_nat 2]) by (vm_compute; reflexivity).
  split; [reflexivity|]. split; [lia|].
  split; [intros [|k]; simpl; split; lra|].
  split; [exact Hidx|]. split; [vm_compute; reflexivity|].
  assert (Hany : forall bucket : num -> num,
            ~ Permutation (map bucket (Doubles.sampleIndices Ieee.double fivePoints 2
                                         lateThenEarly))
                          (map of_nat (seq 0 2))).
  { intros bucket Hperm. rewrite Hidx in Hperm.
    apply Permutation_length_2 in Hperm.
    destruct Hperm as [[H0 H1]|[H0 H1]]; rewrite H0 in H1; discriminate H1. }
  split; [apply Hany|]. intros [bucket Hperm]. exact (Hany bucket Hperm).
Qed.

(** C1, amended.  With more than [maxCount] points, at most [2 ^ 32]
    numbers in the array and offsets in [0,1), [samplePositions] returns
    exactly [maxCount] points, in double-precision arithmetic.  Sample [i]
    is the input point of index [idx <= n - 1], and [idx] comes from the
    range of bucket [i] up to the rounding of the step, of the two products
    and of their sum: for [step = n / maxCount],
    [i * step - 1 - 2 ^ -18 < idx < (i + 1) * step + 2 ^ -18]. *)
Theorem samplePositions_stratified (a : f32) (n maxCount : nat) (rnd : nat -> Q) :
  length a = (n * 3)%nat ->
  (Z.of_nat (length a) <= 2 ^ 32)%Z ->
  (maxCount < n)%nat ->
  (forall k, 0 <= rnd k /\ rnd k < 1) ->
  let out := Doubles.samplePositions Ieee.double a maxCount rnd in
  let total := Doubles.totalVertices Ieee.double a in
  let stepQ := inject_Z (Z.of_nat n) / inject_Z (Z.of_nat maxCount) in
  length out = (maxCount * 3)%nat /\
  forall i, (i < maxCount)%nat ->
    exists idx : nat,
      Doubles.sampleIndex Ieee.double total maxCount rnd i = of_nat idx /\
      (idx <= n - 1)%nat /\
      inject_Z (Z.of_nat i) * stepQ - 1 - (1 # 262144) < inject_Z (Z.of_nat idx) /\
      inject_Z (Z.of_nat idx) < (inject_Z (Z.of_nat i) + 1) * stepQ + (1 # 262144) /\
      (exists v0 v1 v2 : num,
         a !! (idx * 3)%nat = Some v0 /\
         a !! (idx * 3 + 1)%nat = Some v1 /\
         a !! (idx * 3 + 2)%nat = Some v2 /\
         out !! (i * 3)%nat = Some v0 /\
         out !! (i * 3 + 1)%nat = Some v1 /\
         out !! (i * 3 + 2)%nat = Some v2).
Proof.
  intros Hlen Hsize Hmore Hrnd out total stepQ. subst out total stepQ.
  assert (Hsmall : (Z.of_nat (length a) < 2 ^ 53)%Z).
  { eapply Z.le_lt_trans; [exact Hsize | reflexivity]. }
  pose proof (samplePositions_double_triples Ieee.double double_rounding a n maxCount rnd
                Hlen Hsmall Hmore Hrnd) as Hout.
  cbv beta zeta in Hout. rewrite Hout.
  split; [apply triples_length|].
  intros i Hi. assert (Hpos : (0 < maxCount)%nat) by lia.
  destruct (sampleIndex_double Ieee.double double_rounding a n maxCount rnd
              Hlen Hsmall Hmore Hrnd i Hi)
    as (idx & s & p & q & x & Hidx & Hlt & Hdrawn & Hmin & Hs & Hp & Hq & Hx &
        Hs1 & Hsn & Hp0 & Hq0 & Hx0).
  destruct (drawn_near Ieee.double double_rounding a n maxCount rnd Hlen Hmore Hrnd
              i s p q x Hsize Hi Hs Hp Hq Hx Hs1 Hp0 Hq0) as [Lo Up].
  destruct (sourceIndex_spec Ieee.double double_rounding a n maxCount rnd
              Hlen Hsmall Hmore Hrnd i Hi) as [Hsrc _].
  cbv beta zeta in Hsrc. rewrite Hidx in Hsrc. injection Hsrc as Hsrc.
  apply Nat2Z.inj in Hsrc.
  exists idx. split; [exact Hidx|]. split; [lia|].
  destruct (Hrnd i) as [R0 R1].
  pose proof (step_gt_1 n maxCount Hpos Hmore) as Hst. cbv zeta in Hst.
  pose proof (step_times_count n maxCount Hpos) as HsM. cbv zeta in HsM.
  set (st := inject_Z (Z.of_nat n) / inject_Z (Z.of_nat maxCount)) in *.
  assert (HI0 : 0 <= inject_Z (Z.of_nat i))
    by (change 0 with (inject_Z 0); rewrite <- Zle_Qle; lia).
  assert (HIM : inject_Z (Z.of_nat i) + 1 <= inject_Z (Z.of_nat maxCount)).
  { change 1 with (inject_Z 1). rewrite <- inject_Z_plus, <- Zle_Qle. lia. }
  assert (Hrs : 0 <= rnd i * st) by (apply Qmult_le_0_compat; lra).
  assert (Hrs1 : rnd i * st <= 1 * st) by (apply Qmult_le_compat_r; lra).
  assert (Hrs2 : rnd i * st < st).
  { assert (H : 0 < (1 - rnd i) * st) by (apply Qmult_lt_0_compat; lra). lra. }
  assert (HIs : (inject_Z (Z.of_nat i) + 1) * st <= inject_Z (Z.of_nat maxCount) * st)
    by (apply Qmult_le_compat_r; lra).
  pose proof (Qfloor_le x) as Hfl. pose proof (Qlt_floor x) as Hfu.
  rewrite inject_Z_plus in Hfu. change (inject_Z 1) with 1 in Hfu.
  assert (Hidx' : inject_Z (Z.of_nat idx)
                  = inject_Z (Z.min (Qfloor x) (Z.of_nat n - 1))) by (rewrite Hmin; reflexivity).
  split; [|split].
  - rewrite Hidx'. destruct (Z.min_spec (Qfloor x) (Z.of_nat n - 1)) as [[_ ->]|[_ ->]].
    + lra.
    + unfold Z.sub. rewrite inject_Z_plus. change (inject_Z (- (1))) with (- (1)). lra.
  - rewrite Hidx'.
    assert (Hle : inject_Z (Z.min (Qfloor x) (Z.of_nat n - 1)) <= inject_Z (Qfloor x))
      by (rewrite <- Zle_Qle; lia).
    lra.
  - destruct (lookup_lt_is_Some_2 a (idx * 3)) as [v0 H0]; [lia|].
    destruct (lookup_lt_is_Some_2 a (idx * 3 + 1)) as [v1 H1]; [lia|].
    destruct (lookup_lt_is_Some_2 a (idx * 3 + 2)) as [v2 H2]; [lia|].
    exists v0, v1, v2.
    destruct (triples_lookup
                (fun i => aget a (Doubles.sourceIndex Ieee.double a maxCount rnd i * 3))
                (fun i => aget a (Doubles.sourceIndex Ieee.double a maxCount rnd i * 3 + 1))
                (fun i => aget a (Doubles.sourceIndex Ieee.double a maxCount rnd i * 3 + 2))
                maxCount i Hi) as (E0 & E1 & E2).
    rewrite E0, E1, E2, <- Hsrc. unfold aget. rewrite H0, H1, H2.
    repeat split; reflexivity.
Qed.

Lemma samplePositions_stratified_witness :
  length (Doubles.samplePositions Ieee.double Doubles.tenPoints 5 Doubles.justBelowOne)
    = (5 * 3)%nat /\
  forall i, (i < 5)%nat ->
    exists idx : nat,
      Doubles.sampleIndex Ieee.double (Doubles.totalVertices Ieee.double Doubles.tenPoints)
        5 Doubles.justBelowOne i = of_nat idx /\
      (idx <= 10 - 1)%nat /\
      inject_Z (Z.of_nat i) * (inject_Z (Z.of_nat 10) / inject_Z (Z.of_nat 5))
        - 1 - (1 # 262144) < inject_Z (Z.of_nat idx) /\
      inject_Z (Z.of_nat idx)
        < (inject_Z (Z.of_nat i) + 1) * (inject_Z (Z.of_nat 10) / inject_Z (Z.of_nat 5))
          + (1 # 262144) /\
      (exists v0 v1 v2 : num,
         Doubles.tenPoints !! (idx * 3)%nat = Some v0 /\
         Doubles.tenPoints !! (idx * 3 + 1)%nat = Some v1 /\
         Doubles.tenPoints !! (idx * 3 + 2)%nat = Some v2 /\
         Doubles.samplePositions Ieee.double Doubles.tenPoints 5 Doubles.justBelowOne
           !! (i * 3)%nat = Some v0 /\
         Doubles.samplePositions Ieee.double Doubles.tenPoints 5 Doubles.justBelowOne
           !! (i * 3 + 1)%nat = Some v1 /\
         Doubles.samplePositions Ieee.double Doubles.tenPoints 5 Doubles.justBelowOne
           !! (i * 3 + 2)%nat = Some v2).
Proof.
  apply (samplePositions_stratified Doubles.tenPoints 10 5 Doubles.justBelowOne).
  - reflexivity.
  - vm_compute. discriminate.
  - lia.
  - intros k. vm_compute. split; [discriminate | reflexivity].
Defined.

(** ** The two levels agree *)

(** With the identity as rounding function, the operations are the exact
    ones and [Doubles.samplePositions] is [samplePositions]. *)
Section ExactRounding.

Lemma rounded_exact_fin (q : Q) : rounded Fin (fin q) = fin q.
Proof. unfold rounded, fin. rewrite Qred_fixed. reflexivity. Qed.

Lemma inf_of_sign_special (q : Q) : rounded Fin (inf_of_sign q) = inf_of_sign q.
Proof. unfold inf_of_sign. destruct (q ?= 0); reflexivity. Qed.

Lemma fadd_exact (x y : num) : fadd Fin x y = add x y.
Proof.
  unfold fadd. destruct x, y; try reflexivity. apply rounded_exact_fin.
Qed.

Lemma fsub_exact (x y : num) : fsub Fin x y = sub x y.
Proof.
  unfold fsub, sub. destruct x, y; try reflexivity; apply rounded_exact_fin.
Qed.

Lemma fmul_exact (x y : num) : fmul Fin x y = mul x y.
Proof.
  unfold fmul. destruct x, y; try reflexivity;
    first [apply rounded_exact_fin | apply inf_of_sign_special].
Qed.

Lemma fdiv_exact (x y : num) : fdiv Fin x y = div x y.
Proof.
  unfold fdiv. destruct x as [p| | |], y as [q| | |]; try reflexivity.
  - unfold div. destruct (q ?= 0);
      first [apply rounded_exact_fin | apply inf_of_sign_special].
  - unfold div. destruct (q ?= 0); reflexivity.
  - unfold div. destruct (q ?= 0); reflexivity.
Qed.

Lemma div_fin_l (t : Q) (y : num) : div (fin t) y = div (Fin t) y.
Proof.
  destruct y as [q| | |]; try reflexivity.
  unfold div, fin. destruct (q ?= 0).
  - unfold inf_of_sign.
    assert (C : (Qred t ?= 0) = (t ?= 0)) by (rewrite (Qred_correct t); reflexivity).
    rewrite C. reflexivity.
  - apply fin_eq. rewrite (Qred_correct t). reflexivity.
  - apply fin_eq. rewrite (Qred_correct t). reflexivity.
Qed.

Lemma sub_fin_l (t y : Q) : sub (fin t) (Fin y) = sub (Fin t) (Fin y).
Proof.
  unfold fin at 1. rewrite !sub_Fin. apply fin_eq.
  rewrite (Qred_correct t). reflexivity.
Qed.

Lemma totalVertices_exact (a : f32) :
  Doubles.totalVertices Fin a = fin (totalVertices a).
Proof.
  unfold Doubles.totalVertices, totalVertices, of_nat.
  rewrite fdiv_exact. apply div_Fin_pos. reflexivity.
Qed.

Lemma sampleIndex_exact (t : Q) (maxCount : nat) (rnd : nat -> Q) (i : nat) :
  Doubles.sampleIndex Fin (fin t) maxCount rnd i = sampleIndex t maxCount rnd i.
Proof.
  unfold Doubles.sampleIndex, Doubles.drawnIndex, Doubles.step, sampleIndex, step.
  rewrite fsub_exact, fadd_exact, !fmul_exact, fdiv_exact, div_fin_l, sub_fin_l.
  reflexivity.
Qed.

Theorem samplePositions_exact (a : f32) (maxCount : nat) (rnd : nat -> Q) :
  Doubles.samplePositions Fin a maxCount rnd = samplePositions a maxCount rnd.
Proof.
  unfold Doubles.samplePositions, samplePositions.
  rewrite totalVertices_exact.
  assert (G : leb (fin (totalVertices a)) (of_nat maxCount)
              = Qle_bool (totalVertices a) (inject_Z (Z.of_nat maxCount))).
  { unfold leb, fin, of_nat.
    destruct (Qle_bool (totalVertices a) (inject_Z (Z.of_nat maxCount))) eqn:E.
    - apply Qle_bool_iff. rewrite Qred_correct. apply Qle_bool_iff, E.
    - apply not_true_is_false. intros H. apply Qle_bool_iff in H.
      rewrite Qred_correct in H. apply Qle_bool_iff in H. congruence. }
  rewrite G.
  destruct (Qle_bool (totalVertices a) (inject_Z (Z.of_nat maxCount))); [reflexivity|].
  apply for_loop_ext. intros i acc _.
  unfold Doubles.sampleBody, sampleBody.
  rewrite sampleIndex_exact, !fadd_exact, !fmul_exact. reflexivity.
Qed.

End ExactRounding.

(** ** [generateFallbackSphere] *)

Section FallbackSphere.

Import Fallback.
Local Open Scope R_scope.

Lemma unit_offset_real (q : Q) : (0 <= q)%Q -> (q < 1)%Q -> 0 <= Q2R q < 1.
Proof.
  intros H0 H1. apply Qreals.Qle_Rle in H0. apply Qreals.Qlt_Rlt in H1.
  rewrite RMicromega.Q2R_0 in H0. rewrite RMicromega.Q2R_1 in H1.
  split; assumption.
Qed.

(** The radius drawn for a point: within 0.15 of the base radius. *)
Lemma radius_range (rnd : nat -> Q) (i : nat) :
  (0 <= rnd i)%Q -> (rnd i < 1)%Q ->
  baseRadius - 0.15 <= radius rnd i < baseRadius + 0.15.
Proof.
  intros H0 H1. pose proof (unit_offset_real _ H0 H1).
  unfold radius, baseRadius. Lra.lra.
Qed.

(** A point in spherical coordinates lies at distance [r] of the origin. *)
Lemma spherical_norm (r p t : R) :
  0 <= r ->
  sqrt ((r * sin p * cos t) * (r * sin p * cos t)
        + (r * sin p * sin t) * (r * sin p * sin t)
        + (r * cos p) * (r * cos p)) = r.
Proof.
  intros Hr.
  pose proof (sin2_cos2 p) as Hp. pose proof (sin2_cos2 t) as Ht.
  unfold Rsqr in Hp, Ht.
  replace ((r * sin p * cos t) * (r * sin p * cos t)
           + (r * sin p * sin t) * (r * sin p * sin t)
           + (r * cos p) * (r * cos p))
    with (r * r * (sin p * sin p * (sin t * sin t + cos t * cos t) + cos p * cos p))
    by ring.
  rewrite Ht, Rmult_1_r, Hp, Rmult_1_r.
  apply sqrt_square. exact Hr.
Qed.

Lemma generateFallbackSphere_triples (count : nat) (rnd : nat -> Q) :
  generateFallbackSphere count rnd =
  triples (fun i => radius rnd i * sin (phi count i) * cos (theta i))
          (fun i => radius rnd i * sin (phi count i) * sin (theta i))
          (fun i => radius rnd i * cos (phi count i)) count.
Proof.
  unfold generateFallbackSphere.
  rewrite <- (for_loop_triples _ _ _ count (replicate (count * 3) 0))
    by apply length_replicate.
  reflexivity.
Qed.

(** The points of the fallback sphere. *)
Lemma fallbackSphere_points (count : nat) (rnd : nat -> Q) (i : nat) :
  (i < count)%nat ->
  let out := generateFallbackSphere count rnd in
  out !! (i * 3)%nat = Some (radius rnd i * sin (phi count i) * cos (theta i)) /\
  out !! (i * 3 + 1)%nat = Some (radius rnd i * sin (phi count i) * sin (theta i)) /\
  out !! (i * 3 + 2)%nat = Some (radius rnd i * cos (phi count i)) /\
  ((0 <= rnd i)%Q -> (rnd i < 1)%Q ->
   dist out i = radius rnd i /\
   baseRadius - 0.15 <= dist out i < baseRadius + 0.15).
Proof.
  intros Hi out. subst out. rewrite generateFallbackSphere_triples.
  destruct (triples_lookup
              (fun i => radius rnd i * sin (phi count i) * cos (theta i))
              (fun i => radius rnd i * sin (phi count i) * sin (theta i))
              (fun i => radius rnd i * cos (phi count i)) count i Hi)
    as (E0 & E1 & E2).
  split; [exact E0|]. split; [exact E1|]. split; [exact E2|].
  intros H0 H1. pose proof (radius_range rnd i H0 H1) as Hr.
  assert (Hd : dist (triples
              (fun i => radius rnd i * sin (phi count i) * cos (theta i))
              (fun i => radius rnd i * sin (phi count i) * sin (theta i))
              (fun i => radius rnd i * cos (phi count i)) count) i = radius rnd i).
  { unfold dist. rewrite E0, E1, E2. simpl.
    apply spherical_norm. unfold baseRadius in Hr. Lra.lra. }
  rewrite Hd. split; [reflexivity | exact Hr].
Qed.

(** C3.  [generateFallbackSphere count] returns exactly [count] points.
    Point [i] is placed at the angles
    [phi = acos (1 - 2 * (i + 0.5) / count)] and
    [theta = PI * (1 + sqrt 5) * i] of the Fibonacci sphere, at a radius
    drawn for it alone within 0.15 of the base radius 1.2; its distance
    from the origin is that radius, and lies between 0.85 and 1.15 times
    the base radius. *)
Theorem generateFallbackSphere_shell (count : nat) (rnd : nat -> Q) :
  (forall k, (0 <= rnd k)%Q /\ (rnd k < 1)%Q) ->
  let out := generateFallbackSphere count rnd in
  length out = (count * 3)%nat /\
  forall i, (i < count)%nat ->
    let p := acos (1 - (2 * (INR i + 0.5)) / INR count) in
    let t := PI * (1 + sqrt 5) * INR i in
    let r := 1.2 + (Q2R (rnd i) - 0.5) * 0.3 in
    out !! (i * 3)%nat = Some (r * sin p * cos t) /\
    out !! (i * 3 + 1)%nat = Some (r * sin p * sin t) /\
    out !! (i * 3 + 2)%nat = Some (r * cos p) /\
    baseRadius - 0.15 <= r < baseRadius + 0.15 /\
    dist out i = r /\
    0.85 * baseRadius <= dist out i <= 1.15 * baseRadius.
Proof.
  intros Hrnd out. subst out. rewrite generateFallbackSphere_triples.
  split; [apply triples_length|].
  intros i Hi p t r.
  destruct (triples_lookup
              (fun i => radius rnd i * sin (phi count i) * cos (theta i))
              (fun i => radius rnd i * sin (phi count i) * sin (theta i))
              (fun i => radius rnd i * cos (phi count i)) count i Hi)
    as (E0 & E1 & E2).
  destruct (Hrnd i) as [H0 H1].
  pose proof (radius_range rnd i H0 H1) as Hr.
  assert (Hd : dist (triples
              (fun i => radius rnd i * sin (phi count i) * cos (theta i))
              (fun i => radius rnd i * sin (phi count i) * sin (theta i))
              (fun i => radius rnd i * cos (phi count i)) count) i = r).
  { unfold dist. rewrite E0, E1, E2. simpl.
    apply spherical_norm. subst r. unfold radius, baseRadius in Hr. Lra.lra. }
  split; [exact E0|]. split; [exact E1|]. split; [exact E2|].
  split; [exact Hr|]. split; [exact Hd|].
  rewrite Hd. subst r. unfold radius, baseRadius in *. Lra.lra.
Qed.

Lemma generateFallbackSphere_shell_witness :
  length (generateFallbackSphere 3 lateThenEarly) = (3 * 3)%nat.
Proof.
  apply (generateFallbackSphere_shell 3 lateThenEarly).
  intros [|k]; simpl; split; Lqa.lra.
Defined.

End FallbackSphere.

(** ** Material classification *)

Section Classification.

Import DiskMaterial.







End Classification.

(** ** The [useModelPositions] hook *)

Section HookProperties.

Import Extract Hook.

Lemma generateFallbackSphere_length (count : nat) (rnd : nat -> Q) :
  length (Fallback.generateFallbackSphere count rnd) = (count * 3)%nat.
Proof.
  rewrite generateFallbackSphere_triples. apply triples_length.
Qed.

Example extension_upper_case : extension "Head.OBJ" = Some "obj"%string.
Proof. reflexivity. Qed.

Example extension_last_piece : extension "scan.v2.ply" = Some "ply"%string.
Proof. reflexivity. Qed.

Example extension_without_dot : extension "head" = Some "head"%string.
Proof. reflexivity. Qed.

Example unsupported_xyz (rnd : nat -> Q) (outcome : LoadOutcome) :
  useModelPositionsEffect (Some "head.xyz"%string) 4 rnd outcome =
  [Warn [Text "Unsupported format: .xyz, using fallback sphere"];
   SetPositions (FallbackSphere (Fallback.generateFallbackSphere 4 rnd))].
Proof. reflexivity. Qed.

Lemma onLoad_sets (particleCount : nat) (rnd : nat -> Q) (result : Asset) :
  exists p, positionsAfter (onLoad particleCount rnd result) = Some p.
Proof.
  unfold onLoad. destruct (extractPositions result) as [raw|].
  - destruct (0 <? length raw)%nat; eexists; reflexivity.
  - eexists; reflexivity.
Qed.


(** The three failures take the same way out: a warning, then the
    positions are set to the fallback sphere of [particleCount] points,
    whose points are those of the Fibonacci sphere.
    (a) The extension of a non-empty path names no loader: nothing is
    loaded.  (b) The dispatched load fails.  (c) The load completes and no
    position is extracted (none at all, or an empty array).  Whenever a
    warning is logged the positions end as the fallback sphere. *)
Lemma useModelPositions_failures_recover (particleCount : nat) (rnd : nat -> Q)
    (outcome : LoadOutcome) (modelPath : option string) :
  let sphere := Fallback.generateFallbackSphere particleCount rnd in
  let fallback := FallbackSphere sphere in
  let events := useModelPositionsEffect modelPath particleCount rnd outcome in
  (forall path,
     modelPath = Some path -> path <> EmptyString ->
     loaderOf (extension path) = None ->
     events = [Warn (unsupportedMessage (extension path)); SetPositions fallback]) /\
  (forall path loader,
     modelPath = Some path -> path <> EmptyString ->
     loaderOf (extension path) = Some loader ->
     outcome = LoadFailed ->
     events = [Load loader ("/models/" ++ path)%string;
               Warn loadFailedMessage; SetPositions fallback]) /\
  (forall path loader result,
     modelPath = Some path -> path <> EmptyString ->
     loaderOf (extension path) = Some loader ->
     outcome = Loaded result ->
     extractPositions result = None \/ extractPositions result = Some [] ->
     events = [Load loader ("/models/" ++ path)%string;
               Warn noVertexMessage; SetPositions fallback]) /\
  (existsb isWarn events = true ->
     rendererState (positionsAfter events) = Ready fallback) /\
  pointCount fallback == inject_Z (Z.of_nat particleCount) /\
  (forall i, (i < particleCount)%nat ->
     sphere !! (i * 3)%nat
       = Some (Fallback.radius rnd i * sin (Fallback.phi particleCount i)
               * cos (Fallback.theta i))%R /\
     sphere !! (i * 3 + 1)%nat
       = Some (Fallback.radius rnd i * sin (Fallback.phi particleCount i)
               * sin (Fallback.theta i))%R /\
     sphere !! (i * 3 + 2)%nat
       = Some (Fallback.radius rnd i * cos (Fallback.phi particleCount i))%R).
Proof.
  intros sphere fallback events. subst events.
  split; [|split; [|split; [|split; [|split]]]].
  - intros path -> Hne Hext. unfold useModelPositionsEffect.
    destruct path; [congruence|]. rewrite Hext. reflexivity.
  - intros path loader -> Hne Hext ->. unfold useModelPositionsEffect.
    destruct path; [congruence|]. rewrite Hext. reflexivity.
  - intros path loader result -> Hne Hext -> Hraw. unfold useModelPositionsEffect.
    destruct path; [congruence|]. rewrite Hext. unfold onLoad.
    destruct Hraw as [->| ->]; reflexivity.
  - unfold useModelPositionsEffect.
    destruct modelPath as [[|c path]|]; try (simpl; discriminate).
    destruct (loaderOf (extension (String c path))); [|reflexivity].
    destruct outcome as [|result]; [reflexivity|].
    unfold onLoad. destruct (extractPositions result) as [raw|]; [|reflexivity].
    destruct (0 <? length raw)%nat; [simpl; discriminate | reflexivity].
  - unfold pointCount, fallback, sphere. rewrite generateFallbackSphere_length.
    rewrite Nat2Z.inj_mul, inject_Z_mult. change (inject_Z (Z.of_nat 3)) with 3. field.
  - intros i Hi.
    destruct (fallbackSphere_points particleCount rnd i Hi) as (E0 & E1 & E2 & _).
    auto.
Qed.

(** C6.  Not every path leaves the renderer with a usable point set.  A
    supported file whose model has a single vertex loads without an
    error and yields positions, so none of the three failure paths is
    taken and nothing is logged; [samplePositions] returns the point as it
    is, [normalizePositions] divides by the zero extent of its bounding
    box, and the positions are set to an array of [NaN]. *)
Theorem useModelPositions_degenerate_model (particleCount : nat) (rnd : nat -> Q) :
  (1 <= particleCount)%nat ->
  let events :=
    useModelPositionsEffect (Some "head.ply"%string) particleCount rnd
      (Loaded (AGeometry (mkGeometry (Some singlePoint)))) in
  events = [Load PLYLoader "/models/head.ply"; SetPositions (FromModel [NaN; NaN; NaN])] /\
  existsb isWarn events = false /\
  rendererState (positionsAfter events) = Ready (FromModel [NaN; NaN; NaN]).
Proof.
  intros Hpc events.
  assert (Hs : samplePositions singlePoint particleCount rnd = singlePoint).
  { unfold samplePositions.
    assert (E : Qle_bool (totalVertices singlePoint) (inject_Z (Z.of_nat particleCount))
                = true) by (apply sample_guard_iff; simpl; lia).
    rewrite E. reflexivity. }
  assert (He : events = [Load PLYLoader "/models/head.ply";
                         SetPositions (FromModel [NaN; NaN; NaN])]).
  { subst events. unfold useModelPositionsEffect.
    change (loaderOf (extension "head.ply")) with (Some PLYLoader). cbv iota.
    unfold onLoad. cbn [extractPositions position].
    change (0 <? length singlePoint)%nat with true. cbv iota. rewrite Hs.
    reflexivity. }
  rewrite He. repeat split.
Qed.

Lemma useModelPositions_degenerate_model_witness :
  useModelPositionsEffect (Some "head.ply"%string) 1000 lateThenEarly
    (Loaded (AGeometry (mkGeometry (Some singlePoint))))
  = [Load PLYLoader "/models/head.ply"; SetPositions (FromModel [NaN; NaN; NaN])].
Proof.
  apply (useModelPositions_degenerate_model 1000 lateThenEarly). lia.
Defined.

End HookProperties.

(** ** Rotation per frame *)

Section Rotation.

Import Frame.

Lemma runHead_rotation (rd : Q -> num) (rotationSpeed : num) (clock : list Q)
    (uT : option Q) (y0 : num) :
  pointsRotationY (runHead rd rotationSpeed clock (mkHeadRefs uT (Some y0)))
  = Some (Nat.iter (length clock) (advance rd rotationSpeed) y0).
Proof.
  revert uT y0. induction clock as [|t clock IH]; intros uT y0; [reflexivity|].
  unfold runHead. cbn [fold_left]. unfold particleHeadFrame at 2.
  cbn [uTime pointsRotationY].
  etransitivity; [apply IH|].
  cbn [length]. rewrite Nat.iter_succ_r. reflexivity.
Qed.

Lemma runDisk_rotation (rd : Q -> num) (rotationSpeed : num) (clock : list Q) (y0 : num) :
  runDisk rd rotationSpeed clock (Some y0)
  = Some (Nat.iter (length clock) (advance rd rotationSpeed) y0).
Proof.
  revert y0. induction clock as [|t clock IH]; intros y0; [reflexivity|].
  unfold runDisk. cbn [fold_left diskFrameFrame].
  etransitivity; [apply IH|].
  cbn [length]. rewrite Nat.iter_succ_r. reflexivity.
Qed.

(** Without rounding the increments add up to [k * rotationSpeed * 0.005]. *)
Lemma advance_exact (s q0 : Q) (k : nat) :
  exists y,
    Nat.iter k (advance Fin (Fin s)) (Fin q0) = Fin y /\
    y == q0 + inject_Z (Z.of_nat k) * (s * 0.005).
Proof.
  induction k as [|k (y & Hy & Ey)].
  - exists q0. split; [reflexivity|]. simpl. ring.
  - rewrite Nat.iter_succ, Hy. unfold advance, frameTick.
    rewrite fadd_exact, fmul_exact.
    eexists. split; [reflexivity|].
    rewrite !Qred_correct, Ey, Nat2Z.inj_succ, <- Z.add_1_r, inject_Z_plus.
    change (inject_Z 1) with 1. ring.
Qed.

(** C8, as stated, fails.  The numbers are doubles and every addition
    rounds.  [DiskFrame] at its default speed 0.15, started at rotation 0:
    after three frames the rotation is 0.0022500000000000003, which is not
    [3 * 0.15 * 0.005] — neither as the language evaluates that product
    (0.00225), nor as real numbers; after seven frames it is
    0.0052499999999999995, and the product is 0.00525 in whatever order it
    is evaluated. *)
Lemma frame_rotation_closed_form_counterexample :
  let speed := diskSpeed Ieee.double in
  let tick := frameTick Ieee.double in
  let three := runDisk Ieee.double speed [0; 0.016; 0.033] (Some (Fin 0)) in
  let seven := runDisk Ieee.double speed [0; 0.016; 0.033; 0.05; 0.066; 0.083; 0.1]
                 (Some (Fin 0)) in
  three = Some (Ieee.double (Qred 0.0022500000000000003)) /\
  closedForm Ieee.double speed (Fin 0) 3 = Ieee.double (Qred 0.00225) /\
  three <> Some (closedForm Ieee.double speed (Fin 0) 3) /\
  (forall y, three = Some (Fin y) ->
     ~ y == 0 + 3 * (qval speed * qval tick) /\ ~ y == 0 + 3 * (0.15 * 0.005)) /\
  seven = Some (Ieee.double (Qred 0.0052499999999999995)) /\
  closedForm Ieee.double speed (Fin 0) 7 = Ieee.double (Qred 0.00525) /\
  fadd Ieee.double (Fin 0) (fmul Ieee.double (Fin 7) (fmul Ieee.double speed tick))
    = Ieee.double (Qred 0.00525) /\
  seven <> Some (Ieee.double (Qred 0.00525)) /\
  (forall y, seven = Some (Fin y) ->
     ~ y == 0 + 7 * (qval speed * qval tick) /\ ~ y == 0 + 7 * (0.15 * 0.005)).
Proof.
  cbv zeta.
  assert (H3 : runDisk Ieee.double (diskSpeed Ieee.double) [0; 0.016; 0.033] (Some (Fin 0))
               = Some (Fin (1297036692682703 # 576460752303423488)))
    by (vm_compute; reflexivity).
  assert (H7 : runDisk Ieee.double (diskSpeed Ieee.double)
                 [0; 0.016; 0.033; 0.05; 0.066; 0.083; 0.1] (Some (Fin 0))
               = Some (Fin (3026418949592973 # 576460752303423488)))
    by (vm_compute; reflexivity).
  rewrite H3, H7.
  split; [vm_compute; reflexivity|]. split; [vm_compute; reflexivity|].
  split; [vm_compute; discriminate|].
  split.
  { intros y [= <-]. split; vm_compute; discriminate. }
  split; [vm_compute; reflexivity|]. split; [vm_compute; reflexivity|].
  split; [vm_compute; reflexivity|]. split; [vm_compute; discriminate|].
  intros y [= <-]. split; vm_compute; discriminate.
Qed.

(** C8, amended.  For the head particle cloud and for the disk frame
    group alike, each frame replaces the rotation [y] about the Y axis of
    the mounted node by the rounded sum of [y] and the rounded product
    [rotationSpeed * 0.005], whatever the clock reads; after [k] frames
    the rotation is the result of these [k] rounded additions, the same
    for every run of [k] frames.  In double precision the product and the
    sum each err by at most [2 ^ -53] of their exact value (plus
    [2 ^ -1075]).  Without rounding (the identity [Fin] as rounding
    function) the rotation after [k] frames is the initial rotation plus
    [k * rotationSpeed * 0.005]. *)
Theorem frame_rotation_accumulates (rd : Q -> num) (rotationSpeed y0 : num)
    (uT : option Q) (clock : list Q) :
  let increment := fmul rd rotationSpeed (frameTick rd) in
  let k := length clock in
  (forall elapsed,
     pointsRotationY (particleHeadFrame rd rotationSpeed elapsed (mkHeadRefs uT (Some y0)))
     = Some (fadd rd y0 increment)) /\
  diskFrameFrame rd rotationSpeed (Some y0) = Some (fadd rd y0 increment) /\
  pointsRotationY (runHead rd rotationSpeed clock (mkHeadRefs uT (Some y0)))
    = Some (Nat.iter k (fun y => fadd rd y increment) y0) /\
  runDisk rd rotationSpeed clock (Some y0)
    = Some (Nat.iter k (fun y => fadd rd y increment) y0) /\
  (forall clock' : list Q, length clock' = k ->
     pointsRotationY (runHead rd rotationSpeed clock' (mkHeadRefs uT (Some y0)))
       = pointsRotationY (runHead rd rotationSpeed clock (mkHeadRefs uT (Some y0))) /\
     runDisk rd rotationSpeed clock' (Some y0) = runDisk rd rotationSpeed clock (Some y0)) /\
  (Ieee.Rounding 53 1023 rd ->
   forall s t inc y y' : Q,
     rotationSpeed = Fin s -> frameTick rd = Fin t -> increment = Fin inc ->
     y0 = Fin y -> fadd rd y0 increment = Fin y' ->
     Qabs (inc - s * t) <= Ieee.pow2 (- 53) * Qabs (s * t) + Ieee.pow2 (- 1075) /\
     Qabs (y' - (y + inc)) <= Ieee.pow2 (- 53) * Qabs (y + inc) + Ieee.pow2 (- 1075)) /\
  (forall s q0 : Q,
   exists y,
     runDisk Fin (Fin s) clock (Some (Fin q0)) = Some (Fin y) /\
     pointsRotationY (runHead Fin (Fin s) clock (mkHeadRefs uT (Some (Fin q0))))
       = Some (Fin y) /\
     y == q0 + inject_Z (Z.of_nat k) * (s * 0.005)).
Proof.
  intros increment k. subst increment k.
  split; [reflexivity|]. split; [reflexivity|].
  split; [apply runHead_rotation|]. split; [apply runDisk_rotation|].
  split.
  { intros clock' Hlen. rewrite !runHead_rotation, !runDisk_rotation, Hlen.
    split; reflexivity. }
  split.
  - intros Hrd s t inc y y' -> Ht Hinc -> Hy'.
    rewrite Ht, fmul_Fin in Hinc. rewrite Ht, fmul_Fin, Hinc, fadd_Fin in Hy'.
    split.
    + exact (Ieee.rd_err _ _ _ Hrd _ _ Hinc).
    + exact (Ieee.rd_err _ _ _ Hrd _ _ Hy').
  - intros s q0.
    destruct (advance_exact s q0 (length clock)) as (y & Hy & Ey).
    exists y. rewrite runDisk_rotation, runHead_rotation, Hy.
    split; [reflexivity|]. split; [reflexivity | exact Ey].
Qed.

End Rotation.

(** * Further properties of the code *)

(** ** Lengths *)

Lemma for_loop_length {A : Type} (n : nat) (body : nat -> list A -> list A) (a0 : list A) :
  (forall i acc, length (body i acc) = length acc) ->
  length (for_loop n body a0) = length a0.
Proof.
  intros Hbody. induction n as [|n IH]; [reflexivity|].
  rewrite for_loop_S, Hbody. exact IH.
Qed.

Lemma sample_length (a : f32) (maxCount : nat) (rnd : nat -> Q) :
  length (samplePositions a maxCount rnd) = Nat.min (length a) (maxCount * 3).
Proof.
  unfold samplePositions.
  destruct (Qle_bool (totalVertices a) (inject_Z (Z.of_nat maxCount))) eqn:E.
  - apply sample_guard_iff in E. lia.
  - assert (H : ~ (length a <= maxCount * 3)%nat).
    { intros H. apply sample_guard_iff in H. congruence. }
    rewrite for_loop_length.
    + unfold f32_new. rewrite length_replicate. lia.
    + intros i acc. unfold sampleBody, aset. rewrite !length_insert. reflexivity.
Qed.

Lemma normalize_length (a : f32) (targetRadius : Q) :
  length (normalizePositions a targetRadius) = length a.
Proof.
  unfold normalizePositions. rewrite for_loop_length.
  - apply length_replicate.
  - intros i acc. unfold normalizeBody, aset. rewrite !length_insert. reflexivity.
Qed.

(** X1.  For every array, every [maxCount] and every random source, the
    array [samplePositions] returns has the length of the input or
    [3 * maxCount], whichever is smaller: never more than [maxCount]
    points, never more than the input holds. *)
Theorem samplePositions_length (a : f32) (maxCount : nat) (rnd : nat -> Q) :
  length (samplePositions a maxCount rnd) = Nat.min (length a) (maxCount * 3) /\
  (length (samplePositions a maxCount rnd) <= maxCount * 3)%nat /\
  (length (samplePositions a maxCount rnd) <= length a)%nat.
Proof.
  rewrite sample_length. lia.
Qed.

(** X2.  [normalizePositions] returns an array of the length of its input,
    for every input: well formed or not, finite or not, empty or not; of
    the empty array it returns the empty array. *)
Theorem normalizePositions_length (a : f32) (targetRadius : Q) :
  length (normalizePositions a targetRadius) = length a /\
  normalizePositions [] targetRadius = [].
Proof.
  split; [apply normalize_length | reflexivity].
Qed.

Lemma triples_const {A : Type} (c : A) (n : nat) :
  triples (fun _ => c) (fun _ => c) (fun _ => c) n = replicate (n * 3) c.
Proof.
  induction n as [|n IH]; [reflexivity|].
  rewrite triples_S, IH.
  replace (S n * 3)%nat with (n * 3 + 3)%nat by lia.
  rewrite replicate_add. reflexivity.
Qed.

Lemma zero_times_scale (q : Q) (s : num) :
  q == 0 -> (s = PInf \/ s = NInf \/ s = NaN) -> mul (fin q) s = NaN.
Proof.
  intros Hq Hs. rewrite (fin_int q 0 Hq).
  destruct Hs as [->|[->| ->]]; reflexivity.
Qed.

Lemma scale_of_zero_extent (x : Q) :
  div (Fin x) (Fin 0) = PInf \/ div (Fin x) (Fin 0) = NInf \/ div (Fin x) (Fin 0) = NaN.
Proof.
  unfold div. change (0 ?= 0) with Eq. cbv iota. unfold inf_of_sign.
  destruct (x ?= 0); auto.
Qed.

Lemma coincide_with_centre (x mn mx : Q) :
  mn <= x -> x <= mx -> mx - mn <= 0 -> x - Qred ((mn + mx) / 2) == 0.
Proof.
  intros Hlo Hhi Hspan. rewrite Qred_correct.
  assert (E : (mn + mx) / 2 == (1 # 2) * (mn + mx)) by field.
  rewrite E. lra.
Qed.

(** X3.  Points that all coincide have a bounding box without extent;
    [normalizePositions] then divides by zero, and every coordinate of its
    result is [NaN], whatever the target radius. *)
Theorem normalizePositions_zero_extent (a : f32) (n : nat) (targetRadius : Q) :
  length a = (n * 3)%nat ->
  (0 < n)%nat ->
  Forall is_fin a ->
  maxExtent (boundingBox a) = Fin 0 ->
  normalizePositions a targetRadius = replicate (length a) NaN.
Proof.
  intros Hlen Hn Hfin Hext.
  destruct (boundingBox_spec a n Hlen Hfin Hn)
    as (mnx & mny & mnz & mxx & mxy & mxz & Hb & Hmnx & Hmny & Hmnz & Hmxx & Hmxy & Hmxz).
  assert (Hspans : mxx - mnx <= 0 /\ mxy - mny <= 0 /\ mxz - mnz <= 0).
  { pose proof Hext as He. unfold maxExtent in He. rewrite Hb in He.
    cbn [minX minY minZ maxX maxY maxZ] in He.
    rewrite !sub_Fin in He. unfold fin in He.
    destruct (max3_Fin (Qred (mxx - mnx)) (Qred (mxy - mny)) (Qred (mxz - mnz)))
      as (m & Hm & _ & Hx & Hy & Hz).
    rewrite Hm in He. injection He as ->.
    rewrite Qred_correct in Hx, Hy, Hz. auto. }
  destruct Hspans as (Sx & Sy & Sz).
  assert (Hsc : scale targetRadius (boundingBox a) = PInf \/
                scale targetRadius (boundingBox a) = NInf \/
                scale targetRadius (boundingBox a) = NaN).
  { unfold scale. rewrite Hext, mul_Fin. apply scale_of_zero_extent. }
  pose proof (normalizePositions_triples a n Hlen Hfin targetRadius) as Hout.
  cbv zeta in Hout. rewrite Hout, Hlen, <- triples_const.
  apply triples_ext. intros i Hi.
  unfold centerX, centerY, centerZ. rewrite Hb. rewrite Hb in Hsc.
  cbn [minX minY minZ maxX maxY maxZ]. rewrite !half_sum_Fin.
  unfold fin at 1 2 3. rewrite !sub_Fin.
  destruct Hmnx as [Lx _], Hmny as [Ly _], Hmnz as [Lz _].
  destruct Hmxx as [Ux _], Hmxy as [Uy _], Hmxz as [Uz _].
  specialize (Lx i Hi). specialize (Ly i Hi). specialize (Lz i Hi).
  specialize (Ux i Hi). specialize (Uy i Hi). specialize (Uz i Hi).
  repeat split; apply zero_times_scale; try exact Hsc;
    apply coincide_with_centre; assumption.
Qed.

Lemma normalizePositions_zero_extent_witness :
  normalizePositions singlePoint defaultTargetRadius
  = replicate (length singlePoint) NaN.
Proof.
  apply (normalizePositions_zero_extent singlePoint 1 defaultTargetRadius).
  - reflexivity.
  - lia.
  - repeat constructor.
  - reflexivity.
Defined.

Lemma triples_elem {A : Type} (h0 h1 h2 : nat -> A) (n : nat) (v : A) :
  In v (triples h0 h1 h2 n) ->
  exists i, (i < n)%nat /\ (v = h0 i \/ v = h1 i \/ v = h2 i).
Proof.
  unfold triples. rewrite in_flat_map. intros (i & Hi & Hv).
  apply in_seq in Hi. exists i. split; [lia|].
  simpl in Hv. destruct Hv as [<-|[<-|[<-|[]]]]; auto.
Qed.

Lemma aget_in (a : f32) (j : nat) : (j < length a)%nat -> In (aget a j) a.
Proof.
  intros Hj. unfold aget.
  destruct (lookup_lt_is_Some_2 a j Hj) as [v Hv]. rewrite Hv. simpl.
  apply list_elem_of_In, list_elem_of_lookup. eauto.
Qed.

(** X5.  On a well-formed array and with offsets in [0,1),
    [samplePositions] only copies: every number of its result is a number
    of the input, whatever [maxCount] is.  In particular it returns finite
    numbers when given finite numbers. *)
Theorem samplePositions_copies (a : f32) (n maxCount : nat) (rnd : nat -> Q) :
  length a = (n * 3)%nat ->
  (forall k, 0 <= rnd k /\ rnd k < 1) ->
  (forall v, In v (samplePositions a maxCount rnd) -> In v a) /\
  (Forall is_fin a -> Forall is_fin (samplePositions a maxCount rnd)).
Proof.
  intros Hlen Hrnd.
  assert (Hcopy : forall v, In v (samplePositions a maxCount rnd) -> In v a).
  { destruct (le_lt_dec n maxCount) as [Hle|Hlt].
    - unfold samplePositions.
      assert (E : Qle_bool (totalVertices a) (inject_Z (Z.of_nat maxCount)) = true)
        by (apply sample_guard_iff; lia).
      rewrite E. auto.
    - rewrite (samplePositions_triples a n maxCount rnd Hlen Hlt Hrnd).
      intros v Hv. apply triples_elem in Hv. destruct Hv as (i & Hi & Hv).
      destruct Hv as [->|[->| ->]]; apply aget_in; lia. }
  split; [exact Hcopy|].
  intros Hfin. apply Forall_forall. intros v Hv.
  apply list_elem_of_In, Hcopy in Hv.
  rewrite Forall_forall in Hfin. apply Hfin, list_elem_of_In, Hv.
Qed.

Lemma samplePositions_copies_witness :
  (forall v, In v (samplePositions fivePoints 2 lateThenEarly) -> In v fivePoints) /\
  (Forall is_fin fivePoints -> Forall is_fin (samplePositions fivePoints 2 lateThenEarly)).
Proof.
  apply (samplePositions_copies fivePoints 5 2 lateThenEarly).
  - reflexivity.
  - intros [|k]; simpl; split; lra.
Defined.

(** ** [extractPositions] *)

Section Extraction.

Import Extract.

Lemma Object3D_forall_ind (P : Object3D -> Prop) :
  (forall mesh children, Forall P children -> P (Object mesh children)) ->
  forall o, P o.
Proof.
  intros Hstep. fix IH 1. intros [mesh children]. apply Hstep.
  induction children as [|c children IHc]; constructor.
  - apply IH.
  - exact IHc.
Qed.

Lemma pushed_triples_length (f : nat -> Vector3) (l : list nat) :
  length (flat_map (fun i => let '(x, y, z) := f i in [x; y; z]) l)
  = (length l * 3)%nat.
Proof.
  induction l as [|i l IH]; [reflexivity|].
  cbn [flat_map]. rewrite length_app, IH.
  destruct (f i) as [[x y] z]. simpl. lia.
Qed.

Lemma meshPositions_multiple (m : Mesh) :
  exists k, length (meshPositions m) = (k * 3)%nat.
Proof.
  unfold meshPositions. destruct (geometry m) as [g|]; [|exists 0%nat; reflexivity].
  destruct (position g) as [posAttr|]; [|exists 0%nat; reflexivity].
  eexists. apply (pushed_triples_length
    (fun i => matrixWorld m (aget posAttr (i * 3), aget posAttr (i * 3 + 1),
                             aget posAttr (i * 3 + 2)))).
Qed.

Lemma traverse_multiple (o : Object3D) :
  exists k, length (traverse o) = (k * 3)%nat.
Proof.
  induction o as [mesh children IH] using Object3D_forall_ind.
  cbn [traverse]. rewrite length_app.
  assert (Hm : exists k, length (match mesh with Some m => meshPositions m | None => [] end)
                         = (k * 3)%nat).
  { destruct mesh as [m|]; [apply meshPositions_multiple | exists 0%nat; reflexivity]. }
  destruct Hm as [k0 ->].
  assert (Hc : exists k, length (flat_map traverse children) = (k * 3)%nat).
  { induction IH as [|c children [kc Hkc] _ [kr Hkr]]; [exists 0%nat; reflexivity|].
    exists (kc + kr)%nat. cbn [flat_map]. rewrite length_app, Hkc, Hkr. lia. }
  destruct Hc as [k1 ->]. exists (k0 + k1)%nat. lia.
Qed.

(** X6.  From a scene graph [extractPositions] returns either nothing or
    a non-empty array of whole points (its length is three times a
    positive number): never an empty array, never part of a point. *)
Theorem extractPositions_scene_whole_points (o : Object3D) :
  extractPositions (AScene o) = None \/
  exists raw k,
    extractPositions (AScene o) = Some raw /\
    length raw = (k * 3)%nat /\ (0 < k)%nat /\
    totalVertices raw == inject_Z (Z.of_nat k).
Proof.
  unfold extractPositions.
  destruct (0 <? length (traverse o))%nat eqn:E; [right | left; reflexivity].
  apply Nat.ltb_lt in E. destruct (traverse_multiple o) as [k Hk].
  exists (traverse o), k. split; [reflexivity|]. split; [exact Hk|].
  split; [lia|]. apply totalVertices_int, Hk.
Qed.

Lemma triples_of_array {A : Type} (d : A) (n : nat) (a : list A) :
  length a = (n * 3)%nat ->
  triples (fun i => default d (a !! (i * 3)%nat))
          (fun i => default d (a !! (i * 3 + 1)%nat))
          (fun i => default d (a !! (i * 3 + 2)%nat)) n = a.
Proof.
  revert a. induction n as [|n IH]; intros a Hlen.
  - destruct a; [reflexivity | discriminate].
  - rewrite triples_S.
    assert (Ht : length (take (n * 3) a) = (n * 3)%nat) by (rewrite length_take; lia).
    assert (Hd : length (drop (n * 3) a) = 3%nat) by (rewrite length_drop; lia).
    etransitivity; [|apply (take_drop (n * 3) a)]. f_equal.
    + etransitivity; [|apply (IH _ Ht)].
      apply triples_ext. intros i Hi.
      rewrite !lookup_take_lt by lia. auto.
    + replace (a !! (n * 3)%nat) with (drop (n * 3) a !! 0%nat)
        by (rewrite lookup_drop; f_equal; lia).
      rewrite <- !lookup_drop.
      destruct (drop (n * 3) a) as [|x [|y [|z [|w rest]]]]; try discriminate.
      reflexivity.
Qed.

(** X7.  For a mesh whose position attribute holds [n] whole vertices,
    the pushed positions are, vertex by vertex, the images of the vertices
    under the world matrix of the mesh; a scene made of one such mesh
    under the identity matrix gives back the attribute array itself. *)
Theorem extractPositions_world_transform (m : Mesh) (g : BufferGeometry)
    (posAttr : f32) (n : nat) :
  geometry m = Some g ->
  position g = Some posAttr ->
  length posAttr = (n * 3)%nat ->
  (0 < n)%nat ->
  length (meshPositions m) = (n * 3)%nat /\
  (forall i, (i < n)%nat ->
     exists x y z,
       matrixWorld m (aget posAttr (i * 3), aget posAttr (i * 3 + 1),
                      aget posAttr (i * 3 + 2)) = (x, y, z) /\
       meshPositions m !! (i * 3)%nat = Some x /\
       meshPositions m !! (i * 3 + 1)%nat = Some y /\
       meshPositions m !! (i * 3 + 2)%nat = Some z) /\
  ((forall v, matrixWorld m v = v) ->
     extractPositions (AScene (Object (Some m) [])) = Some posAttr).
Proof.
  intros Hg Hp Hlen Hn.
  set (W := fun i => matrixWorld m (aget posAttr (i * 3), aget posAttr (i * 3 + 1),
                                    aget posAttr (i * 3 + 2))).
  assert (Hmesh : meshPositions m =
            triples (fun i => fst (fst (W i))) (fun i => snd (fst (W i)))
                    (fun i => snd (W i)) n).
  { unfold meshPositions. rewrite Hg, Hp.
    replace (trip_count (inject_Z (Z.of_nat (length posAttr)) / 3)) with n
      by (symmetry; exact (trip_count_well_formed posAttr n Hlen)).
    unfold triples. apply flat_map_ext. intros i. fold (W i).
    destruct (W i) as [[x y] z]. reflexivity. }
  split; [rewrite Hmesh; apply triples_length|]. split.
  - intros i Hi. destruct (W i) as [[x y] z] eqn:EW.
    exists x, y, z. split; [exact EW|].
    rewrite Hmesh.
    destruct (triples_lookup (fun i => fst (fst (W i))) (fun i => snd (fst (W i)))
                (fun i => snd (W i)) n i Hi) as (E0 & E1 & E2).
    rewrite E0, E1, E2, EW. repeat split; reflexivity.
  - intros Hid. unfold extractPositions. cbn [traverse flat_map].
    rewrite app_nil_r, Hmesh.
    assert (Harr : triples (fun i => fst (fst (W i))) (fun i => snd (fst (W i)))
                     (fun i => snd (W i)) n = posAttr).
    { etransitivity; [|apply (triples_of_array NaN n posAttr Hlen)].
      apply triples_ext. intros i Hi. unfold W. rewrite Hid. auto. }
    rewrite Harr, Hlen.
    destruct (Nat.ltb_spec 0 (n * 3)); [reflexivity | lia].
Qed.

Lemma extractPositions_world_transform_witness :
  extractPositions
    (AScene (Object (Some (mkMesh (Some (mkGeometry (Some twoCorners))) (fun v => v))) []))
  = Some twoCorners.
Proof.
  apply (extractPositions_world_transform
           (mkMesh (Some (mkGeometry (Some twoCorners))) (fun v => v))
           (mkGeometry (Some twoCorners)) twoCorners 2).
  - reflexivity.
  - reflexivity.
  - reflexivity.
  - lia.
  - reflexivity.
Defined.

End Extraction.

(** ** The trace of [useModelPositions] *)

Section TraceProperties.

Import Extract Hook Trace.



Lemma onLoad_shape (particleCount : nat) (rnd : nat -> Q) (result : Asset) :
  (exists p, onLoad particleCount rnd result = [SetPositions p]) \/
  (exists p, onLoad particleCount rnd result = [Warn noVertexMessage; SetPositions p]).
Proof.
  unfold onLoad. destruct (extractPositions result) as [raw|]; [|right; eauto].
  destruct (0 <? length raw)%nat; [left | right]; eauto.
Qed.

(** X9.  Every run of the effect sets the positions exactly once, as its
    last act, warns at most once and dispatches at most one load; a load
    is dispatched exactly when the path is not empty and its extension is
    supported. *)
Theorem useModelPositions_trace_shape (modelPath : option string)
    (particleCount : nat) (rnd : nat -> Q) (outcome : LoadOutcome) :
  let events := useModelPositionsEffect modelPath particleCount rnd outcome in
  occurrences isSetPositions events = 1%nat /\
  (exists front p, events = front ++ [SetPositions p]) /\
  (occurrences isWarn events <= 1)%nat /\
  (occurrences isLoad events <= 1)%nat /\
  (occurrences isLoad events = 1%nat <->
     exists path loader,
       modelPath = Some path /\ path <> EmptyString /\
       loaderOf (extension path) = Some loader).
Proof.
  intros events. subst events. unfold useModelPositionsEffect.
  destruct modelPath as [[|c path]|].
  - split; [reflexivity|]. split.
    { exists [], (FallbackSphere (Fallback.generateFallbackSphere particleCount rnd)).
      reflexivity. }
    split; [cbn; lia|]. split; [cbn; lia|]. split.
    + cbn. intros H. discriminate H.
    + intros (p & l & [= <-] & Hne & _). congruence.
  - destruct (loaderOf (extension (String c path))) as [loader|] eqn:El.
    + assert (Hshape :
        exists tail p,
          (match outcome with
           | Loaded result => onLoad particleCount rnd result
           | LoadFailed => onError particleCount rnd
           end) = tail ++ [SetPositions p] /\
          (tail = [] \/ exists msg, tail = [Warn msg])).
      { destruct outcome as [|result].
        - exists [Warn loadFailedMessage]. eexists. split; [reflexivity | eauto].
        - destruct (onLoad_shape particleCount rnd result) as [[p ->]|[p ->]].
          + exists [], p. auto.
          + exists [Warn noVertexMessage], p. eauto. }
      destruct Hshape as (tail & p & -> & Htail).
      assert (Hyes : exists path0 loader0,
                Some (String c path) = Some path0 /\ path0 <> EmptyString /\
                loaderOf (extension path0) = Some loader0).
      { exists (String c path), loader. repeat split; congruence. }
      destruct Htail as [->|[msg ->]].
      * split; [reflexivity|]. split.
        { exists [Load loader ("/models/" ++ String c path)%string], p. reflexivity. }
        split; [cbn; lia|]. split; [cbn; lia|]. split; [intros _; exact Hyes | reflexivity].
      * split; [reflexivity|]. split.
        { exists [Load loader ("/models/" ++ String c path)%string; Warn msg], p.
          reflexivity. }
        split; [cbn; lia|]. split; [cbn; lia|]. split; [intros _; exact Hyes | reflexivity].
    + split; [reflexivity|]. split.
      { eexists [Warn _], _. reflexivity. }
      split; [cbn; lia|]. split; [cbn; lia|]. split.
      * cbn. intros H. discriminate H.
      * intros (p & l & [= <-] & _ & Hl). congruence.
  - split; [reflexivity|]. split.
    { exists [], (FallbackSphere (Fallback.generateFallbackSphere particleCount rnd)).
      reflexivity. }
    split; [cbn; lia|]. split; [cbn; lia|]. split.
    + cbn. intros H. discriminate H.
    + intros (p & l & [=] & _).
Qed.

End TraceProperties.

(** ** The extension of a path *)

Section Extensions.

Import Hook Trace.

Lemma split_on_cons (c : ascii) (s : string) :
  exists piece pieces, split_on c s = piece :: pieces.
Proof.
  destruct s as [|a rest]; [cbn; eauto|].
  cbn. destruct (Ascii.eqb a c); [eauto|].
  destruct (split_on c rest); eauto.
Qed.

Lemma split_on_app (c : ascii) (b e : string) :
  split_on c (b ++ String c e)%string = split_on c b ++ split_on c e.
Proof.
  induction b as [|a b IH].
  - cbn. rewrite Ascii.eqb_refl. reflexivity.
  - cbn. destruct (Ascii.eqb a c).
    + rewrite IH. reflexivity.
    + rewrite IH. destruct (split_on_cons c b) as (piece & pieces & ->).
      reflexivity.
Qed.

Lemma split_on_whole (c : ascii) (s : string) :
  contains c s = false -> split_on c s = [s].
Proof.
  induction s as [|a rest IH]; intros H; [reflexivity|].
  cbn in H. apply orb_false_iff in H. destruct H as [Ha Hrest].
  cbn. rewrite Ha, (IH Hrest). reflexivity.
Qed.

Lemma last_map {A B : Type} (f : A -> B) (l : list A) :
  last (map f l) = f <$> last l.
Proof.
  induction l as [|x [|y l] IH]; [reflexivity | reflexivity |].
  exact IH.
Qed.

Lemma lower_ascii_dot (a : ascii) :
  Ascii.eqb (lower_ascii a) "."%char = Ascii.eqb a "."%char.
Proof.
  destruct a as [[] [] [] [] [] [] [] []]; reflexivity.
Qed.

Lemma lower_ascii_idem (a : ascii) : lower_ascii (lower_ascii a) = lower_ascii a.
Proof.
  destruct a as [[] [] [] [] [] [] [] []]; reflexivity.
Qed.

Lemma toLowerCase_idem (s : string) : toLowerCase (toLowerCase s) = toLowerCase s.
Proof.
  induction s as [|a rest IH]; [reflexivity|].
  cbn. rewrite lower_ascii_idem, IH. reflexivity.
Qed.

Lemma split_on_lower (s : string) :
  split_on "."%char (toLowerCase s) = map toLowerCase (split_on "."%char s).
Proof.
  induction s as [|a rest IH]; [reflexivity|].
  cbn [toLowerCase split_on]. rewrite lower_ascii_dot, IH.
  destruct (Ascii.eqb a "."%char); [reflexivity|].
  destruct (split_on "."%char rest); reflexivity.
Qed.

(** X10.  The extension of [base.ext], where [ext] holds no dot, is
    [ext] in lower case, whatever [base] is (dots included); a path
    without any dot is its own extension. *)
Theorem extension_after_last_dot (base ext : string) :
  contains "."%char ext = false ->
  extension (base ++ "." ++ ext)%string = Some (toLowerCase ext) /\
  extension ext = Some (toLowerCase ext).
Proof.
  intros Hext. unfold extension. split.
  - change (base ++ "." ++ ext)%string with (base ++ String "."%char ext)%string.
    rewrite split_on_app, last_app, (split_on_whole _ _ Hext). reflexivity.
  - rewrite (split_on_whole _ _ Hext). reflexivity.
Qed.

Lemma extension_after_last_dot_witness :
  extension ("scan.v2" ++ "." ++ "PLY")%string = Some (toLowerCase "PLY") /\
  extension "PLY" = Some (toLowerCase "PLY").
Proof.
  apply (extension_after_last_dot "scan.v2" "PLY"). reflexivity.
Defined.

(** X11.  A path always has an extension, it is in lower case, and it
    depends on the path only up to the case of its letters: two paths that
    differ in case alone have the same extension and so the same loader,
    or none. *)
Theorem extension_case_insensitive (p : string) :
  (exists e, extension p = Some e /\ toLowerCase e = e) /\
  extension p = last (split_on "."%char (toLowerCase p)) /\
  (forall q, toLowerCase p = toLowerCase q ->
     extension p = extension q /\ loaderOf (extension p) = loaderOf (extension q)).
Proof.
  assert (Hext : forall s, extension s = last (split_on "."%char (toLowerCase s))).
  { intros s. unfold extension. rewrite split_on_lower, last_map. reflexivity. }
  split; [|split].
  - unfold extension.
    destruct (split_on_cons "."%char p) as (piece & pieces & ->).
    destruct (last (piece :: pieces)) as [e|] eqn:El.
    + exists (toLowerCase e). split; [reflexivity | apply toLowerCase_idem].
    + apply last_None in El. discriminate El.
  - apply Hext.
  - intros q Hq. assert (E : extension p = extension q) by (rewrite !Hext, Hq; reflexivity).
    rewrite E. auto.
Qed.

End Extensions.

(** ** The random buffers *)

Section RandomBuffers.

Import Buffers Ieee.

Lemma for_loop_singles {A : Type} (h : nat -> A) (n : nat) (a0 : list A) :
  length a0 = n ->
  for_loop n (fun i a => <[i := h i]> a) a0 = map h (seq 0 n).
Proof.
  intros Hlen.
  assert (Hinv : forall m, (m <= n)%nat ->
    for_loop m (fun i a => <[i := h i]> a) a0 = map h (seq 0 m) ++ drop m a0).
  { induction m as [|m IH]; intros Hm; [reflexivity|].
    rewrite for_loop_S, IH, seq_S, map_app by lia.
    destruct (lookup_lt_is_Some_2 a0 m) as [x Hx]; [lia|].
    rewrite (drop_S _ _ _ Hx).
    rewrite insert_app_r_alt by (rewrite length_map, length_seq; lia).
    rewrite length_map, length_seq, Nat.sub_diag, <- app_assoc. reflexivity. }
  rewrite Hinv by lia. rewrite drop_ge by lia. apply app_nil_r.
Qed.

Variables rd st : Q -> num.

(** A coordinate, a seed and a speed as the loop body stores them. *)
Let coordinate (spread r : Q) : num :=
  rounded st (fmul rd (fsub rd (Fin r) (Fin 0.5)) (Fin spread)).
Let seed (r : Q) : num := rounded st (Fin r).
Let speed (r : Q) : num := rounded st (fadd rd (Fin 0.5) (fmul rd (Fin r) (Fin 1.5))).

Lemma dust_loop_fields (spread : Q) (rnd : nat -> Q) (m : nat) (p0 r0 s0 : f32) :
  for_loop m (dustBody rd st spread rnd) (mkDust p0 r0 s0) =
  mkDust
    (for_loop m
       (fun i a => <[(i * 3 + 2)%nat := coordinate spread (rnd (5 * i + 2)%nat)]>
                     (<[(i * 3 + 1)%nat := coordinate spread (rnd (5 * i + 1)%nat)]>
                        (<[(i * 3)%nat := coordinate spread (rnd (5 * i)%nat)]> a))) p0)
    (for_loop m (fun i a => <[i := seed (rnd (5 * i + 3)%nat)]> a) r0)
    (for_loop m (fun i a => <[i := speed (rnd (5 * i + 4)%nat)]> a) s0).
Proof.
  induction m as [|m IH]; [reflexivity|].
  rewrite !for_loop_S, IH. reflexivity.
Qed.

Lemma dustBuffers_arrays (count : nat) (spread : Q) (rnd : nat -> Q) :
  dustBuffers rd st count spread rnd =
  mkDust
    (triples (fun i => coordinate spread (rnd (5 * i)%nat))
             (fun i => coordinate spread (rnd (5 * i + 1)%nat))
             (fun i => coordinate spread (rnd (5 * i + 2)%nat)) count)
    (map (fun i => seed (rnd (5 * i + 3)%nat)) (seq 0 count))
    (map (fun i => speed (rnd (5 * i + 4)%nat)) (seq 0 count)).
Proof.
  unfold dustBuffers. rewrite dust_loop_fields.
  rewrite for_loop_triples by apply length_replicate.
  rewrite !for_loop_singles by apply length_replicate.
  reflexivity.
Qed.

Lemma headRandoms_array (particleCount : nat) (rnd : nat -> Q) :
  headRandoms st particleCount rnd
  = map (fun i => rounded st (Fin (rnd i))) (seq 0 particleCount).
Proof.
  unfold headRandoms, aset. apply for_loop_singles, length_replicate.
Qed.

Lemma headRandoms_length (particleCount : nat) (rnd : nat -> Q) :
  length (headRandoms st particleCount rnd) = particleCount.
Proof.
  rewrite headRandoms_array, length_map, length_seq. reflexivity.
Qed.

Hypothesis double_arithmetic : Rounding 53 1023 rd.
Hypothesis single_store : Rounding 24 127 st.

(** A stored seed lies in [0, 1]; the upper end is reached when the
    draw rounds up to 1. *)
Lemma seed_range (r : Q) :
  0 <= r -> r < 1 -> exists v, seed r = Fin v /\ 0 <= v /\ v <= 1.
Proof.
  intros H0 H1. unfold seed, rounded.
  apply (rd_between 24 127 st single_store 0 1 r).
  - apply (representable_int 24 127 single_format 0). reflexivity.
  - apply (representable_int 24 127 single_format 1). reflexivity.
  - exact H0.
  - lra.
Qed.

Lemma speed_range (r : Q) :
  0 <= r -> r < 1 -> exists v, speed r = Fin v /\ 1 # 2 <= v /\ v <= 2.
Proof.
  intros H0 H1. unfold speed.
  assert (Rh : forall prec emax, (1 <= prec <= emax)%Z -> (2 <= emax)%Z ->
                 (4 < 2 ^ prec)%Z ->
                 representable prec emax (1 # 2) /\ representable prec emax 2 /\
                 representable prec emax 0 /\ representable prec emax (3 # 2)).
  { intros prec emax Hf Hm Hp. repeat split.
    - destruct (representable_half prec emax 1 Hf Hm) as (z & e & Hz & He & E); [lia|].
      exists z, e. split; [exact Hz|]. split; [exact He|].
      etransitivity; [|exact E]. reflexivity.
    - apply (representable_int prec emax Hf 2). lia.
    - apply (representable_int prec emax Hf 0). lia.
    - destruct (representable_half prec emax 3 Hf Hm) as (z & e & Hz & He & E); [lia|].
      exists z, e. split; [exact Hz|]. split; [exact He|].
      etransitivity; [|exact E]. reflexivity. }
  destruct (Rh 53%Z 1023%Z double_format ltac:(lia) eq_refl) as (Dh & D2 & D0 & D32).
  destruct (Rh 24%Z 127%Z single_format ltac:(lia) eq_refl) as (Sh & S2 & _ & _).
  rewrite fmul_Fin.
  destruct (rd_between 53 1023 rd double_arithmetic 0 (3 # 2) (r * 1.5) D0 D32)
    as (m & -> & Hm0 & Hm1); [nra | nra |].
  rewrite fadd_Fin.
  destruct (rd_between 53 1023 rd double_arithmetic (1 # 2) 2 (0.5 + m) Dh D2)
    as (t & -> & Ht0 & Ht1); [lra | lra |].
  unfold rounded.
  apply (rd_between 24 127 st single_store (1 # 2) 2 t Sh S2); assumption.
Qed.

Lemma coordinate_range (spread r : Q) :
  0 <= r -> r < 1 -> 0 <= spread ->
  representable 24 127 ((1 # 2) * spread) ->
  exists v, coordinate spread r = Fin v /\
            - ((1 # 2) * spread) <= v /\ v <= (1 # 2) * spread.
Proof.
  intros H0 H1 Hs Rs. unfold coordinate.
  pose proof (representable_double _ Rs) as Rd.
  pose proof (representable_opp _ _ _ Rs) as Rs'.
  pose proof (representable_opp _ _ _ Rd) as Rd'.
  assert (Dh : representable 53 1023 (1 # 2)).
  { destruct (representable_half 53 1023 1 double_format) as (z & e & Hz & He & E);
      [lia | reflexivity|].
    exists z, e. split; [exact Hz|]. split; [exact He|].
      etransitivity; [|exact E]. reflexivity. }
  rewrite fsub_Fin.
  destruct (rd_between 53 1023 rd double_arithmetic (- (1 # 2)) (1 # 2) (r - 0.5))
    as (d & -> & Hd0 & Hd1); [apply representable_opp, Dh | exact Dh | lra | lra |].
  rewrite fmul_Fin.
  assert (Ha : 0 <= (d + (1 # 2)) * spread) by (apply Qmult_le_0_compat; lra).
  assert (Hb : 0 <= ((1 # 2) - d) * spread) by (apply Qmult_le_0_compat; lra).
  destruct (rd_between 53 1023 rd double_arithmetic (- ((1 # 2) * spread))
              ((1 # 2) * spread) (d * spread) Rd' Rd)
    as (c & -> & Hc0 & Hc1); [lra | lra |].
  unfold rounded.
  apply (rd_between 24 127 st single_store (- ((1 # 2) * spread)) ((1 # 2) * spread) c
           Rs' Rs); assumption.
Qed.

Lemma dustBuffers_content (count : nat) (spread : Q) (rnd : nat -> Q) :
  (forall k, 0 <= rnd k /\ rnd k < 1) ->
  0 <= spread ->
  representable 24 127 ((1 # 2) * spread) ->
  let b := dustBuffers rd st count spread rnd in
  length (positions b) = (count * 3)%nat /\
  length (randoms b) = count /\
  length (speeds b) = count /\
  forall i, (i < count)%nat ->
    exists x y z sd sp : Q,
      positions b !! (i * 3)%nat = Some (Fin x) /\
      positions b !! (i * 3 + 1)%nat = Some (Fin y) /\
      positions b !! (i * 3 + 2)%nat = Some (Fin z) /\
      randoms b !! i = Some (Fin sd) /\
      speeds b !! i = Some (Fin sp) /\
      (- ((1 # 2) * spread) <= x /\ x <= (1 # 2) * spread) /\
      (- ((1 # 2) * spread) <= y /\ y <= (1 # 2) * spread) /\
      (- ((1 # 2) * spread) <= z /\ z <= (1 # 2) * spread) /\
      (0 <= sd /\ sd <= 1) /\
      (1 # 2 <= sp /\ sp <= 2).
Proof.
  intros Hrnd Hs Rs b. subst b. rewrite dustBuffers_arrays.
  cbn [positions randoms speeds].
  rewrite triples_length, !length_map, !length_seq.
  split; [reflexivity|]. split; [reflexivity|]. split; [reflexivity|].
  intros i Hi.
  destruct (triples_lookup (fun i => coordinate spread (rnd (5 * i)%nat))
              (fun i => coordinate spread (rnd (5 * i + 1)%nat))
              (fun i => coordinate spread (rnd (5 * i + 2)%nat)) count i Hi)
    as (E0 & E1 & E2).
  destruct (Hrnd (5 * i)%nat) as [A0 A1]. destruct (Hrnd (5 * i + 1)%nat) as [B0 B1].
  destruct (Hrnd (5 * i + 2)%nat) as [C0 C1]. destruct (Hrnd (5 * i + 3)%nat) as [D0 D1].
  destruct (Hrnd (5 * i + 4)%nat) as [F0 F1].
  destruct (coordinate_range spread _ A0 A1 Hs Rs) as (x & Ex & Hx).
  destruct (coordinate_range spread _ B0 B1 Hs Rs) as (y & Ey & Hy).
  destruct (coordinate_range spread _ C0 C1 Hs Rs) as (z & Ez & Hz).
  destruct (seed_range _ D0 D1) as (sd & Esd & Hsd).
  destruct (speed_range _ F0 F1) as (sp & Esp & Hsp).
  exists x, y, z, sd, sp.
  rewrite E0, E1, E2, Ex, Ey, Ez.
  assert (Hseq : seq 0 count !! i = Some i) by (apply lookup_seq; lia).
  rewrite !list_lookup_fmap, Hseq. cbn [fmap option_fmap option_map].
  rewrite Esd, Esp.
  repeat (split; [first [reflexivity | assumption]|]). exact Hsp.
Qed.

End RandomBuffers.

(** X12.  The memo of [DustParticles] fills three arrays of [3 * count],
    [count] and [count] numbers.  In double-precision arithmetic, stored
    in single precision, and for a non-negative [spread] whose half is a
    single-precision number: every coordinate lies within half the spread
    of the origin, every seed lies in [0, 1] and every speed in [0.5, 2],
    the upper ends included. *)
Theorem dustBuffers_ranges (count : nat) (spread : Q) (rnd : nat -> Q) :
  (forall k, 0 <= rnd k /\ rnd k < 1) ->
  0 <= spread ->
  Ieee.representable 24 127 ((1 # 2) * spread) ->
  let b := Buffers.dustBuffers Ieee.double Ieee.single count spread rnd in
  length (Buffers.positions b) = (count * 3)%nat /\
  length (Buffers.randoms b) = count /\
  length (Buffers.speeds b) = count /\
  forall i, (i < count)%nat ->
    exists x y z seed speed : Q,
      Buffers.positions b !! (i * 3)%nat = Some (Fin x) /\
      Buffers.positions b !! (i * 3 + 1)%nat = Some (Fin y) /\
      Buffers.positions b !! (i * 3 + 2)%nat = Some (Fin z) /\
      Buffers.randoms b !! i = Some (Fin seed) /\
      Buffers.speeds b !! i = Some (Fin speed) /\
      (- ((1 # 2) * spread) <= x /\ x <= (1 # 2) * spread) /\
      (- ((1 # 2) * spread) <= y /\ y <= (1 # 2) * spread) /\
      (- ((1 # 2) * spread) <= z /\ z <= (1 # 2) * spread) /\
      (0 <= seed /\ seed <= 1) /\
      (1 # 2 <= speed /\ speed <= 2).
Proof.
  intros Hrnd Hs Rs.
  exact (dustBuffers_content Ieee.double Ieee.single double_rounding single_rounding
           count spread rnd Hrnd Hs Rs).
Qed.

Lemma dustBuffers_ranges_witness :
  length (Buffers.positions
            (Buffers.dustBuffers Ieee.double Ieee.single 2 8 Doubles.justBelowOne))
  = (2 * 3)%nat.
Proof.
  apply (dustBuffers_ranges 2 8 Doubles.justBelowOne).
  - intros k. vm_compute. split; [discriminate | reflexivity].
  - discriminate.
  - exists 4%Z, 0%Z. split; [reflexivity|]. split; [lia | reflexivity].
Defined.

(** The upper ends are reached: the draw [1 - 2 ^ -52] is stored as the
    seed 1 and gives the speed 2. *)
Example dustBuffers_upper_ends :
  Buffers.randoms (Buffers.dustBuffers Ieee.double Ieee.single 1 8 Doubles.justBelowOne)
    = [Fin 1] /\
  Buffers.speeds (Buffers.dustBuffers Ieee.double Ieee.single 1 8 Doubles.justBelowOne)
    = [Fin 2].
Proof. split; vm_compute; reflexivity. Qed.

(** ** Seeds and positions of [ParticleHead] *)

Section SeedsAndPositions.

Import Extract Hook Trace Buffers.

(** X13.  [ParticleHead] draws [particleCount] seeds, each stored as the
    single-precision number nearest to the draw.  Whatever the hook ends
    with, the positions hold at most [3 * particleCount] numbers, so no
    point is left without a seed; the fallback sphere holds exactly that
    many. *)
Theorem seeds_cover_positions (modelPath : option string) (particleCount : nat)
    (rnd rnd' : nat -> Q) (outcome : LoadOutcome) :
  let events := useModelPositionsEffect modelPath particleCount rnd outcome in
  let seeds := headRandoms Ieee.single particleCount rnd' in
  length seeds = particleCount /\
  (forall i, (i < particleCount)%nat ->
     seeds !! i = Some (Ieee.single (Qred (rnd' i)))) /\
  (exists p,
     positionsAfter events = Some p /\
     (positionsLength p <= 3 * length seeds)%nat) /\
  positionsLength (FallbackSphere (Fallback.generateFallbackSphere particleCount rnd))
    = (3 * length seeds)%nat.
Proof.
  intros events seeds. subst seeds.
  rewrite headRandoms_length.
  assert (Hfb : positionsLength
                  (FallbackSphere (Fallback.generateFallbackSphere particleCount rnd))
                = (3 * particleCount)%nat).
  { cbn. rewrite generateFallbackSphere_length. lia. }
  split; [reflexivity|]. split; [|split; [|exact Hfb]].
  - intros i Hi. rewrite headRandoms_array, list_lookup_fmap, lookup_seq_lt by lia.
    reflexivity.
  - subst events. unfold useModelPositionsEffect.
    destruct modelPath as [[|c path]|];
      try (eexists; split; [reflexivity | rewrite Hfb; lia]).
    destruct (loaderOf (extension (String c path)));
      [|eexists; split; [reflexivity | rewrite Hfb; lia]].
    destruct outcome as [|result];
      [eexists; split; [reflexivity | rewrite Hfb; lia]|].
    unfold onLoad. destruct (extractPositions result) as [raw|];
      [|eexists; split; [reflexivity | rewrite Hfb; lia]].
    destruct (0 <? length raw)%nat;
      [|eexists; split; [reflexivity | rewrite Hfb; lia]].
    eexists. split; [reflexivity|].
    cbn [positionsLength]. rewrite normalize_length, sample_length. lia.
Qed.

End SeedsAndPositions.

(** ** The clock uniform *)

Section ClockUniform.

Import Frame DustFrame.

Lemma default_last_cons {A : Type} (a t : A) (l : list A) :
  default a (last (t :: l)) = default t (last l).
Proof.
  destruct l as [|x l]; [reflexivity|].
  change (last (t :: x :: l)) with (last (x :: l)).
  destruct (last (x :: l)) eqn:E; [reflexivity|].
  apply last_None in E. discriminate E.
Qed.

Lemma runHead_refs (rd : Q -> num) (rotationSpeed : num) (clock : list Q) (s : HeadRefs) :
  uTime (runHead rd rotationSpeed clock s)
    = match uTime s with
      | Some t0 => Some (default t0 (last clock))
      | None => None
      end /\
  (pointsRotationY s = None ->
   pointsRotationY (runHead rd rotationSpeed clock s) = None).
Proof.
  revert s. induction clock as [|t clock IH]; intros s.
  - cbn. destruct (uTime s); auto.
  - unfold runHead. cbn [fold_left].
    destruct (IH (particleHeadFrame rd rotationSpeed t s)) as [Hu Hp].
    unfold runHead in Hu, Hp. rewrite Hu. split.
    + unfold particleHeadFrame. cbn [uTime].
      destruct (uTime s); [|reflexivity].
      rewrite default_last_cons. reflexivity.
    + intros Hnone. apply Hp. unfold particleHeadFrame. cbn [pointsRotationY].
      rewrite Hnone. reflexivity.
Qed.

(** X14.  After any number of frames the [uTime] uniform of a mounted
    material holds the last clock reading (its initial value when no frame
    ran), for the head and for the dust alike, whatever the rotation speed
    and however the arithmetic rounds; a ref that is [null] stays [null]:
    the callbacks mount nothing. *)
Theorem clock_uniform_follows (rd : Q -> num) (rotationSpeed : num) (t0 : Q)
    (clock : list Q) (rotation : option num) (material : option Q) :
  uTime (runHead rd rotationSpeed clock (mkHeadRefs (Some t0) rotation))
    = Some (default t0 (last clock)) /\
  uTime (runHead rd rotationSpeed clock (mkHeadRefs None rotation)) = None /\
  pointsRotationY (runHead rd rotationSpeed clock (mkHeadRefs material None)) = None /\
  fold_left (fun u elapsed => dustFrame elapsed u) clock (Some t0)
    = Some (default t0 (last clock)) /\
  fold_left (fun u elapsed => dustFrame elapsed u) clock None = None.
Proof.
  split; [apply (runHead_refs rd rotationSpeed clock (mkHeadRefs (Some t0) rotation))|].
  split; [apply (runHead_refs rd rotationSpeed clock (mkHeadRefs None rotation))|].
  split; [apply (runHead_refs rd rotationSpeed clock (mkHeadRefs material None)); reflexivity|].
  split.
  - revert t0. induction clock as [|t clock IH]; intros t0; [reflexivity|].
    cbn [fold_left dustFrame]. rewrite IH, default_last_cons. reflexivity.
  - induction clock as [|t clock IH]; [reflexivity | exact IH].
Qed.

End ClockUniform.

(** ** Scaling and centring of the disk model *)

Section DiskModel.

Import Extract DiskScale.



Lemma centre_times_infinity (c : Q) :
  (c == 0 -> mul (neg (Fin c)) PInf = NaN) /\
  (0 < c -> mul (neg (Fin c)) PInf = NInf) /\
  (c < 0 -> mul (neg (Fin c)) PInf = PInf).
Proof.
  unfold neg, fin, mul, inf_of_sign.
  destruct (Qcompare_spec (Qred (- c)) 0) as [E|E|E]; rewrite Qred_correct in E;
    repeat split; intros H; first [reflexivity | exfalso; lra].
Qed.

(** X16.  A model without extent (every dimension of its box is zero, as
    for a model without vertices) is scaled by [Infinity]; along each of
    the three axes the coordinate of its position is [NaN] where the
    centre is zero, [-Infinity] where the centre is positive and
    [Infinity] where it is negative. *)
Theorem diskScale_no_extent (sx sy sz cx cy cz : Q) :
  maxDim (Fin sx, Fin sy, Fin sz) = Fin 0 ->
  let p := diskPosition (Fin sx, Fin sy, Fin sz) (Fin cx, Fin cy, Fin cz) in
  diskScale (Fin sx, Fin sy, Fin sz) = PInf /\
  ((cx == 0 -> fst (fst p) = NaN) /\
   (0 < cx -> fst (fst p) = NInf) /\
   (cx < 0 -> fst (fst p) = PInf)) /\
  ((cy == 0 -> snd (fst p) = NaN) /\
   (0 < cy -> snd (fst p) = NInf) /\
   (cy < 0 -> snd (fst p) = PInf)) /\
  ((cz == 0 -> snd p = NaN) /\
   (0 < cz -> snd p = NInf) /\
   (cz < 0 -> snd p = PInf)).
Proof.
  intros Hd p.
  assert (Hscale : diskScale (Fin sx, Fin sy, Fin sz) = PInf).
  { unfold diskScale, targetSize. rewrite Hd. reflexivity. }
  split; [exact Hscale|].
  subst p. unfold diskPosition. rewrite Hscale. cbn [fst snd].
  split; [apply centre_times_infinity|].
  split; apply centre_times_infinity.
Qed.

Lemma diskScale_no_extent_witness :
  diskScale (Fin 0, Fin 0, Fin 0) = PInf /\
  fst (fst (diskPosition (Fin 0, Fin 0, Fin 0) (Fin 0, Fin 3, Fin (-2)))) = NaN /\
  snd (fst (diskPosition (Fin 0, Fin 0, Fin 0) (Fin 0, Fin 3, Fin (-2)))) = NInf /\
  snd (diskPosition (Fin 0, Fin 0, Fin 0) (Fin 0, Fin 3, Fin (-2))) = PInf.
Proof.
  destruct (diskScale_no_extent 0 0 0 0 3 (-2) eq_refl)
    as (Hs & (Hx & _ & _) & (_ & Hy & _) & (_ & _ & Hz)).
  split; [exact Hs|].
  split; [apply Hx; reflexivity|].
  split; [apply Hy; reflexivity | apply Hz; reflexivity].
Defined.

End DiskModel.

(** ** The materials of a mesh *)

Section MeshMaterials.

Import DiskMaterial DiskMesh.

Lemma roleOf_replaceMaterial (glowColor : string) (m : Material) :
  roleOf (replaceMaterial glowColor m) = classify m.
Proof.
  unfold replaceMaterial, classify.
  destruct (gtb (luminance m) 0.5 || hasEmissive m)%bool; reflexivity.
Qed.

(** X17.  The traversal replaces the materials of a mesh one for one and
    in order: material [i] of the result is the replacement of material
    [i] of the original, glow or body as the original classifies.  The
    result is a single material exactly when the mesh had one material,
    alone or in an array of one element; otherwise it is an array of the
    same length. *)
Theorem processMaterial_one_for_one (glowColor : string) (slot : MaterialSlot Material) :
  materialsOf (processMaterial glowColor slot)
    = map (replaceMaterial glowColor) (materialsOf slot) /\
  length (materialsOf (processMaterial glowColor slot)) = length (materialsOf slot) /\
  (forall i m, materialsOf slot !! i = Some m ->
     exists r, materialsOf (processMaterial glowColor slot) !! i = Some r /\
               r = replaceMaterial glowColor m /\ roleOf r = classify m) /\
  ((exists r, processMaterial glowColor slot = Single r)
     <-> length (materialsOf slot) = 1%nat) /\
  (length (materialsOf slot) <> 1%nat ->
     processMaterial glowColor slot
       = Multi (map (replaceMaterial glowColor) (materialsOf slot))).
Proof.
  assert (Hmats : materialsOf (processMaterial glowColor slot)
                  = map (replaceMaterial glowColor) (materialsOf slot)).
  { unfold processMaterial.
    destruct (map (replaceMaterial glowColor) (materialsOf slot)) as [|r [|r' rs]];
      reflexivity. }
  split; [exact Hmats|]. split; [rewrite Hmats; apply length_map|]. split; [|split].
  - intros i m Hi. exists (replaceMaterial glowColor m).
    rewrite Hmats, list_lookup_fmap, Hi.
    split; [reflexivity|]. split; [reflexivity | apply roleOf_replaceMaterial].
  - unfold processMaterial.
    destruct (materialsOf slot) as [|m [|m' ms]]; cbn; split;
      try discriminate; try (intros [r H]; discriminate H); eauto.
  - intros Hne. unfold processMaterial.
    destruct (materialsOf slot) as [|m [|m' ms]]; cbn in *; congruence.
Qed.

End MeshMaterials.

(** ** The GLSL programs *)

Section ShaderProperties.

Import Shaders.
Local Open Scope R_scope.

Lemma clamp_unit (x : R) : 0 <= clamp x 0 1 <= 1.
Proof.
  unfold clamp, Rmin, Rmax.
  destruct (Rle_dec x 0); destruct (Rle_dec _ 1); Lra.lra.
Qed.

Lemma smoothstep_range (edge0 edge1 x : R) : 0 <= smoothstep edge0 edge1 x <= 1.
Proof.
  unfold smoothstep.
  pose proof (clamp_unit ((x - edge0) / (edge1 - edge0))) as Ht.
  set (t := clamp ((x - edge0) / (edge1 - edge0)) 0 1) in *.
  assert (Hsq : 0 <= t * t) by (apply Rmult_le_pos; Lra.lra).
  assert (Hlow : 0 <= (t * t) * (3 - 2 * t)) by (apply Rmult_le_pos; Lra.lra).
  assert (Hsq' : 0 <= (1 - t) * (1 - t)) by (apply Rmult_le_pos; Lra.lra).
  assert (Hup : 0 <= ((1 - t) * (1 - t)) * (1 + 2 * t)) by (apply Rmult_le_pos; Lra.lra).
  split; Lra.lra.
Qed.

Lemma mix_between (x y a : R) : 0 <= a <= 1 -> x <= y -> x <= mix x y a <= y.
Proof. intros Ha Hxy. unfold mix. split; Lra.nra. Qed.

Lemma glmod_range (x : R) : 0 <= glmod x 10.0 < 10.0.
Proof.
  unfold glmod, floor.
  destruct (base_Int_part (x / 10.0)) as [H1 H2].
  split; Lra.lra.
Qed.

Lemma scaled_sin_bound (t s : R) : Rabs (sin t * s) <= Rabs s.
Proof.
  rewrite Rabs_mult. pose proof (Rabs_pos s).
  assert (H1 : Rabs (sin t) <= 1) by (apply Rabs_le, SIN_bound).
  Lra.nra.
Qed.

(** X18.  The head vertex program moves a particle by at most the noise
    scale along each axis, at every time and for every seed; for a seed in
    [0,1] the opacity it hands on lies in [0.4, 1]; and for a positive
    point size and a vertex in front of the camera the size of the sprite
    is positive and falls as the inverse of the depth. *)
Theorem headVertex_bounds (modelViewMatrix projectionMatrix : vec4 -> vec4)
    (uTime uNoiseScale uNoiseSpeed uPointSize aRandom x y z : R) :
  0 <= aRandom <= 1 ->
  let '(x', y', z') := headDrift uTime uNoiseScale uNoiseSpeed aRandom (x, y, z) in
  let out := headVertex modelViewMatrix projectionMatrix uTime uNoiseScale uNoiseSpeed
               uPointSize aRandom (x, y, z) in
  let mvz := snd (fst (modelViewMatrix (x', y', z', 1.0))) in
  Rabs (x' - x) <= Rabs uNoiseScale /\
  Rabs (y' - y) <= Rabs uNoiseScale /\
  Rabs (z' - z) <= Rabs uNoiseScale /\
  0.4 <= vAlpha out <= 1 /\
  gl_PointSize out = uPointSize * (300 / - mvz) /\
  (0 < uPointSize -> mvz < 0 ->
     0 < gl_PointSize out /\ gl_PointSize out * (- mvz) = 300 * uPointSize).
Proof.
  intros Ha. unfold headVertex, headDrift, snoiseVec3.
  destruct (modelViewMatrix _) as [[[mx my] mvz] mw] eqn:Emv.
  cbn [vAlpha gl_PointSize fst snd].
  split; [|split; [|split; [|split; [|split]]]].
  - match goal with |- Rabs (x + sin ?t * _ - x) <= _ =>
      replace (x + sin t * uNoiseScale - x) with (sin t * uNoiseScale) by ring end.
    apply scaled_sin_bound.
  - match goal with |- Rabs (y + sin ?t * _ - y) <= _ =>
      replace (y + sin t * uNoiseScale - y) with (sin t * uNoiseScale) by ring end.
    apply scaled_sin_bound.
  - match goal with |- Rabs (z + sin ?t * _ - z) <= _ =>
      replace (z + sin t * uNoiseScale - z) with (sin t * uNoiseScale) by ring end.
    apply scaled_sin_bound.
  - unfold mix. split; Lra.lra.
  - f_equal. f_equal. Lra.lra.
  - intros Hsize Hz. split.
    + apply Rmult_lt_0_compat; [assumption|].
      apply Rdiv_lt_0_compat; Lra.lra.
    + replace 300.0 with 300 by Lra.lra. field. Lra.lra.
Qed.

Lemma headVertex_bounds_witness :
  let '(x', y', z') := headDrift 1 0.015 0.8 0.5 (0, 0, 0) in
  Rabs (x' - 0) <= Rabs 0.015.
Proof.
  apply (headVertex_bounds (fun p => p) (fun p => p) 1 0.015 0.8 2.5 0.5 0 0 0).
  Lra.lra.
Defined.

Lemma falloff_range (dist : R) : 0 <= 1.0 - smoothstep 0.0 0.5 dist <= 1.
Proof.
  pose proof (smoothstep_range 0.0 0.5 dist). Lra.lra.
Qed.

Lemma falloff_centre : 1.0 - smoothstep 0.0 0.5 0 = 1.
Proof.
  unfold smoothstep, clamp, Rmin, Rmax.
  replace ((0 - 0.0) / (0.5 - 0.0)) with 0
    by (unfold Rdiv; replace (0 - 0.0) with 0 by Lra.lra; symmetry; apply Rmult_0_l).
  destruct (Rle_dec 0 0); destruct (Rle_dec _ 1); Lra.lra.
Qed.

Lemma falloff_rim : 1.0 - smoothstep 0.0 0.5 0.5 = 0.
Proof.
  unfold smoothstep, clamp, Rmin, Rmax.
  replace ((0.5 - 0.0) / (0.5 - 0.0)) with 1
    by (unfold Rdiv; symmetry; apply Rinv_r; Lra.lra).
  destruct (Rle_dec 1 0); destruct (Rle_dec _ 1); Lra.lra.
Qed.

Lemma centre_distance : length2 (0.5 - 0.5, 0.5 - 0.5) = 0.
Proof.
  unfold length2. cbn [fst snd].
  replace ((0.5 - 0.5) * (0.5 - 0.5) + (0.5 - 0.5) * (0.5 - 0.5)) with 0 by Lra.lra.
  apply sqrt_0.
Qed.

(** X19.  The head fragment program draws a round sprite: a pixel is
    discarded exactly when it lies farther than 0.5 from the centre of the
    sprite.  For an opacity in [0,1] and a colour with channels in [0,1],
    a pixel that is kept has an alpha between 0 and 0.85 times the
    opacity, and every channel of its colour lies between the channel of
    the base colour and white.  The alpha is 0.85 times the opacity at the
    centre and 0 on the rim. *)
Theorem headFragment_sprite (r g b vAlpha u v : R) :
  0 <= vAlpha <= 1 ->
  0 <= r <= 1 -> 0 <= g <= 1 -> 0 <= b <= 1 ->
  let dist := length2 (u - 0.5, v - 0.5) in
  (headFragment (r, g, b) vAlpha (u, v) = None <-> 0.5 < dist) /\
  (forall cr cg cb alpha,
     headFragment (r, g, b) vAlpha (u, v) = Some ((cr, cg, cb), alpha) ->
     0 <= alpha <= 0.85 * vAlpha /\
     r <= cr <= 1 /\ g <= cg <= 1 /\ b <= cb <= 1) /\
  (exists colour alpha,
     headFragment (r, g, b) vAlpha (0.5, 0.5) = Some (colour, alpha) /\
     alpha = 0.85 * vAlpha) /\
  (dist = 0.5 ->
     exists colour alpha,
       headFragment (r, g, b) vAlpha (u, v) = Some (colour, alpha) /\ alpha = 0).
Proof.
  intros Ha Hr Hg Hb dist. unfold headFragment. cbn [fst snd]. fold dist.
  split; [|split; [|split]].
  - destruct (Rlt_dec 0.5 dist); split; intros H; try discriminate; tauto.
  - intros cr cg cb alpha. destruct (Rlt_dec 0.5 dist); [discriminate|].
    intros [= <- <- <- <-].
    pose proof (falloff_range dist) as Hf.
    set (f := 1.0 - smoothstep 0.0 0.5 dist) in *.
    assert (Hfa : 0 <= f * vAlpha <= vAlpha) by (split; Lra.nra).
    assert (Hm : 0 <= f * vAlpha * 0.3 <= 1) by Lra.lra.
    split; [Lra.lra|].
    assert (Hx : forall c, 0 <= c <= 1 -> c <= mix c 1.0 (f * vAlpha * 0.3) <= 1).
    { intros c Hc. pose proof (mix_between c 1.0 _ Hm). Lra.lra. }
    auto.
  - rewrite centre_distance.
    destruct (Rlt_dec 0.5 0); [Lra.lra|].
    eexists _, _. split; [reflexivity|]. rewrite falloff_centre. Lra.lra.
  - intros Hd. rewrite Hd.
    destruct (Rlt_dec 0.5 0.5); [Lra.lra|].
    eexists _, _. split; [reflexivity|]. rewrite falloff_rim. Lra.lra.
Qed.

Lemma headFragment_sprite_witness :
  exists colour alpha,
    headFragment (0.5, 0.5, 1) 1 (0.5, 0.5) = Some (colour, alpha) /\
    alpha = 0.85 * 1.
Proof.
  apply (headFragment_sprite 0.5 0.5 1 1 0.5 0.5); Lra.lra.
Defined.

(** X20.  The dust vertex program lifts a particle by an offset in
    [-5, 5) that depends on the time and the speed, and moves it sideways
    by at most 0.3 along each of the two other axes; for a seed in [0,1]
    the opacity it hands on lies in [0.1, 0.4].  The dust fragment program
    discards the pixels farther than 0.5 from the centre of the sprite,
    keeps the colour, and for a non-negative opacity gives the others an
    alpha between 0 and that opacity. *)
Theorem dust_programs_bounds (modelViewMatrix projectionMatrix : vec4 -> vec4)
    (uTime uPointSize aRandom aSpeed x y z : R) (uColor : vec3) (opacity u v : R) :
  0 <= aRandom <= 1 ->
  0 <= opacity ->
  let '(x', y', z') := dustDrift uTime aRandom aSpeed (x, y, z) in
  let out := dustVertex modelViewMatrix projectionMatrix uTime uPointSize aRandom aSpeed
               (x, y, z) in
  let dist := length2 (u - 0.5, v - 0.5) in
  (-5 <= y' - y < 5) /\
  Rabs (x' - x) <= 0.3 /\
  Rabs (z' - z) <= 0.3 /\
  0.1 <= vAlpha out <= 0.4 /\
  (dustFragment uColor opacity (u, v) = None <-> 0.5 < dist) /\
  (forall colour alpha,
     dustFragment uColor opacity (u, v) = Some (colour, alpha) ->
     colour = uColor /\ 0 <= alpha <= opacity).
Proof.
  intros Ha Ho. unfold dustVertex, dustDrift, dustFragment.
  destruct (modelViewMatrix _) as [[[mx my] mvz] mw].
  cbn [vAlpha fst snd].
  split; [|split; [|split; [|split; [|split]]]].
  - pose proof (glmod_range (uTime * aSpeed * 0.1)). Lra.lra.
  - match goal with |- Rabs (x + sin ?t * _ - x) <= _ =>
      replace (x + sin t * 0.3 - x) with (sin t * 0.3) by ring;
      pose proof (SIN_bound t) end.
    apply Rabs_le. Lra.lra.
  - match goal with |- Rabs (z + cos ?t * _ - z) <= _ =>
      replace (z + cos t * 0.3 - z) with (cos t * 0.3) by ring;
      pose proof (COS_bound t) end.
    apply Rabs_le. Lra.lra.
  - unfold mix. split; Lra.lra.
  - destruct (Rlt_dec 0.5 _); split; intros H; try discriminate; tauto.
  - intros colour alpha. destruct (Rlt_dec 0.5 _); [discriminate|].
    intros [= <- <-]. split; [reflexivity|].
    pose proof (falloff_range (length2 (u - 0.5, v - 0.5))) as Hf.
    split; Lra.nra.
Qed.

Lemma dust_programs_bounds_witness :
  let '(x', y', z') := dustDrift 1 0.5 1 (0, 0, 0) in
  -5 <= y' - 0 < 5.
Proof.
  apply (dust_programs_bounds (fun p => p) (fun p => p) 1 2 0.5 1 0 0 0 (1, 1, 1) 1 0 0);
    Lra.lra.
Defined.

End ShaderProperties.

(** ** The heights of the fallback sphere *)

Section FallbackHeights.

Import Fallback.
Local Open Scope R_scope.

Lemma height_fraction_range (count i : nat) :
  (i < count)%nat -> -1 < 1 - (2 * INR i + 1) / INR count < 1.
Proof.
  intros Hi.
  assert (Hc : INR i + 1 <= INR count) by (rewrite <- S_INR; apply le_INR; lia).
  pose proof (pos_INR i) as Hi0.
  assert (Hpos : 0 < INR count) by Lra.lra.
  assert (Hq : 0 < (2 * INR i + 1) / INR count) by (apply Rdiv_lt_0_compat; Lra.lra).
  assert (Hq2 : (2 * INR i + 1) / INR count < 2).
  { apply (Rmult_lt_reg_r (INR count)); [exact Hpos|].
    unfold Rdiv. rewrite Rmult_assoc, Rinv_l by Lra.lra. Lra.lra. }
  split; Lra.lra.
Qed.

(** X21.  The heights of the fallback points are evenly spread: the third
    coordinate of point [i] is its radius times [1 - (2 i + 1) / count],
    a fraction strictly between -1 and 1 that falls by [2 / count] from
    one point to the next and is opposite for the points [i] and
    [count - 1 - i]. *)
Theorem generateFallbackSphere_heights (count i : nat) (rnd : nat -> Q) :
  (i < count)%nat ->
  let h := fun k : nat => 1 - (2 * INR k + 1) / INR count in
  generateFallbackSphere count rnd !! (i * 3 + 2)%nat = Some (radius rnd i * h i) /\
  -1 < h i < 1 /\
  h (count - 1 - i)%nat = - h i /\
  h (S i) = h i - 2 / INR count.
Proof.
  intros Hi h.
  assert (Hc : INR i + 1 <= INR count) by (rewrite <- S_INR; apply le_INR; lia).
  pose proof (pos_INR i) as Hi0.
  assert (Hne : INR count <> 0) by Lra.lra.
  pose proof (height_fraction_range count i Hi) as Hr. fold (h i) in Hr.
  split; [|split; [exact Hr|split]].
  - rewrite generateFallbackSphere_triples.
    destruct (triples_lookup
                (fun i => radius rnd i * sin (phi count i) * cos (theta i))
                (fun i => radius rnd i * sin (phi count i) * sin (theta i))
                (fun i => radius rnd i * cos (phi count i)) count i Hi)
      as (_ & _ & ->).
    do 2 f_equal. unfold phi.
    replace (2 * (INR i + 0.5)) with (2 * INR i + 1) by Lra.lra.
    apply cos_acos. fold (h i). Lra.lra.
  - unfold h. rewrite !minus_INR by lia. change (INR 1) with 1. field. exact Hne.
  - unfold h. rewrite S_INR. field. exact Hne.
Qed.

Lemma generateFallbackSphere_heights_witness :
  let h := fun k : nat => 1 - (2 * INR k + 1) / INR 3 in
  generateFallbackSphere 3 lateThenEarly !! (1 * 3 + 2)%nat
    = Some (radius lateThenEarly 1 * h 1%nat) /\
  -1 < h 1%nat < 1 /\
  h (3 - 1 - 1)%nat = - h 1%nat /\
  h 2%nat = h 1%nat - 2 / INR 3.
Proof.
  apply (generateFallbackSphere_heights 3 1 lateThenEarly). lia.
Defined.

End FallbackHeights.

(** ** Sampling, then normalizing *)



